(** * Voice-chat turn orchestration: a shallow embedding of
      [apps/api/src/index.ts] and the properties of its specification.

    The server is a single-threaded Node.js process.  Every socket handler,
    timer callback and resumption after an [await] runs to completion before
    the next one starts, so each of them is a function from state to state
    (plus the events it emits), and an execution is a sequence of such steps. *)

From Stdlib Require Import ZArith NArith Lia Ascii String.
From Stdlib.Strings Require Import Byte.
From Stdlib Require QArith.
From stdpp Require Import gmap strings list fin_maps.

Local Open Scope Z_scope.

(** ** JavaScript strings

    A JS string is a sequence of UTF-16 code units.  [js] turns an ASCII
    literal into one. *)

Definition jsstring : Type := list N.

Definition js (s : string) : jsstring :=
  (fun c => N_of_ascii c) <$> list_ascii_of_string s.

(** WhiteSpace and LineTerminator code points, the ones [String.prototype.trim]
    strips: TAB, LF, VT, FF, CR, SP, NBSP, U+1680, U+2000..U+200A, LS, PS,
    U+202F, U+205F, U+3000, BOM. *)
Definition isWhiteSpace (c : N) : bool :=
  ((9 <=? c) && (c <=? 13) || (c =? 32) || (c =? 160) || (c =? 5760)
   || (8192 <=? c) && (c <=? 8202) || (c =? 8232) || (c =? 8233)
   || (c =? 8239) || (c =? 8287) || (c =? 12288) || (c =? 65279))%N.

Fixpoint trimStart (s : jsstring) : jsstring :=
  match s with
  | c :: s' => if isWhiteSpace c then trimStart s' else s
  | [] => []
  end.

Definition trimEnd (s : jsstring) : jsstring := reverse (trimStart (reverse s)).

(** [s.trim()] *)
Definition trim (s : jsstring) : jsstring := trimEnd (trimStart s).

(** A string that is empty or begins with a non-blank. *)
Definition starts_solid (s : jsstring) : Prop :=
  match s with [] => True | c :: _ => isWhiteSpace c = false end.

(** Truthiness of a string: only the empty string is falsy. *)
Definition truthy (s : jsstring) : bool :=
  match s with [] => false | _ :: _ => true end.

(** [a || b] on an optional string ([undefined] is falsy as well). *)
Definition or_else (a : option jsstring) (b : jsstring) : jsstring :=
  match a with
  | Some s => if truthy s then s else b
  | None => b
  end.

Definition jsstring_eqb (a b : jsstring) : bool := bool_decide (a = b).

(** ** AudioAccumulator: the buffer part of [socket.on('audio-stream')] *)

Definition Buffer : Type := list byte.

Definition byteLength (b : Buffer) : Z := Z.of_nat (length b).

Definition maxBytes : Z := 1500000.

(** [buffer.reduce((acc, b) => acc + b.length, 0)] *)
Definition total_bytes (buffer : list Buffer) : Z :=
  foldl (fun acc b => acc + byteLength b) 0 buffer.

(** [while (total > maxBytes && buffer.length > 1) { removed = buffer.shift();
    total -= removed.length }], returning the array and [total]. *)
Fixpoint trim_front (total : Z) (buffer : list Buffer) : list Buffer * Z :=
  match buffer with
  | removed :: rest =>
      if (total >? maxBytes) && (1 <? length buffer)%nat
      then trim_front (total - byteLength removed) rest
      else (buffer, total)
  | [] => ([], total)
  end.

(** [buffer.push(Buffer.from(chunk))] followed by the trimming loop. *)
Definition audio_append (buffer : list Buffer) (chunk : Buffer) : list Buffer * Z :=
  let buffer := buffer ++ [chunk] in
  trim_front (total_bytes buffer) buffer.

(** A run of [audio-stream] events on one session's array. *)
Definition audio_appends (buffer : list Buffer) (chunks : list Buffer) : list Buffer :=
  foldl (fun b c => fst (audio_append b c)) buffer chunks.

(** ** Data model *)

Inductive Role : Type := user | assistant.

Record ConversationMessage : Type := mkMessage {
  role : Role;
  content : jsstring;
  timestamp : Z;
}.

Record ConversationPreferences : Type := mkPrefs {
  targetLanguage : jsstring;
  lastDetectedLanguage : option jsstring;
}.

Inductive InputSource : Type := voice | text.

(** An [AbortController] is identified by the number it was allocated with. *)
Record InFlightControllers : Type := mkControllers {
  llm : option nat;
  stt : option nat;
  tts : option nat;
}.

Record ChatGPTCallState : Type := mkCallState {
  isWaiting : bool;
  lastCallTime : Z;
  pendingInput : option jsstring;
}.

(** What an armed [setTimeout] will run, and its delay in milliseconds. *)
Inductive TimerTask : Type :=
| PartialTranscription (socketId : string) (delay : Z)
| WaitWindow (socketId : string) (delay : Z).

(** Events sent to the client with [socket.emit].  The ISO time stamps of the
    payloads are wall-clock reads and are left out; message ids and message
    time stamps are kept. *)
Inductive Emit : Type :=
| ProcessingComplete
| MessageReceived (text : jsstring) (isVoice : bool) (ts : Z)
| AiTyping (isTyping : bool)
| AiMessageStart (id : Z)
| AiToken (id : Z) (token : jsstring)
| AiMessageDone (id : Z) (text : jsstring)
| AiAudioChunk (id : Z) (audioBuffer : Buffer)
| AiAudioDone (id : Z)
| AiResponse (id : Z) (text : jsstring)
| LanguageUpdated (language : jsstring)
| ErrorEvent (message : jsstring).

(** The module-level maps of the server, keyed by socket id.  History arrays
    are shared mutable objects: [conversationHistory] holds references into
    [arrays].  [aborted] records the controllers whose [abort()] was called,
    [timers] the armed time-outs by handle, [nextId] the next fresh
    reference, handle or controller number. *)
Record Server : Type := mkServer {
  audioBuffers : gmap string (list Buffer);
  processingSockets : gset string;
  sttDebounceTimers : gmap string nat;
  sttInProgress : gset string;
  conversationHistory : gmap string nat;
  arrays : gmap nat (list ConversationMessage);
  conversationPreferences : gmap string ConversationPreferences;
  lastInputSource : gmap string InputSource;
  controllersBySocket : gmap string InFlightControllers;
  aborted : gset nat;
  chatGPTCallStates : gmap string ChatGPTCallState;
  conversationVersions : gmap string Z;
  timers : gmap nat TimerTask;
  nextId : nat;
}.

Definition emptyServer : Server :=
  mkServer ∅ ∅ ∅ ∅ ∅ ∅ ∅ ∅ ∅ ∅ ∅ ∅ ∅ 0%nat.

Definition set_audioBuffers (f : gmap string (list Buffer) -> gmap string (list Buffer)) (σ : Server) : Server :=
  mkServer (f (audioBuffers σ)) (processingSockets σ) (sttDebounceTimers σ) (sttInProgress σ)
    (conversationHistory σ) (arrays σ) (conversationPreferences σ) (lastInputSource σ)
    (controllersBySocket σ) (aborted σ) (chatGPTCallStates σ) (conversationVersions σ)
    (timers σ) (nextId σ).

Definition set_sttDebounceTimers (f : gmap string nat -> gmap string nat) (σ : Server) : Server :=
  mkServer (audioBuffers σ) (processingSockets σ) (f (sttDebounceTimers σ)) (sttInProgress σ)
    (conversationHistory σ) (arrays σ) (conversationPreferences σ) (lastInputSource σ)
    (controllersBySocket σ) (aborted σ) (chatGPTCallStates σ) (conversationVersions σ)
    (timers σ) (nextId σ).

Definition set_conversationHistory (f : gmap string nat -> gmap string nat) (σ : Server) : Server :=
  mkServer (audioBuffers σ) (processingSockets σ) (sttDebounceTimers σ) (sttInProgress σ)
    (f (conversationHistory σ)) (arrays σ) (conversationPreferences σ) (lastInputSource σ)
    (controllersBySocket σ) (aborted σ) (chatGPTCallStates σ) (conversationVersions σ)
    (timers σ) (nextId σ).

Definition set_arrays (f : gmap nat (list ConversationMessage) -> gmap nat (list ConversationMessage))
    (σ : Server) : Server :=
  mkServer (audioBuffers σ) (processingSockets σ) (sttDebounceTimers σ) (sttInProgress σ)
    (conversationHistory σ) (f (arrays σ)) (conversationPreferences σ) (lastInputSource σ)
    (controllersBySocket σ) (aborted σ) (chatGPTCallStates σ) (conversationVersions σ)
    (timers σ) (nextId σ).

Definition set_conversationPreferences
    (f : gmap string ConversationPreferences -> gmap string ConversationPreferences)
    (σ : Server) : Server :=
  mkServer (audioBuffers σ) (processingSockets σ) (sttDebounceTimers σ) (sttInProgress σ)
    (conversationHistory σ) (arrays σ) (f (conversationPreferences σ)) (lastInputSource σ)
    (controllersBySocket σ) (aborted σ) (chatGPTCallStates σ) (conversationVersions σ)
    (timers σ) (nextId σ).

Definition set_lastInputSource (f : gmap string InputSource -> gmap string InputSource)
    (σ : Server) : Server :=
  mkServer (audioBuffers σ) (processingSockets σ) (sttDebounceTimers σ) (sttInProgress σ)
    (conversationHistory σ) (arrays σ) (conversationPreferences σ) (f (lastInputSource σ))
    (controllersBySocket σ) (aborted σ) (chatGPTCallStates σ) (conversationVersions σ)
    (timers σ) (nextId σ).

Definition set_controllersBySocket
    (f : gmap string InFlightControllers -> gmap string InFlightControllers)
    (σ : Server) : Server :=
  mkServer (audioBuffers σ) (processingSockets σ) (sttDebounceTimers σ) (sttInProgress σ)
    (conversationHistory σ) (arrays σ) (conversationPreferences σ) (lastInputSource σ)
    (f (controllersBySocket σ)) (aborted σ) (chatGPTCallStates σ) (conversationVersions σ)
    (timers σ) (nextId σ).

Definition set_aborted (f : gset nat -> gset nat) (σ : Server) : Server :=
  mkServer (audioBuffers σ) (processingSockets σ) (sttDebounceTimers σ) (sttInProgress σ)
    (conversationHistory σ) (arrays σ) (conversationPreferences σ) (lastInputSource σ)
    (controllersBySocket σ) (f (aborted σ)) (chatGPTCallStates σ) (conversationVersions σ)
    (timers σ) (nextId σ).

Definition set_chatGPTCallStates
    (f : gmap string ChatGPTCallState -> gmap string ChatGPTCallState) (σ : Server) : Server :=
  mkServer (audioBuffers σ) (processingSockets σ) (sttDebounceTimers σ) (sttInProgress σ)
    (conversationHistory σ) (arrays σ) (conversationPreferences σ) (lastInputSource σ)
    (controllersBySocket σ) (aborted σ) (f (chatGPTCallStates σ)) (conversationVersions σ)
    (timers σ) (nextId σ).

Definition set_conversationVersions (f : gmap string Z -> gmap string Z) (σ : Server) : Server :=
  mkServer (audioBuffers σ) (processingSockets σ) (sttDebounceTimers σ) (sttInProgress σ)
    (conversationHistory σ) (arrays σ) (conversationPreferences σ) (lastInputSource σ)
    (controllersBySocket σ) (aborted σ) (chatGPTCallStates σ) (f (conversationVersions σ))
    (timers σ) (nextId σ).

Definition set_timers (f : gmap nat TimerTask -> gmap nat TimerTask) (σ : Server) : Server :=
  mkServer (audioBuffers σ) (processingSockets σ) (sttDebounceTimers σ) (sttInProgress σ)
    (conversationHistory σ) (arrays σ) (conversationPreferences σ) (lastInputSource σ)
    (controllersBySocket σ) (aborted σ) (chatGPTCallStates σ) (conversationVersions σ)
    (f (timers σ)) (nextId σ).

(** Allocation of a fresh reference, timer handle or controller number. *)
Definition alloc (σ : Server) : nat * Server :=
  (nextId σ,
   mkServer (audioBuffers σ) (processingSockets σ) (sttDebounceTimers σ) (sttInProgress σ)
    (conversationHistory σ) (arrays σ) (conversationPreferences σ) (lastInputSource σ)
    (controllersBySocket σ) (aborted σ) (chatGPTCallStates σ) (conversationVersions σ)
    (timers σ) (S (nextId σ))).

(** The contents of a history array, and [array.push(msg)]. *)
Definition array_at (σ : Server) (r : nat) : list ConversationMessage :=
  default [] (arrays σ !! r).

Definition push (r : nat) (msg : ConversationMessage) (σ : Server) : Server :=
  set_arrays <[r := array_at σ r ++ [msg]]> σ.

(** The history the registry holds for a socket (empty when it holds none). *)
Definition history_of (σ : Server) (socketId : string) : list ConversationMessage :=
  match conversationHistory σ !! socketId with
  | Some r => array_at σ r
  | None => []
  end.

(** [if (transcription?.language) { current = prefs || default;
    current.lastDetectedLanguage = transcription.language; set }], the update
    both speech-recognition paths make when the recognizer answers. *)
Definition record_detected_language (language : option jsstring) (socketId : string)
    (σ : Server) : Server :=
  match language with
  | Some l =>
      if truthy l then
        let current := default (mkPrefs (js "auto") None)
                         (conversationPreferences σ !! socketId) in
        set_conversationPreferences
          <[socketId := mkPrefs (targetLanguage current) (Some l)]> σ
      else σ
  | None => σ
  end.

(** ** Socket handlers that run to completion *)

(** [conversationVersions.get(socketId) || 0] *)
Definition version_of (σ : Server) (socketId : string) : Z :=
  default 0 (conversationVersions σ !! socketId).

(** [io.on('connection')]: the per-socket initialisation. *)
Definition on_connection (socketId : string) (σ : Server) : Server :=
  let σ := set_audioBuffers <[socketId := []]> σ in
  let '(history, σ) := alloc σ in
  let σ := set_arrays <[history := []]> σ in
  let σ := set_conversationHistory <[socketId := history]> σ in
  let σ := set_conversationVersions <[socketId := 0]> σ in
  let σ := set_conversationPreferences <[socketId := mkPrefs (js "auto") None]> σ in
  let σ := set_lastInputSource <[socketId := text]> σ in
  set_chatGPTCallStates <[socketId := mkCallState false 0 None]> σ.

Definition controller_set (c : option nat) : gset nat :=
  match c with Some n => {[n]} | None => ∅ end.

Definition abortInFlightControllers (socketId : string) (σ : Server) : Server :=
  match controllersBySocket σ !! socketId with
  | None => σ
  | Some c =>
      let σ := set_aborted (fun a => a ∪ controller_set (llm c) ∪ controller_set (stt c)
                                       ∪ controller_set (tts c)) σ in
      set_controllersBySocket <[socketId := mkControllers None None None]> σ
  end.

(** [socket.on('interrupt')] *)
Definition on_interrupt (socketId : string) (σ : Server) : Server * list Emit :=
  let σ := set_conversationVersions <[socketId := version_of σ socketId + 1]> σ in
  let σ := abortInFlightControllers socketId σ in
  (σ, [AiTyping false]).

(** [socket.on('set-language')]; [language] is [data?.language], [None] when
    the payload or the field is missing. *)
Definition on_set_language (language : option jsstring) (socketId : string) (σ : Server)
  : Server * list Emit :=
  let lang := trim (or_else language (js "auto")) in
  let prefs := default (mkPrefs (js "auto") None) (conversationPreferences σ !! socketId) in
  let prefs := mkPrefs (if jsstring_eqb lang [] then js "auto" else lang)
                       (lastDetectedLanguage prefs) in
  (set_conversationPreferences <[socketId := prefs]> σ,
   [LanguageUpdated (targetLanguage prefs)]).

(** [socket.on('start-recording')] *)
Definition on_start_recording (socketId : string) (σ : Server) : Server :=
  set_audioBuffers <[socketId := []]> σ.

(** [schedulePartialTranscription]: re-arm the session's debounce timer. *)
Definition schedulePartialTranscription (socketId : string) (σ : Server) : Server :=
  let σ := match sttDebounceTimers σ !! socketId with
           | Some existing => set_timers (delete existing) σ
           | None => σ
           end in
  let '(timer, σ) := alloc σ in
  let σ := set_timers <[timer := PartialTranscription socketId 350]> σ in
  set_sttDebounceTimers <[socketId := timer]> σ.

(** [socket.on('audio-stream')] for a chunk with [isFinal = false]. *)
Definition on_audio_stream (chunk : Buffer) (socketId : string) (σ : Server) : Server :=
  let σ := match audioBuffers σ !! socketId with
           | Some buffer => set_audioBuffers <[socketId := fst (audio_append buffer chunk)]> σ
           | None => σ
           end in
  schedulePartialTranscription socketId σ.

(** [socket.on('disconnect')] *)
Definition on_disconnect (socketId : string) (σ : Server) : Server :=
  let σ := set_audioBuffers (delete socketId) σ in
  let σ := set_conversationHistory (delete socketId) σ in
  let σ := set_chatGPTCallStates (delete socketId) σ in
  set_conversationVersions (delete socketId) σ.

(** The client events of one socket whose handlers never suspend. *)
Inductive ClientEvent : Type :=
| EvInterrupt
| EvSetLanguage (language : option jsstring)
| EvStartRecording
| EvAudioChunk (chunk : Buffer)
| EvDisconnect.

Definition handle (socketId : string) (e : ClientEvent) (σ : Server) : Server * list Emit :=
  match e with
  | EvInterrupt => on_interrupt socketId σ
  | EvSetLanguage language => on_set_language language socketId σ
  | EvStartRecording => (on_start_recording socketId σ, [])
  | EvAudioChunk chunk => (on_audio_stream chunk socketId σ, [])
  | EvDisconnect => (on_disconnect socketId σ, [])
  end.

(** What an observer of the socket sees, in order. *)
Inductive Obs : Type :=
| Recv (e : ClientEvent)
| Sent (e : Emit).

Fixpoint handle_all (socketId : string) (es : list ClientEvent) (σ : Server)
  : Server * list Obs :=
  match es with
  | [] => (σ, [])
  | e :: es' =>
      let '(σ1, out) := handle socketId e σ in
      let '(σ2, tr) := handle_all socketId es' σ1 in
      (σ2, Recv e :: (Sent <$> out) ++ tr)
  end.

(** ** History pruning and prompt construction *)

Definition defaultMaxMessages : nat := 20.

(** [pruneHistory(history, maxMessages)] on the array contents. *)
Definition pruneHistory (history : list ConversationMessage) (maxMessages : nat)
  : list ConversationMessage :=
  if (length history <=? maxMessages)%nat then history
  else drop (length history - maxMessages) history.

(** The same on references: the array itself is returned when it is short
    enough, a fresh array ([slice]) otherwise. *)
Definition pruneHistory_ref (history : nat) (maxMessages : nat) (σ : Server) : nat * Server :=
  let h := array_at σ history in
  if (length h <=? maxMessages)%nat then (history, σ)
  else let '(r, σ) := alloc σ in
       (r, set_arrays <[r := drop (length h - maxMessages) h]> σ).

Inductive ChatRole : Type := system | speaker (r : Role).

Record ChatMessage : Type := mkChat { chat_role : ChatRole; chat_content : jsstring }.

Definition defaultSystemPrompt : jsstring :=
  js "You are a helpful and friendly AI assistant. Keep responses concise and on-topic.".

(** [prefs.targetLanguage === 'auto' ? (prefs.lastDetectedLanguage || 'auto')
    : prefs.targetLanguage] *)
Definition effectiveLanguage (prefs : ConversationPreferences) : jsstring :=
  if jsstring_eqb (targetLanguage prefs) (js "auto")
  then or_else (lastDetectedLanguage prefs) (js "auto")
  else targetLanguage prefs.

Definition languageDirective (targetLanguage : jsstring) : jsstring :=
  if jsstring_eqb targetLanguage (js "auto")
  then js "Respond in the same language as the user input."
  else js "Respond in " ++ targetLanguage ++ js ".".

(** The [messages] array; [env] is [process.env.SYSTEM_PROMPT]. *)
Definition buildMessages (env : option jsstring) (prefs : ConversationPreferences)
    (history : list ConversationMessage) : list ChatMessage :=
  let systemPrompt := or_else env defaultSystemPrompt in
  mkChat system (systemPrompt ++ [10; 10]%N ++ languageDirective (effectiveLanguage prefs))
  :: ((fun msg => mkChat (speaker (role msg)) (content msg)) <$> history).

(** ** Sentence chunking: [text.match(/[^.!?]+[.!?]?/g) || [text]] *)

Definition is_terminator (c : N) : bool := ((c =? 46) || (c =? 33) || (c =? 63))%N.

(** The successive matches of the global regular expression: a maximal run
    of non-terminators together with the terminator that follows it, if any.
    A terminator that follows no such run belongs to no match.  [cur] is the
    run read so far. *)
Fixpoint match_sentences (cur : jsstring) (s : jsstring) : list jsstring :=
  match s with
  | [] => match cur with [] => [] | _ :: _ => [cur] end
  | c :: s' =>
      if is_terminator c
      then match cur with
           | [] => match_sentences [] s'
           | _ :: _ => (cur ++ [c]) :: match_sentences [] s'
           end
      else match_sentences (cur ++ [c]) s'
  end.

Definition sentences_of (text : jsstring) : list jsstring :=
  match match_sentences [] text with
  | [] => [text]
  | m :: ms => m :: ms
  end.

(** ** The turn: [processWithChatGPT] and [streamTextToSpeech] as a coroutine

    [Turn] holds the locals that live across an [await]. *)

Record Turn : Type := mkTurn {
  turn_socketId : string;
  turn_userInput : jsstring;
  turn_history : nat;
  versionAtStart : Z;
  aiMessageId : Z;
  aiResponse : jsstring;
}.

(** Where the activation is suspended. *)
Inductive TurnState : Type :=
| AwaitCreate (t : Turn)
| Streaming (t : Turn)
| Synthesizing (t : Turn) (unit : jsstring) (rest : list jsstring)
| Returned.

(** How the awaited promise settles.  [Part token] carries
    [part?.choices?.[0]?.delta?.content || '']; [Synth None] is a failed
    synthesis, which [convertTextToSpeech] turns into an empty buffer. *)
Inductive Resume : Type :=
| Created (now : Z)
| CreateFailed
| Part (token : jsstring)
| StreamEnd (now : Z)
| StreamFailed
| Synth (audio : option Buffer).

(** From the entry of [processWithChatGPT] to [await
    openai.chat.completions.create(...)]; the third component is the
    [messages] argument of that call. *)
Definition processWithChatGPT_begin (env : option jsstring) (now : Z)
    (userInput : jsstring) (socketId : string) (σ : Server)
  : Server * Turn * list ChatMessage * list Emit :=
  let '(history, σ) :=
    match conversationHistory σ !! socketId with
    | Some r => (r, σ)
    | None => let '(r, σ) := alloc σ in (r, set_arrays <[r := []]> σ)
    end in
  let σ := push history (mkMessage user userInput now) σ in
  let σ := set_conversationHistory <[socketId := history]> σ in
  let isVoice := match default text (lastInputSource σ !! socketId) with
                 | voice => true
                 | text => false
                 end in
  let prefs := default (mkPrefs (js "auto") None) (conversationPreferences σ !! socketId) in
  let messages := buildMessages env prefs (array_at σ history) in
  let version := version_of σ socketId in
  let '(llmController, σ) := alloc σ in
  let existing := default (mkControllers None None None) (controllersBySocket σ !! socketId) in
  let σ := set_controllersBySocket
             <[socketId := mkControllers (Some llmController) (stt existing) (tts existing)]> σ in
  (σ, mkTurn socketId userInput history version 0 [], messages,
   [MessageReceived userInput isVoice now; AiTyping true]).

(** The [catch] block of [processWithChatGPT]. *)
Definition catch_emits : list Emit :=
  [AiTyping false; ErrorEvent (js "Failed to get AI response")].

(** [convertTextToSpeech]: the audio of the synthesizer, or an empty buffer
    when the call fails. *)
Definition convertTextToSpeech (result : option Buffer) : Buffer := default [] result.

(** The [for (const sentence of sentences)] loop of [streamTextToSpeech] from
    its head up to the next [await convertTextToSpeech], or to its exit: the
    unit to synthesize and the sentences left, or [None] when the loop is
    over ([break] or end of the array). *)
Fixpoint streamTextToSpeech_next (socketId : string) (σ : Server) (sentences : list jsstring)
  : option (jsstring * list jsstring) :=
  match sentences with
  | [] => None
  | sentence :: rest =>
      if negb (truthy (trim sentence)) then streamTextToSpeech_next socketId σ rest
      else
        let currentVersion := version_of σ socketId in
        if negb (version_of σ socketId =? currentVersion) then None
        else Some (trim sentence, rest)
  end.

(** Continue [streamTextToSpeech]; when its loop is over, emit
    [ai-audio-done], return to [processWithChatGPT] and emit [ai-response]. *)
Definition streamTextToSpeech (t : Turn) (σ : Server) (sentences : list jsstring)
  : TurnState * list Emit :=
  match streamTextToSpeech_next (turn_socketId t) σ sentences with
  | Some (unit, rest) => (Synthesizing t unit rest, [])
  | None => (Returned, [AiAudioDone (aiMessageId t); AiResponse (aiMessageId t) (aiResponse t)])
  end.

Definition with_aiMessageId (id : Z) (t : Turn) : Turn :=
  mkTurn (turn_socketId t) (turn_userInput t) (turn_history t) (versionAtStart t) id (aiResponse t).

Definition with_aiResponse (s : jsstring) (t : Turn) : Turn :=
  mkTurn (turn_socketId t) (turn_userInput t) (turn_history t) (versionAtStart t) (aiMessageId t) s.

(** The end of the token stream: record the reply, prune, store. *)
Definition record_reply (now : Z) (t : Turn) (σ : Server) : Server :=
  let σ := push (turn_history t) (mkMessage assistant (aiResponse t) now) σ in
  let '(pruned, σ) := pruneHistory_ref (turn_history t) defaultMaxMessages σ in
  set_conversationHistory <[turn_socketId t := pruned]> σ.

(** One resumption of the activation. [None]: the promise awaited in state
    [ts] cannot settle with [r]. *)
Definition turn_step (r : Resume) (ts : TurnState) (σ : Server)
  : option (Server * TurnState * list Emit) :=
  match ts, r with
  | AwaitCreate t, Created now =>
      Some (σ, Streaming (with_aiMessageId now t), [AiMessageStart now])
  | AwaitCreate t, CreateFailed => Some (σ, Returned, catch_emits)
  | Streaming t, Part token =>
      if negb (version_of σ (turn_socketId t) =? versionAtStart t)
      then Some (σ, Returned, [AiTyping false])
      else if truthy token
      then Some (σ, Streaming (with_aiResponse (aiResponse t ++ token) t),
                 [AiToken (aiMessageId t) token])
      else Some (σ, Streaming t, [])
  | Streaming t, StreamFailed => Some (σ, Returned, catch_emits)
  | Streaming t, StreamEnd now =>
      let σ := record_reply now t σ in
      let '(ts', out) := streamTextToSpeech t σ (sentences_of (aiResponse t)) in
      Some (σ, ts', [AiTyping false; AiMessageDone (aiMessageId t) (aiResponse t)] ++ out)
  | Synthesizing t _ rest, Synth audio =>
      let '(ts', out) := streamTextToSpeech t σ rest in
      Some (σ, ts', AiAudioChunk (aiMessageId t) (convertTextToSpeech audio) :: out)
  | _, _ => None
  end.

(** An execution of the activation: before each resumption, the client
    events handled while it was suspended.  A resumption that does not fit
    ends the run where it stands. *)
Fixpoint run_turn (socketId : string) (script : list (list ClientEvent * Resume))
    (ts : TurnState) (σ : Server) : Server * TurnState * list Obs :=
  match script with
  | [] => (σ, ts, [])
  | (during, r) :: script' =>
      let '(σ1, tr1) := handle_all socketId during σ in
      match turn_step r ts σ1 with
      | None => (σ1, ts, tr1)
      | Some (σ2, ts2, out) =>
          let '(σ3, ts3, tr3) := run_turn socketId script' ts2 σ2 in
          (σ3, ts3, tr1 ++ (Sent <$> out) ++ tr3)
      end
  end.

Definition processWithChatGPT (env : option jsstring) (now : Z) (userInput : jsstring)
    (socketId : string) (script : list (list ClientEvent * Resume)) (σ : Server)
  : Server * TurnState * list Obs :=
  let '(σ1, t, _, out) := processWithChatGPT_begin env now userInput socketId σ in
  let '(σ2, ts, tr) := run_turn socketId script (AwaitCreate t) σ1 in
  (σ2, ts, (Sent <$> out) ++ tr).

(** What a turn pushes onto the history besides the user message: the
    reply, with its time stamp, or nothing. *)
Inductive TurnEnd : Type :=
| NoReply
| Reply (now : Z) (reply : jsstring).

(** The messages a turn appends to the history. *)
Definition turn_messages (x : Z * jsstring * TurnEnd) : list ConversationMessage :=
  let '(now, userInput, e) := x in
  mkMessage user userInput now ::
  match e with
  | NoReply => []
  | Reply now' reply => [mkMessage assistant reply now']
  end.

(** How the run of an activation ends as far as the history goes: with the
    reply pushed at the step at which the token stream ends, stamped with the
    time of that step, or with none when the run never takes that step. *)
Fixpoint turn_end (socketId : string) (script : list (list ClientEvent * Resume))
    (ts : TurnState) (σ : Server) : TurnEnd :=
  match script with
  | [] => NoReply
  | (during, r) :: script' =>
      let σ1 := (handle_all socketId during σ).1 in
      match ts, r, turn_step r ts σ1 with
      | Streaming t, StreamEnd now', Some _ => Reply now' (aiResponse t)
      | _, _, Some (σ2, ts2, _) => turn_end socketId script' ts2 σ2
      | _, _, None => NoReply
      end
  end.

(** One turn of a session: [processWithChatGPT] is called at time [now] with
    [userInput] and runs as [script] tells.  The second component lists the
    messages pushed onto the history so far. *)
Definition session_step (env : option jsstring) (socketId : string)
    (acc : Server * list ConversationMessage)
    (x : Z * jsstring * list (list ClientEvent * Resume))
  : Server * list ConversationMessage :=
  let '(now, userInput, script) := x in
  let begun := processWithChatGPT_begin env now userInput socketId acc.1 in
  ((processWithChatGPT env now userInput socketId script acc.1).1.1,
   acc.2 ++ turn_messages
              (now, userInput, turn_end socketId script (AwaitCreate begun.1.1.2) begun.1.1.1)).

(** The turns of one session one after the other, as the coalescer starts
    them. *)
Definition run_session (env : option jsstring) (socketId : string)
    (runs : list (Z * jsstring * list (list ClientEvent * Resume))) (σ : Server)
  : Server * list ConversationMessage :=
  foldl (session_step env socketId) (σ, []) runs.

(** Two runs for the scenarios: a turn whose request fails while it is
    opened, and a turn whose reply arrives in one part and whose stream
    ends. *)
Definition failed_run (now : Z) (userInput : jsstring)
  : Z * jsstring * list (list ClientEvent * Resume) :=
  (now, userInput, [([], CreateFailed)]).

Definition completed_run (now : Z) (userInput reply : jsstring)
  : Z * jsstring * list (list ClientEvent * Resume) :=
  (now, userInput, [([], Created (now + 1)); ([], Part reply); ([], StreamEnd (now + 2))]).

(** No [disconnect] among the client events of a script. *)
Definition stays_connected (script : list (list ClientEvent * Resume)) : Prop :=
  Forall (fun step => EvDisconnect ∉ step.1) script.

(** The events a handler can send on its own. *)
Definition handler_event (e : Emit) : Prop :=
  match e with
  | AiTyping false | LanguageUpdated _ => True
  | _ => False
  end.

(** The events that can still be sent once the token stream is over. *)
Definition late_event (e : Emit) : Prop :=
  match e with
  | AiTyping false | LanguageUpdated _ | AiAudioChunk _ _ | AiAudioDone _
  | AiResponse _ _ => True
  | _ => False
  end.

(** The activation is past its token stream. *)
Definition past_stream (ts : TurnState) : Prop :=
  match ts with
  | Synthesizing _ _ _ | Returned => True
  | AwaitCreate _ | Streaming _ => False
  end.

(** The activation of socket [socketId] still consumes (or awaits) the token
    stream and holds the array the registry holds. *)
Definition before_reply (socketId : string) (ts : TurnState) (σ : Server) : Prop :=
  match ts with
  | AwaitCreate t | Streaming t =>
      turn_socketId t = socketId ∧
      conversationHistory σ !! socketId = Some (turn_history t)
  | Synthesizing _ _ _ | Returned => False
  end.

(** What holds of an activation of socket [socketId] while it awaits or
    consumes the token stream: it holds the array the registry holds, whose
    contents are [h]; the version it captured is not ahead of the session's. *)
Definition stream_inv (socketId : string) (h : list ConversationMessage)
    (ts : TurnState) (σ : Server) : Prop :=
  match ts with
  | AwaitCreate t | Streaming t =>
      turn_socketId t = socketId ∧
      conversationHistory σ !! socketId = Some (turn_history t) ∧
      history_of σ socketId = h ∧
      versionAtStart t <= version_of σ socketId
  | Synthesizing _ _ _ | Returned => True
  end.

(** ** CallCoalescer: [triggerChatGPTWithWait] for one session

    The state is the session's [ChatGPTCallState] object together with what
    the event loop holds for it: the wait-window timers that are armed (by
    due time) and the activations suspended at [await processWithChatGPT].
    [registered] tells whether [chatGPTCallStates] still maps the socket id
    to the object.  [calls], [notices], [pendingSince] and [clock] are
    bookkeeping for the statements: every downstream call that was started,
    the number of [processing-complete] events, when the pending input was
    written, and the time of the last step. *)

Module Coalescer.

Definition waitTime : Z := 400.

Record Call : Type := mkCall { queuedAt : Z; startedAt : Z; input : jsstring }.

Record State : Type := mkState {
  registered : bool;
  object : ChatGPTCallState;
  armed : list Z;
  inflight : list Call;
  calls : list Call;
  notices : nat;
  pendingSince : Z;
  clock : Z;
}.

Definition init : State :=
  mkState true (mkCallState false 0 None) [] [] [] 0%nat 0 0.

Definition set_object (o : ChatGPTCallState) (s : State) : State :=
  mkState (registered s) o (armed s) (inflight s) (calls s) (notices s) (pendingSince s) (clock s).

Definition set_pending (p : option jsstring) (since : Z) (s : State) : State :=
  mkState (registered s)
    (mkCallState (isWaiting (object s)) (lastCallTime (object s)) p)
    (armed s) (inflight s) (calls s) (notices s) since (clock s).

Definition set_armed (a : list Z) (s : State) : State :=
  mkState (registered s) (object s) a (inflight s) (calls s) (notices s) (pendingSince s) (clock s).

Definition set_inflight (l : list Call) (s : State) : State :=
  mkState (registered s) (object s) (armed s) l (calls s) (notices s) (pendingSince s) (clock s).

(** [setTimeout(..., waitTime)] at time [now]. *)
Definition setTimeout (now : Z) (s : State) : State := set_armed (armed s ++ [now + waitTime]) s.

(** The call [processWithChatGPT(input, ...)] is started and awaited. *)
Definition start_call (c : Call) (s : State) : State :=
  mkState (registered s) (object s) (armed s) (inflight s ++ [c]) (calls s ++ [c])
    (notices s) (pendingSince s) (clock s).

(** [triggerChatGPTWithWait] up to its return or to its [await]; [asked] is
    the time the input was first handed to the coalescer. *)
Definition triggerChatGPTWithWait (now asked : Z) (userInput : jsstring) (queueOnly : bool)
    (s : State) : State :=
  let trimmedInput := trim userInput in
  if negb (truthy trimmedInput)
  then mkState (registered s) (object s) (armed s) (inflight s) (calls s) (S (notices s))
         (pendingSince s) (clock s)
  else if negb (registered s) then s
  else if queueOnly then
    let s := set_pending (Some trimmedInput) asked s in
    if negb (isWaiting (object s))
    then setTimeout now (set_object (mkCallState true now (pendingInput (object s))) s)
    else s
  else if negb (isWaiting (object s))
  then start_call (mkCall asked now trimmedInput)
         (set_object (mkCallState true now (pendingInput (object s))) s)
  else set_pending (Some trimmedInput) asked s.

(** The callback of both time-outs. *)
Definition wait_elapsed (now : Z) (s : State) : State :=
  let s := set_object (mkCallState false (lastCallTime (object s)) (pendingInput (object s))) s in
  match pendingInput (object s) with
  | Some pending =>
      if truthy pending
      then triggerChatGPTWithWait now (pendingSince s) pending false
             (set_pending None (pendingSince s) s)
      else s
  | None => s
  end.

Inductive Event : Type :=
| Trigger (userInput : jsstring) (queueOnly : bool)
| CallDone
| TimerFires
| Disconnect.

Fixpoint remove_one (t : Z) (l : list Z) : list Z :=
  match l with
  | [] => []
  | x :: l' => if x =? t then l' else x :: remove_one t l'
  end.

(** Time does not go backwards and no armed timer is overdue: timers are
    punctual here.  [LateCoalescer] below does without this. *)
Definition on_time (t : Z) (s : State) : bool :=
  (clock s <=? t) && forallb (fun due => t <=? due) (armed s).

(** One task of the event loop, run at time [t].  A timer fires when it is
    due; the continuation after [await processWithChatGPT] arms the wait
    window. *)
Definition step (t : Z) (e : Event) (s : State) : option State :=
  if negb (on_time t s) then None
  else
    let s := mkState (registered s) (object s) (armed s) (inflight s) (calls s) (notices s)
               (pendingSince s) t in
    match e with
    | Trigger userInput queueOnly => Some (triggerChatGPTWithWait t t userInput queueOnly s)
    | CallDone =>
        match inflight s with
        | _ :: rest => Some (setTimeout t (set_inflight rest s))
        | [] => None
        end
    | TimerFires =>
        if bool_decide (t ∈ armed s)
        then Some (wait_elapsed t (set_armed (remove_one t (armed s)) s))
        else None
    | Disconnect =>
        Some (mkState false (object s) (armed s) (inflight s) (calls s) (notices s)
                (pendingSince s) (clock s))
    end.

Fixpoint run (tr : list (Z * Event)) (s : State) : option State :=
  match tr with
  | [] => Some s
  | (t, e) :: tr' =>
      match step t e s with
      | Some s' => run tr' s'
      | None => None
      end
  end.

(** The trigger calls of a trace, with their times. *)
Fixpoint triggers (tr : list (Z * Event)) : list (Z * jsstring * bool) :=
  match tr with
  | [] => []
  | (t, Trigger u q) :: tr' => (t, u, q) :: triggers tr'
  | _ :: tr' => triggers tr'
  end.

Definition is_disconnect (e : Event) : bool :=
  match e with Disconnect => true | _ => false end.

(** Nothing is left to happen: no timer armed, no call awaited. *)
Definition quiescent (s : State) : Prop := armed s = [] /\ inflight s = [].

(** What holds of every state the event loop can reach:
    - [isWaiting] is set exactly while one timer is armed or one call is
      awaited, and never both;
    - a pending input is trimmed and not empty, and is held only while
      waiting;
    - an armed timer is due within [waitTime] of the current time. *)
Record Inv (s : State) : Prop := mkInv {
  inv_waiting :
    isWaiting (object s) = true →
    (∃ c, inflight s = [c] ∧ armed s = []) ∨ (∃ due, armed s = [due] ∧ inflight s = []);
  inv_idle : isWaiting (object s) = false → armed s = [] ∧ inflight s = [];
  inv_pending :
    ∀ p, pendingInput (object s) = Some p →
         truthy p = true ∧ trim p = p ∧ isWaiting (object s) = true;
  inv_due : ∀ due, due ∈ armed s → clock s <= due <= clock s + waitTime;
}.

(** Last-write-wins over a list of trigger calls: what is pending after
    them when all of them find the coalescer waiting. *)
Fixpoint coalesce (pending : option jsstring) (calls : list (Z * jsstring * bool))
  : option jsstring :=
  match calls with
  | [] => pending
  | (_, userInput, _) :: calls' =>
      coalesce (if truthy (trim userInput) then Some (trim userInput) else pending) calls'
  end.

(** The coalescer of a registered session is waiting, for the end of a call
    or for a timer, and its timer cannot fire before [T]. *)
Definition busy (T : Z) (s : State) : Prop :=
  registered s = true ∧ isWaiting (object s) = true ∧
  ((∃ c, inflight s = [c] ∧ armed s = [] ∧ T <= clock s + waitTime) ∨
   (∃ due, armed s = [due] ∧ inflight s = [] ∧ T <= due)).

(** Trigger calls in normal mode, all before [T]. *)
Definition normal_before (T : Z) (calls : list (Z * jsstring * bool)) : Prop :=
  Forall (fun x => x.2 = false ∧ x.1.1 < T) calls.

Definition stays_registered (tr : list (Z * Event)) : Prop :=
  Forall (fun x => is_disconnect x.2 = false) tr.

End Coalescer.

(** ** The coalescer when timers fire late

    [setTimeout] promises only that the callback runs no earlier than the
    delay: the loop may run other tasks after a timer is due and before its
    callback.  [LateCoalescer.step] differs from [Coalescer.step] in this
    only: a task runs at any time not before the last one, and the timer
    armed first fires at any such time at or after its due time. *)
Module LateCoalescer.
Import Coalescer.

Definition step (t : Z) (e : Event) (s : State) : option State :=
  if negb (clock s <=? t) then None
  else
    let s := mkState (registered s) (object s) (armed s) (inflight s) (calls s) (notices s)
               (pendingSince s) t in
    match e with
    | Trigger userInput queueOnly => Some (triggerChatGPTWithWait t t userInput queueOnly s)
    | CallDone =>
        match inflight s with
        | _ :: rest => Some (setTimeout t (set_inflight rest s))
        | [] => None
        end
    | TimerFires =>
        match armed s with
        | due :: rest =>
            if due <=? t then Some (wait_elapsed t (set_armed rest s)) else None
        | [] => None
        end
    | Disconnect =>
        Some (mkState false (object s) (armed s) (inflight s) (calls s) (notices s)
                (pendingSince s) (clock s))
    end.

Fixpoint run (tr : list (Z * Event)) (s : State) : option State :=
  match tr with
  | [] => Some s
  | (t, e) :: tr' =>
      match step t e s with
      | Some s' => run tr' s'
      | None => None
      end
  end.

End LateCoalescer.

(** ** The speech-recognition paths: [processCompleteAudio] and the callback
    of [schedulePartialTranscription] *)

Definition set_processingSockets (f : gset string -> gset string) (σ : Server) : Server :=
  mkServer (audioBuffers σ) (f (processingSockets σ)) (sttDebounceTimers σ) (sttInProgress σ)
    (conversationHistory σ) (arrays σ) (conversationPreferences σ) (lastInputSource σ)
    (controllersBySocket σ) (aborted σ) (chatGPTCallStates σ) (conversationVersions σ)
    (timers σ) (nextId σ).

Definition set_sttInProgress (f : gset string -> gset string) (σ : Server) : Server :=
  mkServer (audioBuffers σ) (processingSockets σ) (sttDebounceTimers σ) (f (sttInProgress σ))
    (conversationHistory σ) (arrays σ) (conversationPreferences σ) (lastInputSource σ)
    (controllersBySocket σ) (aborted σ) (chatGPTCallStates σ) (conversationVersions σ)
    (timers σ) (nextId σ).

(** What the recognizer answers: [transcription?.text],
    [transcription?.language], and [transcription?.confidence] when it is a
    number. *)
Record Transcription : Type := mkTranscription {
  transcription_text : option jsstring;
  transcription_language : option jsstring;
  transcription_confidence : option QArith_base.Q;
}.

(** The arguments of [openai.audio.transcriptions.create] that vary: the
    audio, the [language] field (present when the preference is not ['auto'])
    and the abort controller whose signal is passed. *)
Record RecognitionRequest : Type := mkRequest {
  request_audio : Buffer;
  request_language : option jsstring;
  request_controller : nat;
}.

Definition languageHint (prefs : ConversationPreferences) : option jsstring :=
  if jsstring_eqb (targetLanguage prefs) (js "auto") then None
  else Some (targetLanguage prefs).

(** [sttController = new AbortController(); existing = controllersBySocket.get(id) || {};
    existing.stt = sttController; controllersBySocket.set(id, existing)], then
    the request is built. *)
Definition recognition_request (audio : Buffer) (socketId : string) (σ : Server)
  : Server * RecognitionRequest :=
  let prefs := default (mkPrefs (js "auto") None) (conversationPreferences σ !! socketId) in
  let '(sttController, σ) := alloc σ in
  let existing := default (mkControllers None None None) (controllersBySocket σ !! socketId) in
  let σ := set_controllersBySocket
             <[socketId := mkControllers (llm existing) (Some sttController) (tts existing)]> σ in
  (σ, mkRequest audio (languageHint prefs) sttController).

(** Where an activation of either path is suspended: at [await toFile],
    at [await openai.audio.transcriptions.create], or at
    [await triggerChatGPTWithWait(userInput, ..., queueOnly)]. *)
Inductive AudioState : Type :=
| AwaitFile (audio : Buffer)
| AwaitRecognition (request : RecognitionRequest)
| AwaitTrigger (userInput : jsstring) (queueOnly : bool)
| AudioReturned.

Inductive AudioResume : Type :=
| FileReady
| FileFailed
| Recognized (transcription : Transcription)
| RecognitionFailed
| TriggerReturned.

(** The [finally] block of [processCompleteAudio]. *)
Definition processCompleteAudio_finally (socketId : string) (σ : Server) : Server :=
  set_processingSockets (fun s => s ∖ {[socketId]}) σ.

(** [processCompleteAudio] from its entry to [await toFile] or to its return. *)
Definition processCompleteAudio_begin (socketId : string) (σ : Server)
  : Server * AudioState :=
  match audioBuffers σ !! socketId with
  | None | Some [] => (processCompleteAudio_finally socketId σ, AudioReturned)
  | Some (chunk :: chunks) =>
      if bool_decide (socketId ∈ processingSockets σ)
      then (processCompleteAudio_finally socketId σ, AudioReturned)
      else
        let σ := set_processingSockets (fun s => s ∪ {[socketId]}) σ in
        let completeAudio := concat (chunk :: chunks) in
        if (length completeAudio =? 0)%nat
        then (processCompleteAudio_finally socketId σ, AudioReturned)
        else (set_audioBuffers <[socketId := []]> σ, AwaitFile completeAudio)
  end.

(** One resumption of [processCompleteAudio]. *)
Definition processCompleteAudio_step (socketId : string) (r : AudioResume) (st : AudioState)
    (σ : Server) : option (Server * AudioState * list Emit) :=
  match st, r with
  | AwaitFile audio, FileReady =>
      let σ := set_lastInputSource <[socketId := voice]> σ in
      let '(σ, request) := recognition_request audio socketId σ in
      Some (σ, AwaitRecognition request, [])
  | AwaitRecognition _, Recognized transcription =>
      let σ := record_detected_language (transcription_language transcription) socketId σ in
      Some (σ, AwaitTrigger (or_else (transcription_text transcription) []) false, [])
  | AwaitFile _, FileFailed | AwaitRecognition _, RecognitionFailed =>
      Some (processCompleteAudio_finally socketId σ, AudioReturned,
            [ErrorEvent (js "Failed to transcribe audio")])
  | AwaitTrigger _ _, TriggerReturned =>
      Some (processCompleteAudio_finally socketId σ, AudioReturned, [])
  | _, _ => None
  end.

(** [socket.on('audio-stream')] for a chunk with [isFinal = true]. *)
Definition on_audio_stream_final (chunk : Buffer) (socketId : string) (σ : Server)
  : Server * AudioState :=
  let σ := match audioBuffers σ !! socketId with
           | Some buffer => set_audioBuffers <[socketId := fst (audio_append buffer chunk)]> σ
           | None => σ
           end in
  processCompleteAudio_begin socketId σ.

(** The payload of [speech-result], without its time stamp. *)
Record SpeechRecognitionResult : Type := mkSpeechResult {
  result_text : jsstring;
  result_confidence : QArith_base.Q;
  result_isFinal : bool;
}.

(** The [finally] block of the partial-transcription callback. *)
Definition partialTranscription_finally (socketId : string) (σ : Server) : Server :=
  set_sttInProgress (fun s => s ∖ {[socketId]}) σ.

(** The callback of [schedulePartialTranscription] from its entry to
    [await toFile] or to its return. *)
Definition partialTranscription_begin (socketId : string) (σ : Server)
  : Server * AudioState :=
  if bool_decide (socketId ∈ sttInProgress σ)
  then (partialTranscription_finally socketId σ, AudioReturned)
  else
    match audioBuffers σ !! socketId with
    | None | Some [] => (partialTranscription_finally socketId σ, AudioReturned)
    | Some (chunk :: chunks) =>
        let combined := concat (chunk :: chunks) in
        if byteLength combined <? 9000
        then (partialTranscription_finally socketId σ, AudioReturned)
        else (set_sttInProgress (fun s => s ∪ {[socketId]}) σ, AwaitFile combined)
    end.

(** One resumption of the callback. *)
Definition partialTranscription_step (socketId : string) (r : AudioResume) (st : AudioState)
    (σ : Server) : option (Server * AudioState * list SpeechRecognitionResult) :=
  match st, r with
  | AwaitFile combined, FileReady =>
      let '(σ, request) := recognition_request combined socketId σ in
      Some (σ, AwaitRecognition request, [])
  | AwaitRecognition _, Recognized transcription =>
      let result :=
        mkSpeechResult (or_else (transcription_text transcription) [])
          (default (QArith_base.Qmake 0 1) (transcription_confidence transcription)) false in
      let σ := record_detected_language (transcription_language transcription) socketId σ in
      let partialText := trim (or_else (transcription_text transcription) []) in
      if truthy partialText && (8 <=? length partialText)%nat
      then Some (set_lastInputSource <[socketId := voice]> σ,
                 AwaitTrigger partialText true, [result])
      else Some (partialTranscription_finally socketId σ, AudioReturned, [result])
  | AwaitFile _, FileFailed | AwaitRecognition _, RecognitionFailed
  | AwaitTrigger _ _, TriggerReturned =>
      Some (partialTranscription_finally socketId σ, AudioReturned, [])
  | _, _ => None
  end.

(** An armed partial-transcription timer fires: it leaves the set of armed
    timers and its callback starts. *)
Definition fire_timer (timer : nat) (σ : Server) : option (Server * AudioState) :=
  match timers σ !! timer with
  | Some (PartialTranscription socketId _) =>
      Some (partialTranscription_begin socketId (set_timers (delete timer) σ))
  | _ => None
  end.

(** [socket.on('text-message')] up to its call of [triggerChatGPTWithWait]:
    the argument of that call, or the error sent when [data.text] is missing
    (the call then throws at [userInput.trim()]). *)
Definition on_text_message (data_text : option jsstring) (socketId : string) (σ : Server)
  : Server * option jsstring * list Emit :=
  let σ := set_lastInputSource <[socketId := text]> σ in
  match data_text with
  | Some userInput => (σ, Some userInput, [])
  | None => (σ, None, [ErrorEvent (js "Failed to process text message")])
  end.

(** The controllers registered for a socket. *)
Definition registered_controllers (σ : Server) (socketId : string) : gset nat :=
  match controllersBySocket σ !! socketId with
  | Some c => controller_set (llm c) ∪ controller_set (stt c) ∪ controller_set (tts c)
  | None => ∅
  end.

(** ** The tasks of the event loop on the server state

    Every task the loop can run, a resumption being given the state the
    activation was suspended in.  A resumption that cannot happen leaves the
    state as it is. *)
Inductive Task : Type :=
| TaskConnection (socketId : string)
| TaskClient (socketId : string) (e : ClientEvent)
| TaskAudioFinal (socketId : string) (chunk : Buffer)
| TaskTextMessage (socketId : string) (data_text : option jsstring)
| TaskTurnBegin (env : option jsstring) (now : Z) (userInput : jsstring) (socketId : string)
| TaskTurnStep (r : Resume) (ts : TurnState)
| TaskFinalizeStep (socketId : string) (r : AudioResume) (st : AudioState)
| TaskTimer (timer : nat)
| TaskPartialStep (socketId : string) (r : AudioResume) (st : AudioState).

Definition run_task (k : Task) (σ : Server) : Server :=
  match k with
  | TaskConnection socketId => on_connection socketId σ
  | TaskClient socketId e => (handle socketId e σ).1
  | TaskAudioFinal socketId chunk => (on_audio_stream_final chunk socketId σ).1
  | TaskTextMessage socketId data_text => (on_text_message data_text socketId σ).1.1
  | TaskTurnBegin env now userInput socketId =>
      (processWithChatGPT_begin env now userInput socketId σ).1.1.1
  | TaskTurnStep r ts =>
      match turn_step r ts σ with Some (σ', _, _) => σ' | None => σ end
  | TaskFinalizeStep socketId r st =>
      match processCompleteAudio_step socketId r st σ with Some (σ', _, _) => σ' | None => σ end
  | TaskTimer timer =>
      match fire_timer timer σ with Some (σ', _) => σ' | None => σ end
  | TaskPartialStep socketId r st =>
      match partialTranscription_step socketId r st σ with Some (σ', _, _) => σ' | None => σ end
  end.

Definition run_tasks (ks : list Task) (σ : Server) : Server :=
  foldl (fun σ k => run_task k σ) σ ks.

(** Armed partial-transcription timers are the ones their socket records,
    and no handle at or beyond [nextId] is in use. *)
Definition timers_ok (σ : Server) : Prop :=
  (∀ timer task, timers σ !! timer = Some task →
     (timer < nextId σ)%nat ∧
     ∃ socketId, task = PartialTranscription socketId 350 ∧
                 sttDebounceTimers σ !! socketId = Some timer) ∧
  (∀ socketId timer, sttDebounceTimers σ !! socketId = Some timer → (timer < nextId σ)%nat).

(** Every controller that is registered or was aborted has been allocated,
    and none is registered for speech synthesis. *)
Definition controllers_ok (σ : Server) : Prop :=
  (∀ n, n ∈ aborted σ → (n < nextId σ)%nat) ∧
  (∀ socketId c, controllersBySocket σ !! socketId = Some c →
     tts c = None ∧
     ∀ n, n ∈ controller_set (llm c) ∪ controller_set (stt c) → (n < nextId σ)%nat).

(** A task that leaves the timers as they are, and one that leaves the
    controllers as they are; either may allocate. *)
Definition same_timers (σ σ' : Server) : Prop :=
  timers σ' = timers σ ∧ sttDebounceTimers σ' = sttDebounceTimers σ ∧
  (nextId σ <= nextId σ')%nat.

Definition same_controllers (σ σ' : Server) : Prop :=
  aborted σ' = aborted σ ∧ controllersBySocket σ' = controllersBySocket σ ∧
  (nextId σ <= nextId σ')%nat.

(** ** Notions used in the statements *)

(** The number of [interrupt] events in a list of client events. *)
Fixpoint interrupts_in (es : list ClientEvent) : nat :=
  match es with
  | [] => 0
  | EvInterrupt :: es' => S (interrupts_in es')
  | _ :: es' => interrupts_in es'
  end.

(** The tokens sent in a trace, one after the other. *)
Fixpoint tokens_of (tr : list Obs) : jsstring :=
  match tr with
  | [] => []
  | Sent (AiToken _ token) :: tr' => token ++ tokens_of tr'
  | _ :: tr' => tokens_of tr'
  end.

(** The audio chunks sent in a trace, in order. *)
Fixpoint audio_chunks (tr : list Obs) : list Buffer :=
  match tr with
  | [] => []
  | Sent (AiAudioChunk _ audio) :: tr' => audio :: audio_chunks tr'
  | _ :: tr' => audio_chunks tr'
  end.

(** What follows the first [ai-audio-done] of a trace. *)
Fixpoint after_audio_done (tr : list Obs) : list Obs :=
  match tr with
  | [] => []
  | Sent (AiAudioDone _) :: tr' => tr'
  | _ :: tr' => after_audio_done tr'
  end.

(** The sentences of a reply that are synthesized: those with a character
    that is not blank. *)
Definition spoken_units (reply : jsstring) : list jsstring :=
  filter (fun sentence => truthy (trim sentence) = true) (sentences_of reply).

(** The characters of a string that are not sentence terminators. *)
Definition spoken_chars (s : jsstring) : jsstring :=
  filter (fun c => is_terminator c = false) s.

(** What the maps keyed by socket id hold for one socket, the coalescer
    state apart: that one is the object of [Coalescer], one per session. *)
Definition session_view (σ : Server) (socketId : string) :=
  (audioBuffers σ !! socketId, bool_decide (socketId ∈ processingSockets σ),
   sttDebounceTimers σ !! socketId, bool_decide (socketId ∈ sttInProgress σ),
   conversationHistory σ !! socketId, conversationPreferences σ !! socketId,
   lastInputSource σ !! socketId, controllersBySocket σ !! socketId,
   conversationVersions σ !! socketId).

(** The socket a task belongs to; a timer belongs to the socket it was armed
    for. *)
Definition task_socket (k : Task) (σ : Server) : option string :=
  match k with
  | TaskConnection socketId | TaskClient socketId _ | TaskAudioFinal socketId _
  | TaskTextMessage socketId _ | TaskTurnBegin _ _ _ socketId
  | TaskFinalizeStep socketId _ _ | TaskPartialStep socketId _ _ => Some socketId
  | TaskTurnStep _ ts =>
      match ts with
      | AwaitCreate t | Streaming t | Synthesizing t _ _ => Some (turn_socketId t)
      | Returned => None
      end
  | TaskTimer timer =>
      match timers σ !! timer with
      | Some (PartialTranscription socketId _) | Some (WaitWindow socketId _) => Some socketId
      | None => None
      end
  end.

(** ** The event loop with the turns it holds

    The activations of [processWithChatGPT] live in the loop, each with the
    history array and the socket id it captured; a task resumes one of them,
    told by its index.  [loop_owners] is bookkeeping for the statements: every
    handle (history array, timer, abort controller) belongs to the socket
    whose task allocated it. *)
Record Loop : Type := mkLoop {
  loop_server : Server;
  loop_turns : list TurnState;
  loop_owners : gmap nat string;
}.

Definition loop_initial : Loop := mkLoop emptyServer [] ∅.

Definition turn_of (ts : TurnState) : option Turn :=
  match ts with
  | AwaitCreate t | Streaming t | Synthesizing t _ _ => Some t
  | Returned => None
  end.

Inductive LoopTask : Type :=
| LoopConnection (socketId : string)
| LoopClient (socketId : string) (e : ClientEvent)
| LoopAudioFinal (socketId : string) (chunk : Buffer)
| LoopTextMessage (socketId : string) (data_text : option jsstring)
| LoopTurnBegin (env : option jsstring) (now : Z) (userInput : jsstring) (socketId : string)
| LoopTurnStep (i : nat) (r : Resume)
| LoopFinalizeStep (socketId : string) (r : AudioResume) (st : AudioState)
| LoopTimer (timer : nat)
| LoopPartialStep (socketId : string) (r : AudioResume) (st : AudioState).

(** The task run on the server; none when the turn to resume is not there. *)
Definition task_of (x : LoopTask) (l : Loop) : option Task :=
  match x with
  | LoopConnection socketId => Some (TaskConnection socketId)
  | LoopClient socketId e => Some (TaskClient socketId e)
  | LoopAudioFinal socketId chunk => Some (TaskAudioFinal socketId chunk)
  | LoopTextMessage socketId data_text => Some (TaskTextMessage socketId data_text)
  | LoopTurnBegin env now userInput socketId =>
      Some (TaskTurnBegin env now userInput socketId)
  | LoopTurnStep i r =>
      match loop_turns l !! i with
      | Some ts => Some (TaskTurnStep r ts)
      | None => None
      end
  | LoopFinalizeStep socketId r st => Some (TaskFinalizeStep socketId r st)
  | LoopTimer timer => Some (TaskTimer timer)
  | LoopPartialStep socketId r st => Some (TaskPartialStep socketId r st)
  end.

(** The turns the loop holds after a task: a turn that begins is added, a
    turn that is resumed moves on. *)
Definition next_turns (x : LoopTask) (l : Loop) : list TurnState :=
  match x with
  | LoopTurnBegin env now userInput socketId =>
      loop_turns l ++
      [AwaitCreate (processWithChatGPT_begin env now userInput socketId (loop_server l)).1.1.2]
  | LoopTurnStep i r =>
      match loop_turns l !! i with
      | Some ts =>
          match turn_step r ts (loop_server l) with
          | Some (_, ts', _) => <[i := ts']> (loop_turns l)
          | None => loop_turns l
          end
      | None => loop_turns l
      end
  | _ => loop_turns l
  end.

(** The handles from [first] up to [next] go to the socket of the task that
    allocated them. *)
Definition claim (socketId : option string) (first next : nat) (owners : gmap nat string)
  : gmap nat string :=
  match socketId with
  | Some s => foldr (fun n o => <[n := s]> o) owners (seq first (next - first))
  | None => owners
  end.

Definition loop_step (x : LoopTask) (l : Loop) : Loop :=
  match task_of x l with
  | Some k =>
      let σ' := run_task k (loop_server l) in
      mkLoop σ' (next_turns x l)
        (claim (task_socket k (loop_server l)) (nextId (loop_server l)) (nextId σ')
           (loop_owners l))
  | None => l
  end.

Definition loop_run (xs : list LoopTask) (l : Loop) : Loop :=
  foldl (fun l x => loop_step x l) l xs.

Definition loop_socket (x : LoopTask) (l : Loop) : option string :=
  match task_of x l with
  | Some k => task_socket k (loop_server l)
  | None => None
  end.

(** What holds of the owners in every state of the loop: a handle that has
    an owner was allocated; the array the registry holds for a socket, the
    array a turn holds, the timer recorded for a socket, an armed timer and
    a registered controller belong to their socket. *)
Record owned (l : Loop) : Prop := mkOwned {
  owned_allocated :
    ∀ n s, loop_owners l !! n = Some s → (n < nextId (loop_server l))%nat;
  owned_history :
    ∀ s r, conversationHistory (loop_server l) !! s = Some r → loop_owners l !! r = Some s;
  owned_turn :
    ∀ ts t, ts ∈ loop_turns l → turn_of ts = Some t →
            loop_owners l !! turn_history t = Some (turn_socketId t);
  owned_debounce :
    ∀ s timer, sttDebounceTimers (loop_server l) !! s = Some timer →
               loop_owners l !! timer = Some s;
  owned_timer :
    ∀ timer s delay, timers (loop_server l) !! timer = Some (PartialTranscription s delay) →
                     loop_owners l !! timer = Some s;
  owned_controller :
    ∀ s n, n ∈ registered_controllers (loop_server l) s → loop_owners l !! n = Some s;
}.

(** A task that leaves the histories as they are; it may allocate. *)
Definition same_histories (σ σ' : Server) : Prop :=
  conversationHistory σ' = conversationHistory σ ∧ arrays σ' = arrays σ ∧
  (nextId σ <= nextId σ')%nat.

(** The array held by the turn that a task resumes. *)
Definition task_held (k : Task) : option nat :=
  match k with
  | TaskTurnStep _ ts => turn_history <$> turn_of ts
  | _ => None
  end.

(** What a task of socket [a] may do to the histories: the array its
    registry entry holds afterwards is the one it held before, a fresh one,
    or [held], the array of the turn that the task resumes; among the arrays
    that exist, only these two may change. *)
Definition history_footprint (a : string) (held : option nat) (σ σ' : Server) : Prop :=
  (∀ r, conversationHistory σ' !! a = Some r →
        conversationHistory σ !! a = Some r ∨ (nextId σ <= r < nextId σ')%nat ∨
        held = Some r) ∧
  (∀ n, (n < nextId σ)%nat → conversationHistory σ !! a ≠ Some n → held ≠ Some n →
        arrays σ' !! n = arrays σ !! n).

(** What it may do to the timers: the timer recorded for [a] afterwards is
    the one recorded before or a fresh one; a timer armed afterwards was
    armed before or is a fresh one of [a]; among the handles that exist, only
    the timer recorded for [a] and the armed timers of [a] may change. *)
Definition timer_footprint (a : string) (σ σ' : Server) : Prop :=
  (∀ n, sttDebounceTimers σ' !! a = Some n →
        sttDebounceTimers σ !! a = Some n ∨ (nextId σ <= n < nextId σ')%nat) ∧
  (∀ n task, timers σ' !! n = Some task →
        timers σ !! n = Some task ∨
        (task = PartialTranscription a 350 ∧ (nextId σ <= n < nextId σ')%nat)) ∧
  (∀ n, (n < nextId σ)%nat → sttDebounceTimers σ !! a ≠ Some n →
        (∀ delay, timers σ !! n ≠ Some (PartialTranscription a delay)) →
        timers σ' !! n = timers σ !! n).

(** What it may do to the abort controllers: a controller registered for
    [a] afterwards was registered for [a] before or is fresh; no abort is
    undone, and a controller that is aborted by the task was registered for
    [a]. *)
Definition controller_footprint (a : string) (σ σ' : Server) : Prop :=
  (∀ n, n ∈ registered_controllers σ' a →
        n ∈ registered_controllers σ a ∨ (nextId σ <= n < nextId σ')%nat) ∧
  (∀ n, n ∈ aborted σ → n ∈ aborted σ') ∧
  (∀ n, n ∈ aborted σ' → n ∈ aborted σ ∨ n ∈ registered_controllers σ a).

(** The trigger calls of a coalescer trace whose input is blank. *)
Definition blank_triggers (tr : list (Z * Coalescer.Event)) : list (Z * jsstring * bool) :=
  filter (fun x => truthy (trim x.1.2) = false) (Coalescer.triggers tr).

(** * Properties *)

(** Projections of the server state through its setters, by need. *)
Ltac server_simpl :=
  repeat (progress (
    unfold array_at, history_of, version_of, push in *;
    cbn [audioBuffers processingSockets sttDebounceTimers sttInProgress
         conversationHistory arrays conversationPreferences lastInputSource
         controllersBySocket aborted chatGPTCallStates conversationVersions
         timers nextId
         set_audioBuffers set_sttDebounceTimers set_conversationHistory set_arrays
         set_conversationPreferences set_lastInputSource set_controllersBySocket
         set_aborted set_chatGPTCallStates set_conversationVersions set_timers
         alloc push array_at history_of version_of fst snd default] in *)).

(** ** The scenarios of the specification, run on the embedding *)

Example trim_strips_both_ends : trim (js "  a b  ") = js "a b".
Proof. by vm_compute. Qed.

Example sentences_keep_terminators :
  sentences_of (js "Hello world. How are you? Fine")
  = [js "Hello world."; js " How are you?"; js " Fine"].
Proof. by vm_compute. Qed.

Example sentences_of_terminators_only : sentences_of (js "?!") = [js "?!"].
Proof. by vm_compute. Qed.

(** [text-input("hello")]: the message is acknowledged, typing starts, the
    tokens follow in order (a part without content sends nothing), typing
    stops, the message is completed, the audio follows and the stream of
    audio is closed. *)
Example scenario_text_input :
  (processWithChatGPT None 1 (js "hello") "s1"
     [([], Created 2); ([], Part (js "Hi")); ([], Part []); ([], Part (js " there!"));
      ([], StreamEnd 3); ([], Synth (Some ["001"%byte]))]
     (on_connection "s1" emptyServer)).2 =
  [Sent (MessageReceived (js "hello") false 1); Sent (AiTyping true);
   Sent (AiMessageStart 2); Sent (AiToken 2 (js "Hi")); Sent (AiToken 2 (js " there!"));
   Sent (AiTyping false); Sent (AiMessageDone 2 (js "Hi there!"));
   Sent (AiAudioChunk 2 ["001"%byte]); Sent (AiAudioDone 2);
   Sent (AiResponse 2 (js "Hi there!"))].
Proof. by vm_compute. Qed.

(** [text-input("hi")], then [text-input("there")] 50 ms later: one call at
    once, the other after the first call has ended and the window elapsed. *)
Example scenario_two_inputs :
  Coalescer.calls <$>
    Coalescer.run [(0, Coalescer.Trigger (js "hi") false);
                   (50, Coalescer.Trigger (js "there") false);
                   (900, Coalescer.CallDone); (1300, Coalescer.TimerFires)] Coalescer.init
  = Some [Coalescer.mkCall 0 0 (js "hi"); Coalescer.mkCall 50 1300 (js "there")].
Proof. by vm_compute. Qed.

(** [text-input("tell me a long story")], then [interrupt]: no token after
    the interrupt, and typing is switched off. *)
Example scenario_interrupt :
  (processWithChatGPT None 1 (js "tell me a long story") "s1"
     [([], Created 2); ([], Part (js "Once")); ([EvInterrupt], Part (js " upon"));
      ([], Part (js " a time"))]
     (on_connection "s1" emptyServer)).2 =
  [Sent (MessageReceived (js "tell me a long story") false 1); Sent (AiTyping true);
   Sent (AiMessageStart 2); Sent (AiToken 2 (js "Once"));
   Recv EvInterrupt; Sent (AiTyping false); Sent (AiTyping false)].
Proof. by vm_compute. Qed.

(** ** AudioAccumulator *)

Section AudioAccumulator.

Lemma total_bytes_acc (buffer : list Buffer) (a : Z) :
  foldl (fun acc b => acc + byteLength b) a buffer = a + total_bytes buffer.
Proof.
  unfold total_bytes. revert a.
  induction buffer as [|b buffer IH]; intros a; simpl; [lia|].
  rewrite IH, (IH (0 + byteLength b)). lia.
Qed.

Lemma total_bytes_cons (b : Buffer) (buffer : list Buffer) :
  total_bytes (b :: buffer) = byteLength b + total_bytes buffer.
Proof. unfold total_bytes at 1. simpl. rewrite total_bytes_acc. lia. Qed.

Lemma total_bytes_snoc (buffer : list Buffer) (b : Buffer) :
  total_bytes (buffer ++ [b]) = total_bytes buffer + byteLength b.
Proof.
  induction buffer as [|x buffer IH]; simpl.
  - rewrite total_bytes_cons. unfold total_bytes. simpl. lia.
  - rewrite !total_bytes_cons, IH. lia.
Qed.

(** The loop drops a prefix, the shortest one that brings the total under
    the ceiling or leaves one chunk, and keeps [total] exact. *)
Lemma trim_front_spec (buffer : list Buffer) :
  ∀ total, total = total_bytes buffer →
  ∃ dropped kept,
    trim_front total buffer = (kept, total_bytes kept) ∧
    buffer = dropped ++ kept ∧
    (total_bytes kept <= maxBytes ∨ (length kept <= 1)%nat) ∧
    last kept = last buffer ∧
    (∀ d x, dropped = d ++ [x] → total_bytes (x :: kept) > maxBytes).
Proof.
  induction buffer as [|removed rest IH]; intros total Htotal.
  - exists [], []. simpl. subst total. split_and!; try done.
    + left. unfold total_bytes, maxBytes. simpl. lia.
    + intros d x H. destruct d; discriminate.
  - cbn [trim_front].
    destruct ((total >? maxBytes) && (1 <? length (removed :: rest))%nat) eqn:Hcond.
    + apply andb_true_iff in Hcond as [Hbig Hlen].
      apply Z.gtb_lt in Hbig. apply Nat.ltb_lt in Hlen. simpl in Hlen.
      destruct (IH (total - byteLength removed))
        as (dropped & kept & Hrun & Hsplit & Hbound & Hlast & Hmin).
      { rewrite Htotal, total_bytes_cons. lia. }
      exists (removed :: dropped), kept. split_and!; try done.
      * simpl. by rewrite Hsplit at 1.
      * rewrite Hlast. destruct rest; [simpl in Hlen; lia | done].
      * intros d x Hd. destruct d as [|y d]; simpl in Hd.
        -- injection Hd as -> Hdropped. subst dropped. simpl in Hsplit. subst rest.
           rewrite <- Htotal. lia.
        -- injection Hd as -> Hdropped. eauto.
    + exists [], (removed :: rest). subst total. split_and!; try done.
      * apply andb_false_iff in Hcond as [Hsmall | Hlen].
        -- left. rewrite Z.gtb_ltb in Hsmall. apply Z.ltb_ge in Hsmall. lia.
        -- right. apply Nat.ltb_ge in Hlen. exact Hlen.
      * intros d x H. destruct d; discriminate.
Qed.

End AudioAccumulator.

(** Claim C5, as amended.  After every [audio-stream] append, whatever was
    appended before: the array is what remains of the old array plus the new
    chunk after whole chunks were removed from its front; the new chunk is
    its last element; its total size is at most [maxBytes] unless the new
    chunk is all that is left; no more chunks were removed than needed; and
    the running [total] of the handler is the real total. *)
Theorem audio_append_trims_front_keeps_last :
  ∀ (buffer0 : list Buffer) (chunks : list Buffer) (chunk : Buffer),
    let before := audio_appends buffer0 chunks in
    let after := fst (audio_append before chunk) in
    (∃ dropped, before ++ [chunk] = dropped ++ after ∧
       ∀ d x, dropped = d ++ [x] → total_bytes (x :: after) > maxBytes) ∧
    last after = Some chunk ∧
    (total_bytes after <= maxBytes ∨ after = [chunk]) ∧
    snd (audio_append before chunk) = total_bytes after.
Proof.
  intros buffer0 chunks chunk before after.
  destruct (trim_front_spec (before ++ [chunk]) _ eq_refl)
    as (dropped & kept & Hrun & Hsplit & Hbound & Hlast & Hmin).
  assert (Hafter : after = kept) by (unfold after, audio_append; by rewrite Hrun).
  rewrite last_snoc in Hlast.
  split_and!.
  - exists dropped. rewrite Hafter. split; [exact Hsplit | exact Hmin].
  - by rewrite Hafter.
  - rewrite Hafter. destruct Hbound as [Hle | Hlen]; [by left | right].
    destruct kept as [|k [|k' kept]]; simpl in *; try discriminate; try lia.
    by injection Hlast as ->.
  - unfold audio_append. rewrite Hrun. simpl. by rewrite Hafter.
Qed.

Lemma audio_append_to_empty (chunk : Buffer) : audio_appends [] [chunk] = [chunk].
Proof.
  unfold audio_appends, audio_append. cbn [foldl app trim_front length].
  by rewrite andb_false_r.
Qed.

(** Claim C5 as stated fails: one chunk of 1,500,001 bytes appended to an
    empty buffer is kept, and the buffered total exceeds the ceiling. *)
Lemma audio_total_exceeds_ceiling :
  total_bytes (audio_appends [] [replicate (Z.to_nat 1500001) "000"%byte]) > maxBytes.
Proof.
  rewrite audio_append_to_empty, total_bytes_cons.
  unfold byteLength. rewrite length_replicate, Z2Nat.id by lia.
  unfold total_bytes, maxBytes. simpl. lia.
Qed.

(** ** Trimming *)

Section Trim.

Lemma trimStart_nil (s : jsstring) :
  trimStart s = [] ↔ forallb isWhiteSpace s = true.
Proof.
  induction s as [|c s IH]; simpl; [done|].
  destruct (isWhiteSpace c); simpl; [exact IH | split; discriminate].
Qed.

Lemma forallb_reverse (f : N → bool) (s : jsstring) :
  forallb f (reverse s) = forallb f s.
Proof.
  induction s as [|c s IH]; [done|].
  rewrite reverse_cons, forallb_app, IH. simpl. rewrite andb_true_r. apply andb_comm.
Qed.

Lemma trimStart_suffix (s : jsstring) :
  ∃ p, s = p ++ trimStart s ∧ forallb isWhiteSpace p = true.
Proof.
  induction s as [|c s (p & Hp & Hws)]; simpl; [by exists []|].
  destruct (isWhiteSpace c) eqn:Hc.
  - exists (c :: p). simpl. rewrite Hc, Hws. split; [by rewrite Hp at 1 | done].
  - by exists [].
Qed.

Lemma trimStart_starts_solid (s : jsstring) : starts_solid (trimStart s).
Proof.
  induction s as [|c s IH]; simpl; [done|].
  destruct (isWhiteSpace c) eqn:Hc; [exact IH | exact Hc].
Qed.

Lemma trimStart_solid (s : jsstring) : starts_solid s → trimStart s = s.
Proof. destruct s as [|c s]; simpl; [done|]. by intros ->. Qed.

Lemma trim_nil (s : jsstring) : trim s = [] ↔ forallb isWhiteSpace s = true.
Proof.
  unfold trim, trimEnd. split.
  - intros H. apply (f_equal reverse) in H. rewrite reverse_involutive in H.
    change (reverse []) with (@nil N) in H.
    apply trimStart_nil in H. rewrite forallb_reverse in H.
    destruct (trimStart_suffix s) as (p & Hp & Hws).
    rewrite Hp, forallb_app, Hws, H. done.
  - intros H. apply trimStart_nil in H. by rewrite H.
Qed.

Lemma truthy_trim (s : jsstring) : truthy (trim s) = negb (forallb isWhiteSpace s).
Proof.
  destruct (forallb isWhiteSpace s) eqn:H.
  - apply trim_nil in H. by rewrite H.
  - destruct (trim s) eqn:Ht; [|done].
    apply trim_nil in Ht. congruence.
Qed.

Lemma trim_idempotent (s : jsstring) : trim (trim s) = trim s.
Proof.
  unfold trim at 2. set (u := trimStart s).
  assert (Hu : starts_solid u) by apply trimStart_starts_solid.
  set (v := trimEnd u).
  assert (Hrev : reverse v = trimStart (reverse u)).
  { unfold v, trimEnd. apply reverse_involutive. }
  assert (Hv : starts_solid v).
  { destruct (trimStart_suffix (reverse u)) as (p & Hp & _).
    apply (f_equal reverse) in Hp.
    rewrite reverse_involutive, reverse_app, <- Hrev, reverse_involutive in Hp.
    destruct v as [|c v']; [done|]. rewrite Hp in Hu. exact Hu. }
  unfold trim. rewrite (trimStart_solid v Hv).
  unfold trimEnd at 1. rewrite (trimStart_solid (reverse v)).
  - apply reverse_involutive.
  - rewrite Hrev. apply trimStart_starts_solid.
Qed.

End Trim.

(** ** Language preference *)

(** Claim C10.  [set-language] with an absent, empty or all-whitespace
    language stores ['auto'], any other language is stored trimmed; the
    [language-updated] event carries what was stored; the last detected
    language of the session is whatever it was. *)
Theorem set_language_stores_trimmed_or_auto :
  ∀ (language : option jsstring) (socketId : string) (σ : Server),
    let stored := match language with
                  | None => js "auto"
                  | Some s => if forallb isWhiteSpace s then js "auto" else trim s
                  end in
    let detected := conversationPreferences σ !! socketId ≫= lastDetectedLanguage in
    on_set_language language socketId σ =
      (set_conversationPreferences <[socketId := mkPrefs stored detected]> σ,
       [LanguageUpdated stored]).
Proof.
  intros language socketId σ stored detected. unfold on_set_language.
  assert (Hlang : (if jsstring_eqb (trim (or_else language (js "auto"))) []
                   then js "auto" else trim (or_else language (js "auto"))) = stored).
  { unfold stored, or_else. destruct language as [s|]; [|by vm_compute].
    destruct s as [|c s]; [by vm_compute|]. cbn [truthy].
    unfold jsstring_eqb. case_bool_decide as Ht.
    - apply trim_nil in Ht. by rewrite Ht.
    - destruct (forallb isWhiteSpace (c :: s)) eqn:Hws; [|done].
      apply trim_nil in Hws. congruence. }
  assert (Hdet : lastDetectedLanguage
                   (default (mkPrefs (js "auto") None) (conversationPreferences σ !! socketId))
                 = detected).
  { unfold detected. by destruct (conversationPreferences σ !! socketId). }
  cbn [targetLanguage]. by rewrite Hlang, Hdet.
Qed.

(** ** Prompt construction *)

Lemma begin_messages (env : option jsstring) (now : Z) (userInput : jsstring)
    (socketId : string) (σ : Server) :
  (processWithChatGPT_begin env now userInput socketId σ).1.2 =
  buildMessages env
    (default (mkPrefs (js "auto") None) (conversationPreferences σ !! socketId))
    (history_of σ socketId ++ [mkMessage user userInput now]).
Proof.
  unfold processWithChatGPT_begin, history_of.
  destruct (conversationHistory σ !! socketId) as [r|]; server_simpl;
    by rewrite ?lookup_insert_eq.
Qed.

(** Claim C7, as amended.  The prompt of a turn is one system message, the
    system instruction followed by a blank line and a language directive,
    and then every message of the session's stored history in order, the
    user message of this turn last.  The directive names the preferred
    language when one is set; when the preference is ['auto'] it names the
    language last detected by speech recognition, and asks for the language
    of the user input only when none was detected. *)
Theorem prompt_is_directive_then_history :
  ∀ (env : option jsstring) (now : Z) (userInput : jsstring) (socketId : string) (σ : Server),
    let prefs := default (mkPrefs (js "auto") None) (conversationPreferences σ !! socketId) in
    let same := js "Respond in the same language as the user input." in
    let directive :=
      if bool_decide (targetLanguage prefs = js "auto") then
        match lastDetectedLanguage prefs with
        | None => same
        | Some l =>
            if bool_decide (l = [] ∨ l = js "auto") then same
            else js "Respond in " ++ l ++ js "."
        end
      else js "Respond in " ++ targetLanguage prefs ++ js "." in
    (processWithChatGPT_begin env now userInput socketId σ).1.2 =
      mkChat system (or_else env defaultSystemPrompt ++ [10; 10]%N ++ directive)
      :: ((fun msg => mkChat (speaker (role msg)) (content msg))
            <$> (history_of σ socketId ++ [mkMessage user userInput now])).
Proof.
  intros env now userInput socketId σ prefs same directive.
  rewrite begin_messages. fold prefs. unfold buildMessages. do 3 f_equal.
  unfold directive, languageDirective, effectiveLanguage, jsstring_eqb, same.
  clear directive same. clearbody prefs. destruct prefs as [target detected].
  cbn [targetLanguage lastDetectedLanguage].
  destruct (decide (target = js "auto")) as [->|Ht].
  - rewrite (bool_decide_eq_true_2 (js "auto" = js "auto")) by done.
    unfold or_else. destruct detected as [[|c l]|]; cbn [truthy].
    + rewrite !bool_decide_eq_true_2; [done | by left | done].
    + destruct (decide (c :: l = js "auto")) as [Hl|Hl].
      * rewrite !bool_decide_eq_true_2; [done | by right | done].
      * rewrite !bool_decide_eq_false_2; [done | by intros [?|?] | done].
    + by rewrite bool_decide_eq_true_2.
  - rewrite (bool_decide_eq_false_2 (target = js "auto")) by done.
    by rewrite bool_decide_eq_false_2.
Qed.

(** Claim C7 as stated fails: with the preference ['auto'] and English
    detected by an earlier recognition, the directive is not the one that
    asks for the language of the user input. *)
Lemma auto_preference_follows_detected_language :
  let σ := record_detected_language (Some (js "english")) "s1"
             (on_connection "s1" emptyServer) in
  targetLanguage <$> conversationPreferences σ !! "s1"%string = Some (js "auto") ∧
  chat_content <$> head (processWithChatGPT_begin None 5 (js "hola") "s1" σ).1.2 =
    Some (defaultSystemPrompt ++ [10; 10]%N ++ js "Respond in english.") ∧
  chat_content <$> head (processWithChatGPT_begin None 5 (js "hola") "s1" σ).1.2 ≠
    Some (defaultSystemPrompt ++ [10; 10]%N
            ++ js "Respond in the same language as the user input.").
Proof. vm_compute. split_and!; [done | done | discriminate]. Qed.

(** ** Conversation history *)

Section History.

Lemma pruneHistory_drop (h : list ConversationMessage) (n : nat) :
  pruneHistory h n = drop (length h - n) h.
Proof.
  unfold pruneHistory. destruct (length h <=? n)%nat eqn:Hle; [|done].
  apply Nat.leb_le in Hle. by replace (length h - n)%nat with 0%nat by lia.
Qed.

Lemma length_pruneHistory (h : list ConversationMessage) (n : nat) :
  length (pruneHistory h n) = (length h `min` n)%nat.
Proof. rewrite pruneHistory_drop, length_drop. lia. Qed.

(** The client events other than [disconnect] leave the histories alone. *)
Lemma handle_history (socketId : string) (e : ClientEvent) (σ : Server) :
  e ≠ EvDisconnect →
  conversationHistory (handle socketId e σ).1 = conversationHistory σ ∧
  arrays (handle socketId e σ).1 = arrays σ.
Proof.
  intros He. destruct e; try done; cbn [handle];
    unfold on_interrupt, abortInFlightControllers, on_set_language, on_start_recording,
      on_audio_stream, schedulePartialTranscription;
    server_simpl; repeat case_match; by server_simpl.
Qed.

Lemma handle_all_history (socketId : string) (es : list ClientEvent) (σ : Server) :
  EvDisconnect ∉ es →
  conversationHistory (handle_all socketId es σ).1 = conversationHistory σ ∧
  arrays (handle_all socketId es σ).1 = arrays σ.
Proof.
  revert σ. induction es as [|e es IH]; intros σ Hes; [done|].
  apply not_elem_of_cons in Hes as [He Hes]. cbn [handle_all].
  destruct (handle_history socketId e σ) as [H1 H2]; [done|].
  destruct (handle socketId e σ) as [σ1 out]. 
  destruct (IH σ1 Hes) as [H3 H4].
  destruct (handle_all socketId es σ1) as [σ2 tr]. simpl in *. split; congruence.
Qed.

Lemma history_of_ext (σ σ' : Server) (socketId : string) :
  conversationHistory σ' = conversationHistory σ → arrays σ' = arrays σ →
  history_of σ' socketId = history_of σ socketId.
Proof. unfold history_of, array_at. by intros -> ->. Qed.

(** The start of a turn records the user message and nothing else, and the
    activation holds the array the registry holds. *)
Lemma begin_history (env : option jsstring) (now : Z) (userInput : jsstring)
    (socketId : string) (σ : Server) :
  let σ1 := (processWithChatGPT_begin env now userInput socketId σ).1.1.1 in
  let t := (processWithChatGPT_begin env now userInput socketId σ).1.1.2 in
  history_of σ1 socketId = history_of σ socketId ++ [mkMessage user userInput now] ∧
  turn_socketId t = socketId ∧
  conversationHistory σ1 !! socketId = Some (turn_history t).
Proof.
  unfold processWithChatGPT_begin.
  destruct (conversationHistory σ !! socketId) as [r|] eqn:Hr; server_simpl;
    rewrite ?Hr, ?lookup_insert_eq; done.
Qed.

(** The end of the token stream appends the reply and prunes. *)
Lemma record_reply_history (now : Z) (t : Turn) (σ : Server) :
  conversationHistory σ !! turn_socketId t = Some (turn_history t) →
  history_of (record_reply now t σ) (turn_socketId t) =
  pruneHistory (history_of σ (turn_socketId t) ++ [mkMessage assistant (aiResponse t) now])
    defaultMaxMessages.
Proof.
  intros Href. unfold record_reply, pruneHistory_ref, pruneHistory.
  server_simpl. rewrite Href, lookup_insert_eq. cbn [default].
  destruct (length _ <=? defaultMaxMessages)%nat; server_simpl;
    by rewrite !lookup_insert_eq.
Qed.

Lemma handle_sent (socketId : string) (e : ClientEvent) (σ : Server) :
  Forall handler_event (handle socketId e σ).2.
Proof. destruct e; cbn; repeat constructor. Qed.

Lemma handle_all_sent (socketId : string) (es : list ClientEvent) (σ : Server) (x : Emit) :
  Sent x ∈ (handle_all socketId es σ).2 → handler_event x.
Proof.
  revert σ. induction es as [|e es IH]; intros σ; cbn [handle_all].
  - cbn. by intros ?%elem_of_nil.
  - pose proof (handle_sent socketId e σ) as Hout.
    destruct (handle socketId e σ) as [σ1 out].
    specialize (IH σ1). destruct (handle_all socketId es σ1) as [σ2 tr].
    cbn in *. intros [?|[Hx|Hx]%elem_of_app]%elem_of_cons; [done| |by apply IH].
    apply list_elem_of_fmap in Hx as (y & [= ->] & Hy).
    by eapply Forall_forall in Hout.
Qed.

Lemma handler_event_late (x : Emit) : handler_event x → late_event x.
Proof. by destruct x as [| | [] | | | | | | | |]. Qed.

Lemma streamTextToSpeech_spec (t : Turn) (σ : Server) (sentences : list jsstring) :
  past_stream (streamTextToSpeech t σ sentences).1 ∧
  Forall late_event (streamTextToSpeech t σ sentences).2.
Proof.
  unfold streamTextToSpeech. destruct (streamTextToSpeech_next _ _ _) as [[u rest]|]; cbn;
    repeat constructor.
Qed.

(** Once the token stream is over the histories stay as they are, and only
    audio events, the final [ai-response] and handler events are sent. *)
Lemma run_past_stream (socketId : string) (script : list (list ClientEvent * Resume)) :
  ∀ (ts : TurnState) (σ : Server),
    stays_connected script → past_stream ts →
    (conversationHistory (run_turn socketId script ts σ).1.1 = conversationHistory σ ∧
     arrays (run_turn socketId script ts σ).1.1 = arrays σ).
Proof.
  induction script as [|[during r] script IH]; intros ts σ Hconn Hts; [done|].
  apply Forall_cons in Hconn as [Hd Hconn]. cbn [run_turn]. cbn in Hd.
  destruct (handle_all_history socketId during σ Hd) as [H1 H2].
  destruct (handle_all socketId during σ) as [σ1 tr1]. cbn in H1, H2.
  destruct ts as [t|t|t u rest|]; try done.
  - destruct r; cbn [turn_step]; try done.
    pose proof (streamTextToSpeech_spec t σ1 rest) as [Hpast _].
    destruct (streamTextToSpeech t σ1 rest) as [ts' out]. cbn in Hpast.
    destruct (IH ts' σ1 Hconn Hpast) as [H3 H4].
    destruct (run_turn socketId script ts' σ1) as [[σ3 ts3] tr3]. cbn in *.
    split; congruence.
Qed.

Lemma run_past_stream_sent (socketId : string) (script : list (list ClientEvent * Resume)) :
  ∀ (ts : TurnState) (σ : Server) (x : Emit),
    past_stream ts →
    Sent x ∈ (run_turn socketId script ts σ).2 → late_event x.
Proof.
  induction script as [|[during r] script IH]; intros ts σ x Hts; cbn [run_turn].
  { cbn. by intros ?%elem_of_nil. }
  pose proof (handle_all_sent socketId during σ x) as Hh.
  destruct (handle_all socketId during σ) as [σ1 tr1]. cbn in Hh.
  destruct ts as [t|t|t u rest|]; try done.
  - destruct r; cbn [turn_step]; try (cbn; intros; by apply handler_event_late, Hh).
    pose proof (streamTextToSpeech_spec t σ1 rest) as [Hpast Hout].
    destruct (streamTextToSpeech t σ1 rest) as [ts' out]. cbn in Hpast, Hout.
    specialize (IH ts' σ1 x Hpast).
    destruct (run_turn socketId script ts' σ1) as [[σ3 ts3] tr3]. cbn in *.
    intros [?|[Hx|Hx]%elem_of_cons]%elem_of_app.
    + by apply handler_event_late, Hh.
    + by injection Hx as ->.
    + apply elem_of_app in Hx as [Hx|Hx]; [|by apply IH].
      apply list_elem_of_fmap in Hx as (y & [= ->] & Hy).
      by eapply Forall_forall in Hout.
  - destruct r; cbn; intros; by apply handler_event_late, Hh.
Qed.

Lemma late_not_done (x : Emit) : late_event x → ∀ id reply, x ≠ AiMessageDone id reply.
Proof. by destruct x. Qed.

Lemma before_reply_ext (socketId : string) (ts : TurnState) (σ σ' : Server) :
  conversationHistory σ' = conversationHistory σ →
  before_reply socketId ts σ → before_reply socketId ts σ'.
Proof. intros H. destruct ts; cbn; by rewrite ?H. Qed.

(** A run from before the end of the token stream either never records a
    reply, and the history is untouched, or records one reply and prunes. *)
Ltac no_done :=
  let Hin := fresh in
  intros ? ? Hin; unfold catch_emits in Hin;
  repeat (apply elem_of_cons in Hin as [?|Hin]; [done|]);
  by apply elem_of_nil in Hin.

Lemma run_before_reply (socketId : string) (script : list (list ClientEvent * Resume)) :
  ∀ (ts : TurnState) (σ : Server),
    stays_connected script → before_reply socketId ts σ →
    (history_of (run_turn socketId script ts σ).1.1 socketId = history_of σ socketId ∧
     ∀ id reply, Sent (AiMessageDone id reply) ∉ (run_turn socketId script ts σ).2) ∨
    (∃ now' id reply,
       Sent (AiMessageDone id reply) ∈ (run_turn socketId script ts σ).2 ∧
       history_of (run_turn socketId script ts σ).1.1 socketId =
       pruneHistory (history_of σ socketId ++ [mkMessage assistant reply now'])
         defaultMaxMessages).
Proof.
  induction script as [|[during r] script IH]; intros ts σ Hconn Hts.
  { left. split; [done|]. cbn. intros ?? []%elem_of_nil. }
  apply Forall_cons in Hconn as [Hd Hconn]. cbn in Hd. cbn [run_turn].
  destruct (handle_all_history socketId during σ Hd) as [H1 H2].
  pose proof (λ x, handle_all_sent socketId during σ x) as Hh.
  destruct (handle_all socketId during σ) as [σ1 tr1]. cbn in H1, H2, Hh.
  pose proof (history_of_ext σ σ1 socketId H1 H2) as Hhist.
  apply (before_reply_ext _ _ _ σ1 H1) in Hts.
  assert (Hquiet : ∀ id reply, Sent (AiMessageDone id reply) ∉ tr1).
  { intros id reply Hin. by apply Hh in Hin. }
  (* the three ways a step can leave the stream without a reply *)
  assert (Hstop : ∀ out, (∀ id reply, AiMessageDone id reply ∉ out) →
    (history_of (run_turn socketId script Returned σ1).1.1 socketId = history_of σ socketId ∧
     ∀ id reply, Sent (AiMessageDone id reply) ∉
       tr1 ++ (Sent <$> out) ++ (run_turn socketId script Returned σ1).2)).
  { intros out Hout.
    destruct (run_past_stream socketId script Returned σ1 Hconn I) as [H3 H4].
    pose proof (λ x, run_past_stream_sent socketId script Returned σ1 x I) as Hlate.
    split; [by rewrite (history_of_ext σ1 _ socketId H3 H4)|].
    intros id reply [Hin|[Hin|Hin]%elem_of_app]%elem_of_app.
    - by eapply Hquiet.
    - apply list_elem_of_fmap in Hin as (y & [= <-] & Hy). by eapply Hout.
    - by apply Hlate in Hin. }
  (* a step that stays in the stream *)
  assert (Hgo : ∀ ts' out, before_reply socketId ts' σ1 →
    (∀ id reply, AiMessageDone id reply ∉ out) →
    let res := run_turn socketId script ts' σ1 in
    (history_of res.1.1 socketId = history_of σ socketId ∧
     ∀ id reply, Sent (AiMessageDone id reply) ∉ tr1 ++ (Sent <$> out) ++ res.2) ∨
    (∃ now' id reply,
       Sent (AiMessageDone id reply) ∈ tr1 ++ (Sent <$> out) ++ res.2 ∧
       history_of res.1.1 socketId =
       pruneHistory (history_of σ socketId ++ [mkMessage assistant reply now'])
         defaultMaxMessages)).
  { intros ts' out Hts' Hout res.
    destruct (IH ts' σ1 Hconn Hts') as [[Ha Hb]|(now' & id & reply & Ha & Hb)]; fold res in Ha, Hb.
    - left. split; [congruence|].
      intros id reply [Hin|[Hin|Hin]%elem_of_app]%elem_of_app.
      + by eapply Hquiet.
      + apply list_elem_of_fmap in Hin as (y & [= <-] & Hy). by eapply Hout.
      + by eapply Hb.
    - right. exists now', id, reply. split; [|congruence].
      apply elem_of_app; right. apply elem_of_app; by right. }
  destruct ts as [t|t|t u rest|]; try done; destruct Hts as [Hsock Href].
  - destruct r; cbn [turn_step]; try (left; split; [exact Hhist | exact Hquiet]).
    + specialize (Hgo (Streaming (with_aiMessageId now t)) [AiMessageStart now]).
      destruct (run_turn socketId script (Streaming (with_aiMessageId now t)) σ1)
        as [[σ3 ts3] tr3]. cbn [fst snd] in *. apply Hgo; [done|]. no_done.
    + specialize (Hstop catch_emits). 
      destruct (run_turn socketId script Returned σ1) as [[σ3 ts3] tr3]. cbn [fst snd] in *.
      left. apply Hstop. no_done.
  - destruct r; cbn [turn_step]; try (left; split; [exact Hhist | exact Hquiet]).
    + destruct (negb (version_of σ1 (turn_socketId t) =? versionAtStart t)).
      * specialize (Hstop [AiTyping false]).
        destruct (run_turn socketId script Returned σ1) as [[σ3 ts3] tr3]. cbn [fst snd] in *.
        left. apply Hstop. no_done.
      * destruct (truthy token).
        -- specialize (Hgo (Streaming (with_aiResponse (aiResponse t ++ token) t))
                         [AiToken (aiMessageId t) token]).
           destruct (run_turn socketId script
                       (Streaming (with_aiResponse (aiResponse t ++ token) t)) σ1)
             as [[σ3 ts3] tr3]. cbn [fst snd] in *.
           apply Hgo; [done|]. no_done.
        -- specialize (Hgo (Streaming t) []).
           destruct (run_turn socketId script (Streaming t) σ1) as [[σ3 ts3] tr3].
           cbn [fst snd] in *.
           apply Hgo; [done|]. no_done.
    + pose proof (streamTextToSpeech_spec t (record_reply now t σ1) (sentences_of (aiResponse t)))
        as [Hpast Hout].
      destruct (streamTextToSpeech t (record_reply now t σ1) (sentences_of (aiResponse t)))
        as [ts' out]. cbn in Hpast, Hout.
      destruct (run_past_stream socketId script ts' (record_reply now t σ1) Hconn Hpast)
        as [H3 H4].
      destruct (run_turn socketId script ts' (record_reply now t σ1)) as [[σ3 ts3] tr3].
      cbn [fst snd] in *. right. exists now, (aiMessageId t), (aiResponse t). split.
      * apply elem_of_app; right. apply elem_of_cons; right. apply elem_of_cons; by left.
      * rewrite (history_of_ext _ σ3 socketId H3 H4), <- Hhist, <- Hsock.
        apply record_reply_history. by rewrite Hsock.
    + specialize (Hstop catch_emits). 
      destruct (run_turn socketId script Returned σ1) as [[σ3 ts3] tr3]. cbn [fst snd] in *.
      left. apply Hstop. no_done.
Qed.

End History.

Section Pruning.

Lemma on_connection_history (socketId : string) (σ : Server) :
  history_of (on_connection socketId σ) socketId = [].
Proof. unfold on_connection. server_simpl. by rewrite !lookup_insert_eq. Qed.

Ltac no_done :=
  let Hin := fresh in
  intros ? ? Hin; unfold catch_emits in Hin;
  repeat (apply elem_of_cons in Hin as [?|Hin]; [done|]);
  by apply elem_of_nil in Hin.

(** Once the token stream is over no reply is pushed any more. *)
Lemma turn_end_past (socketId : string) (script : list (list ClientEvent * Resume)) :
  ∀ (ts : TurnState) (σ : Server),
    past_stream ts → turn_end socketId script ts σ = NoReply.
Proof.
  induction script as [|[during r] script IH]; intros ts σ Hts; [done|].
  cbn [turn_end]. destruct ts as [t|t|t u rest|]; try done.
  destruct r; cbn [turn_step]; try done.
  pose proof (streamTextToSpeech_spec t (handle_all socketId during σ).1 rest) as [Hpast _].
  destruct (streamTextToSpeech t (handle_all socketId during σ).1 rest) as [ts' out].
  by apply IH.
Qed.

(** What the run of an activation that has not yet reached the end of its
    token stream does to the history, by the way it ends. *)
Lemma run_turn_end (socketId : string) (script : list (list ClientEvent * Resume)) :
  ∀ (ts : TurnState) (σ : Server),
    stays_connected script → before_reply socketId ts σ →
    match turn_end socketId script ts σ with
    | NoReply =>
        history_of (run_turn socketId script ts σ).1.1 socketId = history_of σ socketId ∧
        ∀ id reply, Sent (AiMessageDone id reply) ∉ (run_turn socketId script ts σ).2
    | Reply now' reply =>
        (∃ id, Sent (AiMessageDone id reply) ∈ (run_turn socketId script ts σ).2) ∧
        history_of (run_turn socketId script ts σ).1.1 socketId =
        pruneHistory (history_of σ socketId ++ [mkMessage assistant reply now'])
          defaultMaxMessages
    end.
Proof.
  induction script as [|[during r] script IH]; intros ts σ Hconn Hts.
  { split; [done|]. cbn. intros ?? []%elem_of_nil. }
  apply Forall_cons in Hconn as [Hd Hconn]. cbn in Hd. cbn [run_turn turn_end].
  destruct (handle_all_history socketId during σ Hd) as [H1 H2].
  pose proof (λ x, handle_all_sent socketId during σ x) as Hh.
  destruct (handle_all socketId during σ) as [σ1 tr1]. cbn [fst snd] in H1, H2, Hh |- *.
  pose proof (history_of_ext σ σ1 socketId H1 H2) as Hhist.
  apply (before_reply_ext _ _ _ σ1 H1) in Hts.
  assert (Hquiet : ∀ id reply, Sent (AiMessageDone id reply) ∉ tr1).
  { intros id reply Hin. by apply Hh in Hin. }
  (* a step that leaves the stream without a reply *)
  assert (Hstop : ∀ out, (∀ id reply, AiMessageDone id reply ∉ out) →
    turn_end socketId script Returned σ1 = NoReply ∧
    history_of (run_turn socketId script Returned σ1).1.1 socketId = history_of σ socketId ∧
    ∀ id reply, Sent (AiMessageDone id reply) ∉
      tr1 ++ (Sent <$> out) ++ (run_turn socketId script Returned σ1).2).
  { intros out Hout.
    destruct (run_past_stream socketId script Returned σ1 Hconn I) as [H3 H4].
    pose proof (λ x, run_past_stream_sent socketId script Returned σ1 x I) as Hlate.
    split; [by apply turn_end_past|].
    split; [by rewrite (history_of_ext σ1 _ socketId H3 H4)|].
    intros id reply [Hin|[Hin|Hin]%elem_of_app]%elem_of_app.
    - by eapply Hquiet.
    - apply list_elem_of_fmap in Hin as (y & [= <-] & Hy). by eapply Hout.
    - by apply Hlate in Hin. }
  (* a step that stays in the stream *)
  assert (Hgo : ∀ ts' out, before_reply socketId ts' σ1 →
    (∀ id reply, AiMessageDone id reply ∉ out) →
    let res := run_turn socketId script ts' σ1 in
    match turn_end socketId script ts' σ1 with
    | NoReply =>
        history_of res.1.1 socketId = history_of σ socketId ∧
        ∀ id reply, Sent (AiMessageDone id reply) ∉ tr1 ++ (Sent <$> out) ++ res.2
    | Reply now' reply =>
        (∃ id, Sent (AiMessageDone id reply) ∈ tr1 ++ (Sent <$> out) ++ res.2) ∧
        history_of res.1.1 socketId =
        pruneHistory (history_of σ socketId ++ [mkMessage assistant reply now'])
          defaultMaxMessages
    end).
  { intros ts' out Hts' Hout res. specialize (IH ts' σ1 Hconn Hts'). fold res in IH.
    destruct (turn_end socketId script ts' σ1) as [|now' reply].
    - destruct IH as [Ha Hb]. split; [congruence|].
      intros id reply [Hin|[Hin|Hin]%elem_of_app]%elem_of_app.
      + by eapply Hquiet.
      + apply list_elem_of_fmap in Hin as (y & [= <-] & Hy). by eapply Hout.
      + by eapply Hb.
    - destruct IH as [[id Ha] Hb]. split; [|congruence].
      exists id. apply elem_of_app; right. apply elem_of_app; by right. }
  destruct ts as [t|t|t u rest|]; try done; destruct Hts as [Hsock Href].
  - destruct r; cbn [turn_step]; try (split; [exact Hhist | exact Hquiet]).
    + specialize (Hgo (Streaming (with_aiMessageId now t)) [AiMessageStart now]).
      destruct (run_turn socketId script (Streaming (with_aiMessageId now t)) σ1)
        as [[σ3 ts3] tr3]. cbn [fst snd] in *. apply Hgo; [done|]. no_done.
    + destruct (Hstop catch_emits) as (-> & Ha & Hb); [no_done|].
      by destruct (run_turn socketId script Returned σ1) as [[σ3 ts3] tr3].
  - destruct r; cbn [turn_step]; try (split; [exact Hhist | exact Hquiet]).
    + destruct (negb (version_of σ1 (turn_socketId t) =? versionAtStart t)).
      * destruct (Hstop [AiTyping false]) as (-> & Ha & Hb); [no_done|].
        by destruct (run_turn socketId script Returned σ1) as [[σ3 ts3] tr3].
      * destruct (truthy token).
        -- specialize (Hgo (Streaming (with_aiResponse (aiResponse t ++ token) t))
                         [AiToken (aiMessageId t) token]).
           destruct (run_turn socketId script
                       (Streaming (with_aiResponse (aiResponse t ++ token) t)) σ1)
             as [[σ3 ts3] tr3]. cbn [fst snd] in *.
           apply Hgo; [done|]. no_done.
        -- specialize (Hgo (Streaming t) []).
           destruct (run_turn socketId script (Streaming t) σ1) as [[σ3 ts3] tr3].
           cbn [fst snd] in *.
           apply Hgo; [done|]. no_done.
    + pose proof (streamTextToSpeech_spec t (record_reply now t σ1) (sentences_of (aiResponse t)))
        as [Hpast Hout].
      destruct (streamTextToSpeech t (record_reply now t σ1) (sentences_of (aiResponse t)))
        as [ts' out]. cbn in Hpast, Hout.
      destruct (run_past_stream socketId script ts' (record_reply now t σ1) Hconn Hpast)
        as [H3 H4].
      destruct (run_turn socketId script ts' (record_reply now t σ1)) as [[σ3 ts3] tr3].
      cbn [fst snd] in *. split.
      * exists (aiMessageId t).
        apply elem_of_app; right. apply elem_of_cons; right. apply elem_of_cons; by left.
      * rewrite (history_of_ext _ σ3 socketId H3 H4), <- Hhist, <- Hsock.
        apply record_reply_history. by rewrite Hsock.
    + destruct (Hstop catch_emits) as (-> & Ha & Hb); [no_done|].
      by destruct (run_turn socketId script Returned σ1) as [[σ3 ts3] tr3].
Qed.

(** A turn of a session pushes the user message, and the reply when its run
    gets to the end of the token stream; the history is pruned then. *)
Lemma processWithChatGPT_history (env : option jsstring) (socketId : string)
    (now : Z) (userInput : jsstring) (script : list (list ClientEvent * Resume))
    (σ : Server) :
  stays_connected script →
  let begun := processWithChatGPT_begin env now userInput socketId σ in
  let res := processWithChatGPT env now userInput socketId script σ in
  match turn_end socketId script (AwaitCreate begun.1.1.2) begun.1.1.1 with
  | NoReply =>
      history_of res.1.1 socketId = history_of σ socketId ++ [mkMessage user userInput now] ∧
      ∀ id reply, Sent (AiMessageDone id reply) ∉ res.2
  | Reply now' reply =>
      (∃ id, Sent (AiMessageDone id reply) ∈ res.2) ∧
      history_of res.1.1 socketId =
      pruneHistory (history_of σ socketId ++
                    [mkMessage user userInput now; mkMessage assistant reply now'])
        defaultMaxMessages
  end.
Proof.
  intros Hconn begun res. unfold res, begun, processWithChatGPT.
  destruct (begin_history env now userInput socketId σ) as (Hh & Hs & Hr).
  destruct (processWithChatGPT_begin env now userInput socketId σ)
    as [[[σ1 t] msgs] out] eqn:Hbegin.
  cbn [fst snd] in Hh, Hs, Hr |- *.
  assert (Hout : ∀ id reply, Sent (AiMessageDone id reply) ∉ Sent <$> out).
  { unfold processWithChatGPT_begin in Hbegin.
    assert (out = [MessageReceived userInput
                     (match default text (lastInputSource σ !! socketId) with
                      | voice => true | text => false end) now; AiTyping true]) as ->
      by (destruct (conversationHistory σ !! socketId); server_simpl; by simplify_eq).
    intros id reply Hin. cbn in Hin.
    repeat (apply elem_of_cons in Hin as [?|Hin]; [done|]). by apply elem_of_nil in Hin. }
  pose proof (run_turn_end socketId script (AwaitCreate t) σ1 Hconn (conj Hs Hr)) as Hrun.
  destruct (run_turn socketId script (AwaitCreate t) σ1) as [[σ2 ts2] tr2].
  cbn [fst snd] in *.
  destruct (turn_end socketId script (AwaitCreate t) σ1) as [|now' reply].
  - destruct Hrun as [Ha Hb]. split; [congruence|].
    intros id reply [Hin|Hin]%elem_of_app; [by eapply Hout|by eapply Hb].
  - destruct Hrun as [[id Ha] Hb]. split.
    + exists id. apply elem_of_app. by right.
    + by rewrite Hb, Hh, <- app_assoc.
Qed.

(** The stored history is always a suffix of everything pushed so far that
    contains its last twenty messages. *)
Lemma run_session_history (env : option jsstring) (socketId : string)
    (runs : list (Z * jsstring * list (list ClientEvent * Resume))) :
  ∀ (acc : Server * list ConversationMessage) (k : nat),
    Forall (fun x => stays_connected x.2) runs →
    history_of acc.1 socketId = drop k acc.2 →
    (k <= length acc.2 - defaultMaxMessages)%nat →
    ∃ k', history_of (foldl (session_step env socketId) acc runs).1 socketId =
            drop k' (foldl (session_step env socketId) acc runs).2 ∧
          (k' <= length (foldl (session_step env socketId) acc runs).2
                 - defaultMaxMessages)%nat.
Proof.
  unfold defaultMaxMessages.
  induction runs as [|[[now userInput] script] runs IH]; intros [σ all] k Hconn Hh Hk.
  { by exists k. }
  apply Forall_cons in Hconn as [Hscript Hconn]. cbn [snd] in Hscript.
  cbn [foldl fst snd] in *.
  pose proof (processWithChatGPT_history env socketId now userInput script σ Hscript) as Hrun.
  cbn zeta in Hrun. unfold session_step at 2 4 6. cbn [fst snd].
  destruct (turn_end socketId script _ _) as [|now' reply]; cbn [turn_messages].
  - destruct Hrun as [Hrun _]. apply (IH _ k Hconn); cbn [fst snd].
    + rewrite Hrun, Hh. rewrite drop_app_le; [done|lia].
    + rewrite length_app. cbn. lia.
  - destruct Hrun as [_ Hrun].
    set (new := [mkMessage user userInput now; mkMessage assistant reply now']) in *.
    apply (IH _ (length (all ++ new) - 20)%nat Hconn); cbn [fst snd]; [|lia].
    rewrite Hrun, Hh, pruneHistory_drop. unfold defaultMaxMessages.
    rewrite <- drop_app_le by lia. rewrite drop_drop. f_equal.
    rewrite length_drop, length_app. lia.
Qed.

End Pruning.

(** ** Interrupts and failures during generation *)

Section Generation.

Lemma on_interrupt_version (socketId : string) (σ : Server) :
  version_of (on_interrupt socketId σ).1 socketId = version_of σ socketId + 1.
Proof.
  unfold on_interrupt, abortInFlightControllers. server_simpl.
  destruct (controllersBySocket σ !! socketId); server_simpl; by rewrite lookup_insert_eq.
Qed.

Lemma handle_version (socketId : string) (e : ClientEvent) (σ : Server) :
  e ≠ EvDisconnect →
  version_of σ socketId <= version_of (handle socketId e σ).1 socketId.
Proof.
  intros He. destruct e as [|language| |chunk|]; cbn [handle].
  - rewrite on_interrupt_version. lia.
  - unfold on_set_language. server_simpl. lia.
  - unfold on_start_recording. server_simpl. lia.
  - unfold on_audio_stream, schedulePartialTranscription.
    server_simpl; repeat case_match; server_simpl; lia.
  - done.
Qed.

Lemma handle_all_version (socketId : string) (es : list ClientEvent) (σ : Server) :
  EvDisconnect ∉ es →
  version_of σ socketId <= version_of (handle_all socketId es σ).1 socketId.
Proof.
  revert σ. induction es as [|e es IH]; intros σ Hes; [done|].
  apply not_elem_of_cons in Hes as [He Hes]. cbn [handle_all].
  pose proof (handle_version socketId e σ (not_eq_sym He)) as H1.
  destruct (handle socketId e σ) as [σ1 out].
  pose proof (IH σ1 Hes) as H2.
  destruct (handle_all socketId es σ1) as [σ2 tr]. cbn [fst] in *. lia.
Qed.

Lemma stream_inv_handle_all (socketId : string) (h : list ConversationMessage)
    (ts : TurnState) (es : list ClientEvent) (σ : Server) :
  EvDisconnect ∉ es → stream_inv socketId h ts σ →
  stream_inv socketId h ts (handle_all socketId es σ).1.
Proof.
  intros Hes Hinv.
  destruct (handle_all_history socketId es σ Hes) as [H1 H2].
  pose proof (handle_all_version socketId es σ Hes) as H3.
  destruct ts as [t|t| |]; try done; destruct Hinv as (Hs & Hr & Hh & Hv);
    (split_and!; [done | by rewrite H1 | by rewrite (history_of_ext _ _ _ H1 H2) | lia]).
Qed.

(** The invariant of an activation in its token stream holds along a run. *)
Lemma run_stream_inv (socketId : string) (h : list ConversationMessage)
    (script : list (list ClientEvent * Resume)) :
  ∀ (ts : TurnState) (σ : Server),
    stays_connected script → stream_inv socketId h ts σ →
    stream_inv socketId h (run_turn socketId script ts σ).1.2
                          (run_turn socketId script ts σ).1.1.
Proof.
  induction script as [|[during r] script IH]; intros ts σ Hconn Hinv; [done|].
  apply Forall_cons in Hconn as [Hd Hconn]. cbn in Hd. cbn [run_turn].
  apply (stream_inv_handle_all _ _ _ during _ Hd) in Hinv.
  destruct (handle_all socketId during σ) as [σ1 tr1]. cbn [fst] in Hinv.
  destruct (turn_step r ts σ1) as [[[σ2 ts2] out]|] eqn:Hstep; [|done].
  assert (Hinv2 : stream_inv socketId h ts2 σ2).
  { destruct ts as [t|t|t u rest|]; destruct r; cbn [turn_step] in Hstep;
      try discriminate; try by simplify_eq.
    - destruct (negb _); [by simplify_eq|].
      destruct (truthy token); by simplify_eq.
    - pose proof (streamTextToSpeech_spec t (record_reply now t σ1) (sentences_of (aiResponse t)))
        as [Hpast _].
      destruct (streamTextToSpeech _ _ _) as [ts' out']. simplify_eq.
      cbn [fst] in Hpast. by destruct ts2.
    - pose proof (streamTextToSpeech_spec t σ1 rest) as [Hpast _].
      destruct (streamTextToSpeech _ _ _) as [ts' out']. simplify_eq.
      cbn [fst] in Hpast. by destruct ts2. }
  specialize (IH ts2 σ2 Hconn Hinv2).
  by destruct (run_turn socketId script ts2 σ2) as [[σ3 ts3] tr3].
Qed.

Lemma begin_stream_inv (env : option jsstring) (now : Z) (userInput : jsstring)
    (socketId : string) (σ : Server) :
  stream_inv socketId (history_of σ socketId ++ [mkMessage user userInput now])
    (AwaitCreate (processWithChatGPT_begin env now userInput socketId σ).1.1.2)
    (processWithChatGPT_begin env now userInput socketId σ).1.1.1.
Proof.
  destruct (begin_history env now userInput socketId σ) as (Hh & Hs & Hr).
  split_and!; try done.
  unfold processWithChatGPT_begin.
  destruct (conversationHistory σ !! socketId); server_simpl;
    cbn [versionAtStart]; lia.
Qed.

(** Where [processWithChatGPT] stands after a script, with its invariant. *)
Lemma processWithChatGPT_inv (env : option jsstring) (now : Z) (userInput : jsstring)
    (socketId : string) (script : list (list ClientEvent * Resume)) (σ : Server) :
  stays_connected script →
  stream_inv socketId (history_of σ socketId ++ [mkMessage user userInput now])
    (processWithChatGPT env now userInput socketId script σ).1.2
    (processWithChatGPT env now userInput socketId script σ).1.1.
Proof.
  intros Hconn. unfold processWithChatGPT.
  pose proof (begin_stream_inv env now userInput socketId σ) as Hinv.
  destruct (processWithChatGPT_begin env now userInput socketId σ) as [[[σ1 t] msgs] out].
  cbn [fst snd] in Hinv.
  pose proof (run_stream_inv socketId _ script _ _ Hconn Hinv) as Hrun.
  by destruct (run_turn socketId script (AwaitCreate t) σ1) as [[σ2 ts2] tr2].
Qed.

Lemma late_not_token (x : Emit) : late_event x → ∀ id token, x ≠ AiToken id token.
Proof. by destruct x. Qed.


End Generation.

(** Claim C6.  A turn completes when the token stream ends: the reply is
    pushed onto the history, the history is cut down to its last 20 messages
    and [ai-message-done] is sent.
    - A turn that is consuming its token stream when the stream ends does
      complete, whatever the client did meanwhile short of disconnecting: the
      history is then the last 20 of the history the turn found, the user
      message and the reply.
    - Any turn ends in one of two ways, told by [turn_end]: with no reply, no
      [ai-message-done] and the history the turn found plus the user
      message; or with a reply, [ai-message-done] with that reply and the
      last 20 of the history, the user message and the reply.
    - Over the turns of a session, run one after the other from the
      connection on, the stored history is a suffix of all the messages
      pushed that holds at least the last 20 of them; after a turn that
      completes it is exactly the last 20 (all of them when there are
      fewer), so when 25 have been pushed it is these without the oldest
      5. *)
Theorem history_bounded_after_completed_turn :
  ∀ (env : option jsstring) (socketId : string),
    (∀ (σ0 σ1 : Server) (now : Z) (userInput : jsstring)
       (script rest : list (list ClientEvent * Resume)) (t : Turn) (tr1 : list Obs)
       (during : list ClientEvent) (now' : Z),
       stays_connected script → EvDisconnect ∉ during → stays_connected rest →
       processWithChatGPT env now userInput socketId script σ0 = (σ1, Streaming t, tr1) →
       let res := run_turn socketId ((during, StreamEnd now') :: rest) (Streaming t) σ1 in
       let all := history_of σ0 socketId ++
                  [mkMessage user userInput now; mkMessage assistant (aiResponse t) now'] in
       Sent (AiMessageDone (aiMessageId t) (aiResponse t)) ∈ res.2 ∧
       history_of res.1.1 socketId = drop (length all - 20) all ∧
       (length (history_of res.1.1 socketId) <= 20)%nat) ∧
    (∀ (σ : Server) (now : Z) (userInput : jsstring)
       (script : list (list ClientEvent * Resume)),
       stays_connected script →
       let begun := processWithChatGPT_begin env now userInput socketId σ in
       let res := processWithChatGPT env now userInput socketId script σ in
       match turn_end socketId script (AwaitCreate begun.1.1.2) begun.1.1.1 with
       | NoReply =>
           history_of res.1.1 socketId
           = history_of σ socketId ++ [mkMessage user userInput now] ∧
           ∀ id reply, Sent (AiMessageDone id reply) ∉ res.2
       | Reply now' reply =>
           let all := history_of σ socketId ++
                      [mkMessage user userInput now; mkMessage assistant reply now'] in
           (∃ id, Sent (AiMessageDone id reply) ∈ res.2) ∧
           history_of res.1.1 socketId = drop (length all - 20) all ∧
           (length (history_of res.1.1 socketId) <= 20)%nat
       end) ∧
    (∀ (σ : Server) (before : list ClientEvent)
       (runs : list (Z * jsstring * list (list ClientEvent * Resume)))
       (now : Z) (userInput : jsstring) (script : list (list ClientEvent * Resume)),
       EvDisconnect ∉ before →
       Forall (fun x => stays_connected x.2) runs → stays_connected script →
       let start := (handle_all socketId before (on_connection socketId σ)).1 in
       let mid := run_session env socketId runs start in
       let final := run_session env socketId (runs ++ [(now, userInput, script)]) start in
       (∃ k, history_of mid.1 socketId = drop k mid.2 ∧ (k <= length mid.2 - 20)%nat) ∧
       ((∃ id reply, Sent (AiMessageDone id reply)
                       ∈ (processWithChatGPT env now userInput socketId script mid.1).2) →
        history_of final.1 socketId = drop (length final.2 - 20) final.2 ∧
        (length (history_of final.1 socketId) <= 20)%nat ∧
        (length final.2 = 25%nat →
         history_of final.1 socketId = drop 5 final.2 ∧
         length (history_of final.1 socketId) = 20%nat))).
Proof.
  intros env socketId. split_and!.
  - (* the stream ends *)
    intros σ0 σ1 now userInput script rest t tr1 during now' Hconn Hd Hrest Hrun res all.
    pose proof (processWithChatGPT_inv env now userInput socketId script σ0 Hconn) as Hinv.
    rewrite Hrun in Hinv. cbn [fst snd stream_inv] in Hinv.
    destruct Hinv as (Hs & Href & Hhist & _).
    assert (Hconn' : stays_connected ((during, StreamEnd now') :: rest))
      by by apply Forall_cons.
    pose proof (run_turn_end socketId _ (Streaming t) σ1 Hconn' (conj Hs Href)) as Hend.
    cbn [turn_end turn_step] in Hend. fold res in Hend.
    destruct (streamTextToSpeech t _ _) as [ts0 out0] in Hend. destruct Hend as [_ Hhistory].
    assert (Hstored : history_of res.1.1 socketId = drop (length all - 20) all).
    { rewrite Hhistory, Hhist, <- app_assoc. apply pruneHistory_drop. }
    split_and!; [|exact Hstored|rewrite Hstored, length_drop; lia].
    unfold res. cbn [run_turn turn_step].
    destruct (handle_all socketId during σ1) as [σd trd].
    destruct (streamTextToSpeech t (record_reply now' t σd) (sentences_of (aiResponse t)))
      as [ts' out].
    destruct (run_turn socketId rest ts' (record_reply now' t σd)) as [[σ3 ts3] tr3].
    cbn [snd]. apply elem_of_app; right. apply elem_of_cons; right. apply elem_of_cons; by left.
  - (* any turn *)
    intros σ now userInput script Hconn begun res.
    pose proof (processWithChatGPT_history env socketId now userInput script σ Hconn) as Hrun.
    cbn zeta in Hrun. fold begun res in Hrun.
    destruct (turn_end socketId script _ _) as [|now' reply]; [exact Hrun|].
    destruct Hrun as [Hdone Hhistory]. intros all.
    assert (Hstored : history_of res.1.1 socketId = drop (length all - 20) all)
      by (rewrite Hhistory; apply pruneHistory_drop).
    split_and!; [exact Hdone|exact Hstored|rewrite Hstored, length_drop; lia].
  - (* a session *)
    intros σ before runs now userInput script Hbefore Hruns Hconn start mid final.
    assert (Hstart : history_of start socketId = []).
    { destruct (handle_all_history socketId before (on_connection socketId σ) Hbefore)
        as [H1 H2].
      unfold start. rewrite (history_of_ext _ _ socketId H1 H2).
      apply on_connection_history. }
    destruct (run_session_history env socketId runs (start, []) 0%nat Hruns)
      as (k & Hk & Hle); [done|cbn; lia|].
    fold (run_session env socketId runs start) in Hk, Hle. fold mid in Hk, Hle.
    unfold defaultMaxMessages in Hle.
    split; [by exists k|]. intros (id & reply & Hdone).
    assert (Hstored : history_of final.1 socketId = drop (length final.2 - 20) final.2).
    { unfold final, run_session. rewrite foldl_snoc.
      fold (run_session env socketId runs start). fold mid.
      pose proof (processWithChatGPT_history env socketId now userInput script mid.1 Hconn)
        as Hrun.
      cbn zeta in Hrun. unfold session_step. cbn [fst snd].
      destruct (turn_end socketId script _ _) as [|now' reply']; cbn [turn_messages].
      { destruct Hrun as [_ Hnone]. by destruct (Hnone id reply). }
      destruct Hrun as [_ Hrun]. rewrite Hrun, Hk, pruneHistory_drop.
      set (new := [mkMessage user userInput now; mkMessage assistant reply' now']).
      unfold defaultMaxMessages.
      rewrite <- drop_app_le by lia. rewrite drop_drop. f_equal.
      rewrite length_drop, length_app. lia. }
    split_and!.
    + exact Hstored.
    + rewrite Hstored, length_drop. lia.
    + intros H25. rewrite Hstored, length_drop, H25. done.
Qed.


(** Claim C8.  The generation call is in flight, either still being opened
    or streaming, when it fails.  The failure is caught: [ai-typing false]
    and the error ['Failed to get AI response'] are sent, the server state
    is left as it is and the activation is over.  The history is the one the
    turn found plus the user message: no reply, nothing twice. *)
Theorem generation_failure_keeps_history :
  ∀ (env : option jsstring) (now : Z) (userInput : jsstring) (socketId : string)
    (script : list (list ClientEvent * Resume)) (σ0 σ1 : Server) (ts : TurnState) (t : Turn)
    (tr1 : list Obs) (during : list ClientEvent) (r : Resume),
    stays_connected script → EvDisconnect ∉ during →
    processWithChatGPT env now userInput socketId script σ0 = (σ1, ts, tr1) →
    (ts = AwaitCreate t ∧ r = CreateFailed) ∨ (ts = Streaming t ∧ r = StreamFailed) →
    let σ2 := (handle_all socketId during σ1).1 in
    turn_step r ts σ2 =
      Some (σ2, Returned, [AiTyping false; ErrorEvent (js "Failed to get AI response")]) ∧
    history_of σ2 socketId = history_of σ0 socketId ++ [mkMessage user userInput now] ∧
    (∀ r', turn_step r' Returned σ2 = None).
Proof.
  intros env now userInput socketId script σ0 σ1 ts t tr1 during r Hconn Hd Hrun Hfail σ2.
  pose proof (processWithChatGPT_inv env now userInput socketId script σ0 Hconn) as Hinv.
  rewrite Hrun in Hinv. cbn [fst snd] in Hinv.
  apply (stream_inv_handle_all _ _ _ during _ Hd) in Hinv. fold σ2 in Hinv.
  split_and!.
  - by destruct Hfail as [[-> ->]|[-> ->]].
  - by destruct Hfail as [[-> _]|[-> _]]; destruct Hinv as (_ & _ & Hh & _).
  - by intros [].
Qed.

(** ** CallCoalescer *)

Module CoalescerFacts.
Import Coalescer.

Ltac inv_intro :=
  constructor; cbn; try done; try (by intros ? ?%elem_of_nil).

Ltac co_simpl :=
  unfold wait_elapsed, triggerChatGPTWithWait, setTimeout, start_call,
    set_object, set_pending, set_armed, set_inflight in *;
  cbn in *.

Lemma on_time_spec (t : Z) (s : State) :
  on_time t s = true ↔ clock s <= t ∧ ∀ due, due ∈ armed s → t <= due.
Proof.
  unfold on_time. rewrite andb_true_iff, Z.leb_le, forallb_forall.
  split; intros [H1 H2]; (split; [done|]); intros due Hdue.
  - apply Z.leb_le, H2. by apply list_elem_of_In.
  - apply Z.leb_le, H2. by apply list_elem_of_In.
Qed.

Lemma init_inv : Inv init.
Proof.
  constructor; cbn; try done.
  intros due []%elem_of_nil.
Qed.

(** A trigger call keeps the invariant. *)
Lemma trigger_inv (t : Z) (userInput : jsstring) (queueOnly : bool) (s : State) :
  Inv s → clock s = t →
  Inv (triggerChatGPTWithWait t t userInput queueOnly s).
Proof.
  intros [Hw Hi Hp Hd] Hclock. unfold triggerChatGPTWithWait.
  destruct (truthy (trim userInput)) eqn:Hu; cbn [negb]; [|by constructor].
  destruct (registered s) eqn:Hreg; cbn [negb]; [|by constructor].
  assert (Hnew : truthy (trim userInput) = true ∧ trim (trim userInput) = trim userInput)
    by (split; [done | apply trim_idempotent]).
  destruct s as [reg [w l p] a f c n since clk]. cbn in *. subst clk.
  destruct queueOnly, w; co_simpl.
  - constructor; cbn; try done. intros q [= <-]. by destruct Hnew.
  - destruct (Hi eq_refl) as [-> ->]. constructor; cbn; try done.
    + intros _. right. by exists (t + waitTime).
    + intros q [= <-]. by destruct Hnew.
    + intros due ->%list_elem_of_singleton. unfold waitTime. lia.
  - constructor; cbn; try done. intros q [= <-]. by destruct Hnew.
  - destruct (Hi eq_refl) as [-> ->]. constructor; cbn; try done.
    + intros _. left. by eexists.
    + intros q Hq. destruct (Hp q Hq) as (_ & _ & ?). done.
Qed.

(** Every task of the event loop keeps the invariant. *)
Lemma step_inv (t : Z) (e : Event) (s s' : State) :
  Inv s → step t e s = Some s' → Inv s'.
Proof.
  intros Hinv. unfold step.
  destruct (on_time t s) eqn:Htime; cbn [negb]; [|done].
  apply on_time_spec in Htime as [Hclk Hdue].
  set (s0 := mkState _ _ _ _ _ _ _ t).
  assert (Hinv0 : Inv s0).
  { destruct Hinv as [Hw Hi Hp Hd]. constructor; try done.
    intros due Hin. cbn in *. specialize (Hd due Hin). specialize (Hdue due Hin). lia. }
  assert (Hclock : clock s0 = t) by done.
  clearbody s0. clear Hinv Hclk Hdue s.
  destruct e as [userInput queueOnly| | |].
  - intros [= <-]. by apply trigger_inv.
  - destruct (inflight s0) as [|c rest] eqn:Hf; [done|]. intros [= <-].
    destruct Hinv0 as [Hw Hi Hp Hd].
    destruct s0 as [reg [w l p] a f cs n since clk]. cbn in *. subst f.
    destruct w; [|by destruct (Hi eq_refl)].
    destruct (Hw eq_refl) as [(c' & [= -> ->] & ->)|(due & _ & ?)]; [|done].
    co_simpl. constructor; cbn; try done.
    + intros _. right. by eexists.
    + intros due ->%list_elem_of_singleton. unfold waitTime. lia.
  - case_bool_decide as Hin; [|done]. intros [= <-].
    destruct Hinv0 as [Hw Hi Hp Hd].
    destruct s0 as [reg [w l p] a f cs n since clk]. cbn in *.
    destruct w; [|destruct (Hi eq_refl) as [-> _]; by apply elem_of_nil in Hin].
    destruct (Hw eq_refl) as [(c' & _ & ->)|(due & -> & ->)];
      [by apply elem_of_nil in Hin|].
    apply list_elem_of_singleton in Hin as ->. cbn. rewrite Z.eqb_refl.
    destruct p as [p|]; [|co_simpl; by inv_intro].
    destruct (Hp p eq_refl) as (Htruthy & Htrim & _).
    co_simpl. rewrite Htruthy, Htrim, Htruthy. cbn.
    destruct reg; cbn; inv_intro.
    intros _. left. by eexists.
  - intros [= <-]. by destruct Hinv0.
Qed.

Lemma run_inv (tr : list (Z * Event)) :
  ∀ s s', Inv s → run tr s = Some s' → Inv s'.
Proof.
  induction tr as [|[t e] tr IH]; intros s s' Hinv; cbn [run].
  - by intros [= <-].
  - destruct (step t e s) as [s1|] eqn:Hstep; [|done].
    apply IH. by eapply step_inv.
Qed.

Lemma step_clock (t : Z) (e : Event) (s s' : State) :
  step t e s = Some s' → clock s <= t ∧ clock s' = t.
Proof.
  unfold step. destruct (on_time t s) eqn:Htime; cbn [negb]; [|done].
  apply on_time_spec in Htime as [Hclk _].
  destruct s as [reg [w l p] a f cs n since clk].
  destruct e as [userInput queueOnly| | |]; cbn.
  - intros [= <-]. split; [done|]. co_simpl.
    by repeat (case_match; cbn).
  - destruct f; [done|]. by intros [= <-].
  - case_bool_decide; [|done]. intros [= <-]. split; [done|]. co_simpl.
    by repeat (case_match; cbn).
  - by intros [= <-].
Qed.

(** The trigger calls of a run come no earlier than its start. *)
Lemma run_triggers_later (tr : list (Z * Event)) :
  ∀ s s', run tr s = Some s' → Forall (fun x => clock s <= x.1.1) (triggers tr).
Proof.
  induction tr as [|[t e] tr IH]; intros s s'; cbn [run triggers]; [by constructor|].
  destruct (step t e s) as [s1|] eqn:Hstep; [|done]. intros Hrun.
  apply step_clock in Hstep as [Hle Heq]. specialize (IH s1 s' Hrun). rewrite Heq in IH.
  assert (Hrest : Forall (λ x, clock s <= x.1.1) (triggers tr)).
  { eapply Forall_impl; [done|]. cbn. intros; lia. }
  destruct e; try done. by constructor.
Qed.

(** An idle coalescer does nothing until it is triggered. *)
Lemma idle_run (tr : list (Z * Event)) (s s' : State) :
  armed s = [] → inflight s = [] → triggers tr = [] → stays_registered tr →
  run tr s = Some s' → s' = s.
Proof.
  intros Ha Hf Htr Hreg. destruct tr as [|[t e] tr]; cbn [run]; [by intros [= <-]|].
  apply Forall_cons in Hreg as [He _]. unfold step.
  destruct (on_time t s); cbn [negb]; [|done].
  destruct e; try done; cbn.
  - by rewrite Hf.
  - rewrite Ha. by rewrite bool_decide_eq_false_2 by by intros ?%elem_of_nil.
Qed.

(** Coalescing.  While the coalescer waits, the trigger calls in normal
    mode only overwrite the pending input; when the timer fires, the last
    input that is not blank, if there is one, is passed downstream, once. *)
Lemma coalesced_run (tr : list (Z * Event)) :
  ∀ (s s' : State) (T : Z),
    Inv s → busy T s → stays_registered tr → normal_before T (triggers tr) →
    run tr s = Some s' → quiescent s' →
    match coalesce (pendingInput (object s)) (triggers tr) with
    | None => calls s' = calls s
    | Some p => ∃ c, calls s' = calls s ++ [c] ∧ input c = p ∧ T <= startedAt c
    end.
Proof.
  induction tr as [|[t e] tr IH]; intros s s' T Hinv Hbusy Hreg Hnormal; cbn [run].
  { intros [= <-] [Ha Hf]. destruct Hbusy as (_ & _ & [(c & Hc & _)|(due & Hdue & _)]);
      congruence. }
  destruct (step t e s) as [s1|] eqn:Hstep; [|done]. intros Hrun Hquiet.
  pose proof (step_inv _ _ _ _ Hinv Hstep) as Hinv1.
  pose proof (run_triggers_later _ _ _ Hrun) as Hlater.
  destruct (step_clock _ _ _ _ Hstep) as [_ Hclk1]. rewrite Hclk1 in Hlater. clear Hclk1.
  apply Forall_cons in Hreg as [He Hreg]. cbn in He.
  destruct Hbusy as (Hregd & Hwait & Hbusy).
  unfold step in Hstep. destruct (on_time t s) eqn:Htime; cbn [negb] in Hstep; [|done].
  apply on_time_spec in Htime as [Hclk Hdues].
  destruct s as [reg [w l p] a f cs n since clk]. cbn in Hregd, Hwait, Hbusy, Hclk, Hdues.
  subst reg w.
  destruct e as [userInput queueOnly| | |]; try done; cbn [triggers coalesce] in *.
  - (* a trigger call: it only writes the pending input *)
    apply Forall_cons in Hnormal as [[Hq Ht] Hnormal]. cbn in Hq, Ht. subst queueOnly.
    injection Hstep as <-. co_simpl.
    destruct (truthy (trim userInput)) eqn:Hu; cbn in *.
    + apply (IH _ s' T Hinv1); try done. split_and!; try done.
      destruct Hbusy as [(c & ? & ? & ?)|(due & ? & ? & ?)]; [left|right]; eexists;
        split_and!; try done; cbn; lia.
    + apply (IH _ s' T Hinv1); try done. split_and!; try done.
      destruct Hbusy as [(c & ? & ? & ?)|(due & ? & ? & ?)]; [left|right]; eexists;
        split_and!; try done; cbn; lia.
  - (* the call in flight ends: the wait window opens *)
    cbn in Hstep. destruct f as [|c rest]; [done|]. injection Hstep as <-. co_simpl.
    destruct Hbusy as [(c' & [= -> ->] & -> & HT)|(due & ? & ? & ?)]; [|done].
    apply (IH _ s' T Hinv1); try done. split_and!; try done.
    right. eexists. split_and!; try done. cbn; lia.
  - (* the timer fires: the pending input goes downstream *)
    cbn in Hstep. case_bool_decide as Hin; [|done]. injection Hstep as <-.
    destruct Hbusy as [(c & _ & -> & _)|(due & -> & -> & HT)];
      [by apply elem_of_nil in Hin|].
    apply list_elem_of_singleton in Hin as ->.
    assert (Hnone : triggers tr = []).
    { destruct (triggers tr) as [|x xs]; [done|].
      apply Forall_cons in Hnormal as [[_ Hx] _].
      apply Forall_cons in Hlater as [Hx' _]. lia. }
    rewrite Hnone in *. cbn [coalesce]. cbn in Hrun, Hinv1. rewrite Z.eqb_refl in Hrun, Hinv1.
    destruct p as [p|].
    + destruct (inv_pending _ Hinv p eq_refl) as (Htruthy & Htrim & _).
      co_simpl. rewrite Htruthy in Hrun, Hinv1. rewrite Htrim, Htruthy in Hrun, Hinv1.
      cbn in Hrun, Hinv1.
      exists (mkCall since due p). split_and!; [|reflexivity|exact HT].
      refine (IH _ s' due Hinv1 _ Hreg (Forall_nil_2 _) Hrun Hquiet).
      split_and!; try done. left. eexists. split_and!; try done.
      cbn. unfold waitTime. lia.
    + co_simpl. apply idle_run in Hrun; try done. by subst s'.
Qed.

(** Claim C3, as amended.  The coalescer is idle; three calls in normal
    mode arrive at [t0], [t0 + 50] and [t0 + 100] with inputs [A], [B], [C],
    where [A] and [C] have a character that is not blank.  However long the
    downstream calls take, once everything has settled exactly two
    downstream calls were made: one with [A] trimmed, started at [t0] within
    the first trigger call, and one with [C] trimmed, started no earlier
    than [t0 + waitTime].  [B] never reaches the downstream. *)
Theorem three_triggers_coalesce :
  ∀ (A B C : jsstring) (t0 : Z) (tr : list (Z * Event)) (s : State),
    truthy (trim A) = true → truthy (trim C) = true →
    stays_registered tr →
    triggers tr = [(t0, A, false); (t0 + 50, B, false); (t0 + 100, C, false)] →
    run tr init = Some s → quiescent s →
    ∃ c, calls s = [mkCall t0 t0 (trim A); c] ∧
         input c = trim C ∧ t0 + waitTime <= startedAt c.
Proof.
  intros A B C t0 tr s HA HC Hreg Htr Hrun Hquiet.
  destruct tr as [|[t e] tr]; [done|].
  apply Forall_cons in Hreg as [He Hreg]. cbn in He.
  cbn [run] in Hrun. destruct (step t e init) as [s1|] eqn:Hstep; [|done].
  pose proof (step_inv _ _ _ _ init_inv Hstep) as Hinv1.
  unfold step in Hstep. destruct (on_time t init); cbn [negb] in Hstep; [|done].
  destruct e as [userInput queueOnly| | |]; try done; cbn in Hstep.
  injection Htr as -> -> -> Htr. injection Hstep as <-.
  co_simpl. rewrite HA in Hrun, Hinv1. cbn in Hrun, Hinv1.
  pose proof (coalesced_run tr _ s (t0 + waitTime) Hinv1) as Hco.
  rewrite Htr in Hco. cbn in Hco. rewrite HC in Hco.
  apply Hco; try done.
  - split_and!; try done. left. eexists. split_and!; try done; cbn; lia.
  - unfold normal_before, waitTime. repeat constructor; cbn; lia.
Qed.

(** Claim C3 as stated fails: when the first input is blank no downstream
    call is made for it; the second input is the one passed on at once, and
    the third after the window. *)
Lemma blank_first_trigger_makes_no_call :
  calls <$> run [(0, Trigger (js " ") false); (50, Trigger (js "b") false);
                 (100, Trigger (js "c") false); (150, CallDone); (550, TimerFires);
                 (600, CallDone); (1000, TimerFires)] init
  = Some [mkCall 50 50 (js "b"); mkCall 100 550 (js "c")].
Proof. by vm_compute. Qed.

(** Claim C4, as amended.  In every state the event loop can reach, by any
    interleaving of trigger calls of either mode, call completions, timer
    expiries and a disconnect: at most one downstream call is in flight; an
    input is pending only while a call is in flight and no timer is armed,
    or while one timer is armed that is due within [waitTime]; the end of
    the call in flight is what arms the timer, for [waitTime] later; and
    when the timer fires for a registered session the pending input is
    passed downstream at that moment and nothing is left pending. *)
Theorem single_flight_and_bounded_window :
  ∀ (tr : list (Z * Event)) (s : State),
    run tr init = Some s →
    (length (inflight s) <= 1)%nat ∧
    (∀ p, pendingInput (object s) = Some p →
       (∃ c, inflight s = [c] ∧ armed s = []) ∨
       (∃ due, armed s = [due] ∧ inflight s = [] ∧
               clock s <= due <= clock s + waitTime)) ∧
    (∀ c t, inflight s = [c] → clock s <= t →
       ∃ s', step t CallDone s = Some s' ∧
             armed s' = [t + waitTime] ∧ inflight s' = []) ∧
    (∀ p due, pendingInput (object s) = Some p → armed s = [due] → registered s = true →
       ∃ s', step due TimerFires s = Some s' ∧
             calls s' = calls s ++ [mkCall (pendingSince s) due p] ∧
             inflight s' = [mkCall (pendingSince s) due p] ∧
             pendingInput (object s') = None).
Proof.
  intros tr s Hrun. pose proof (run_inv tr _ _ init_inv Hrun) as [Hw Hi Hp Hd].
  split_and!.
  - destruct (isWaiting (object s)) eqn:Hwait.
    + destruct (Hw eq_refl) as [(c & -> & _)|(due & _ & ->)]; cbn; lia.
    + destruct (Hi eq_refl) as [_ ->]. cbn; lia.
  - intros p Hpend. destruct (Hp p Hpend) as (_ & _ & Hwait).
    destruct (Hw Hwait) as [(c & ? & ?)|(due & Ha & ?)]; [left; by eexists|].
    right. exists due. split_and!; try done; apply Hd; rewrite Ha; by left.
  - intros c t Hf Hclk.
    assert (Ha : armed s = []).
    { destruct (isWaiting (object s)) eqn:Hwait.
      - destruct (Hw eq_refl) as [(c' & _ & ?)|(due & _ & ?)]; [done|congruence].
      - by destruct (Hi eq_refl). }
    destruct s as [reg [w l q] a f cs n since clk]. cbn in *. subst.
    unfold step, on_time. cbn. rewrite (proj2 (Z.leb_le clk t) Hclk). cbn.
    by eexists.
  - intros p due Hpend Ha Hreg. destruct (Hp p Hpend) as (Htruthy & Htrim & Hwait).
    destruct (Hw Hwait) as [(c & _ & ?)|(due' & _ & Hf)]; [congruence|].
    assert (Hclk : clock s <= due) by (apply Hd; rewrite Ha; by left).
    destruct s as [reg [w l q] a f cs n since clk]. cbn in *. subst.
    unfold step, on_time. cbn.
    rewrite (proj2 (Z.leb_le clk due) Hclk), Z.leb_refl. cbn.
    rewrite bool_decide_eq_true_2 by by left.
    co_simpl. rewrite Z.eqb_refl, Htruthy, Htrim, Htruthy. cbn. by eexists.
Qed.

(** Claim C4 as stated fails: an input handed over while a downstream call
    that lasts five seconds is in flight is passed downstream 5350 ms later,
    not within [waitTime]. *)
Lemma queued_input_waits_for_call_end :
  calls <$> run [(0, Trigger (js "A") false); (50, Trigger (js "B") false);
                 (5000, CallDone); (5400, TimerFires)] init
  = Some [mkCall 0 0 (js "A"); mkCall 50 5400 (js "B")] ∧
  5400 - 50 > waitTime.
Proof. by vm_compute. Qed.

End CoalescerFacts.

(** ** Synthesis and teardown *)

(** The staleness test of [streamTextToSpeech] compares the version with
    itself, so what the loop does next does not depend on the server state. *)
Lemma streamTextToSpeech_ignores_version (socketId : string) (σ σ' : Server)
    (sentences : list jsstring) :
  streamTextToSpeech_next socketId σ sentences = streamTextToSpeech_next socketId σ' sentences.
Proof.
  induction sentences as [|sentence rest IH]; cbn [streamTextToSpeech_next]; [done|].
  destruct (negb (truthy (trim sentence))); [done|].
  by rewrite !Z.eqb_refl.
Qed.

(** Claim C2, the code at the failing input.  The reply ["One. Two."] is
    being synthesized; the client interrupts while the first unit is with
    the synthesizer.  The chunk of the first unit and the chunk of the
    second unit are both sent after the interrupt. *)
Theorem synthesis_continues_after_interrupt :
  (processWithChatGPT None 1 (js "hi") "s1"
     [([], Created 2); ([], Part (js "One. Two.")); ([], StreamEnd 3);
      ([EvInterrupt], Synth (Some ["001"%byte])); ([], Synth (Some ["002"%byte]))]
     (on_connection "s1" emptyServer)).2 =
  [Sent (MessageReceived (js "hi") false 1); Sent (AiTyping true);
   Sent (AiMessageStart 2); Sent (AiToken 2 (js "One. Two."));
   Sent (AiTyping false); Sent (AiMessageDone 2 (js "One. Two."));
   Recv EvInterrupt; Sent (AiTyping false);
   Sent (AiAudioChunk 2 ["001"%byte]); Sent (AiAudioChunk 2 ["002"%byte]);
   Sent (AiAudioDone 2); Sent (AiResponse 2 (js "One. Two."))].
Proof. by vm_compute. Qed.

(** Claim C9, the code at the failing input.  A session receives an audio
    chunk, which arms its partial-transcription timer, starts a turn, which
    registers an abort controller, and disconnects.  Afterwards the timer is
    still armed and still recorded for the socket, the controller is still
    registered and was not aborted, and the preferences and the input source
    of the socket are still stored.  Likewise a wait-window timer armed
    before the disconnect still fires after it. *)
Theorem disconnect_leaves_timers_and_handles :
  let σ1 := on_audio_stream ["001"%byte] "s1" (on_connection "s1" emptyServer) in
  let σ2 := (processWithChatGPT_begin None 1 (js "hi") "s1" σ1).1.1.1 in
  let σ3 := on_disconnect "s1" σ2 in
  sttDebounceTimers σ3 !! "s1"%string = Some 1%nat ∧
  timers σ3 !! 1%nat = Some (PartialTranscription "s1" 350) ∧
  controllersBySocket σ3 !! "s1"%string = Some (mkControllers (Some 2%nat) None None) ∧
  aborted σ3 = ∅ ∧
  conversationPreferences σ3 !! "s1"%string = Some (mkPrefs (js "auto") None) ∧
  lastInputSource σ3 !! "s1"%string = Some text ∧
  Coalescer.armed <$>
    Coalescer.run [(0, Coalescer.Trigger (js "hi") true); (10, Coalescer.Disconnect)]
      Coalescer.init = Some [400] ∧
  is_Some (Coalescer.run [(0, Coalescer.Trigger (js "hi") true); (10, Coalescer.Disconnect);
                          (400, Coalescer.TimerFires)] Coalescer.init).
Proof. vm_compute. split_and!; try done. by eexists. Qed.

(** A turn in flight is not stopped by the teardown either: once the version
    of the socket is deleted it reads as 0 again, so a turn that began at
    version 0 goes on sending tokens after an interrupt and a disconnect. *)
Remark turn_survives_disconnect :
  (processWithChatGPT None 1 (js "x") "s1"
     [([], Created 2); ([], Part (js "Once"));
      ([EvInterrupt; EvDisconnect], Part (js " upon"))]
     (on_connection "s1" emptyServer)).2 =
  [Sent (MessageReceived (js "x") false 1); Sent (AiTyping true);
   Sent (AiMessageStart 2); Sent (AiToken 2 (js "Once"));
   Recv EvInterrupt; Sent (AiTyping false); Recv EvDisconnect;
   Sent (AiToken 2 (js " upon"))].
Proof. by vm_compute. Qed.

(** ** The theorems at concrete inputs *)


(** The stream of a turn fails after its first token. *)
Lemma generation_failure_keeps_history_witness :
  ∃ σ1 t tr1,
    processWithChatGPT None 1 (js "hi") "s1" [([], Created 2); ([], Part (js "He"))]
      (on_connection "s1" emptyServer) = (σ1, Streaming t, tr1) ∧
    history_of (handle_all "s1" [] σ1).1 "s1" =
      history_of (on_connection "s1" emptyServer) "s1" ++ [mkMessage user (js "hi") 1].
Proof.
  eexists _, _, _. split; [vm_compute; reflexivity|].
  refine (proj1 (proj2
    (generation_failure_keeps_history None 1 (js "hi") "s1"
       [([], Created 2); ([], Part (js "He"))] (on_connection "s1" emptyServer)
       _ _ _ _ [] StreamFailed _ _ _ _))).
  - repeat constructor; apply not_elem_of_nil.
  - apply not_elem_of_nil.
  - vm_compute; reflexivity.
  - right. split; reflexivity.
Defined.

(** A session of thirteen turns: the first fails while the request is
    opened, the twelve that follow complete.  25 messages have been pushed;
    the history holds the last 20. *)
Lemma history_bounded_after_completed_turn_witness :
  length (run_session None "s1"
            (failed_run 0 (js "lost") ::
             ((fun i => completed_run (10 * i) (js "question") (js "Answer.")) <$> seqZ 1 12))
            (on_connection "s1" emptyServer)).2 = 25%nat ∧
  history_of
    (run_session None "s1"
       (failed_run 0 (js "lost") ::
        ((fun i => completed_run (10 * i) (js "question") (js "Answer.")) <$> seqZ 1 12))
       (on_connection "s1" emptyServer)).1 "s1"
  = drop 5
      (run_session None "s1"
         (failed_run 0 (js "lost") ::
          ((fun i => completed_run (10 * i) (js "question") (js "Answer.")) <$> seqZ 1 12))
         (on_connection "s1" emptyServer)).2 ∧
  length
    (history_of
       (run_session None "s1"
          (failed_run 0 (js "lost") ::
           ((fun i => completed_run (10 * i) (js "question") (js "Answer.")) <$> seqZ 1 12))
          (on_connection "s1" emptyServer)).1 "s1") = 20%nat.
Proof.
  assert (H25 : length (run_session None "s1"
            (failed_run 0 (js "lost") ::
             ((fun i => completed_run (10 * i) (js "question") (js "Answer.")) <$> seqZ 1 12))
            (on_connection "s1" emptyServer)).2 = 25%nat) by (vm_compute; reflexivity).
  split; [exact H25|].
  refine (proj2 (proj2 (proj2 (proj2 (proj2
    (history_bounded_after_completed_turn None "s1")) emptyServer []
       (failed_run 0 (js "lost") ::
        ((fun i => completed_run (10 * i) (js "question") (js "Answer.")) <$> seqZ 1 11))
       120 (js "question") (completed_run 120 (js "question") (js "Answer.")).2 _ _ _) _))
    H25).
  - apply not_elem_of_nil.
  - vm_compute. repeat first [apply Forall_nil_2 | apply Forall_cons_2 | apply not_elem_of_nil].
  - vm_compute. repeat first [apply Forall_nil_2 | apply Forall_cons_2 | apply not_elem_of_nil].
  - exists 121, (js "Answer."). vm_compute. repeat constructor.
Defined.

(** Three calls within the window, each downstream call lasting three
    seconds. *)
Lemma three_triggers_coalesce_witness :
  ∃ s,
    Coalescer.run
      [(0, Coalescer.Trigger (js "A") false); (50, Coalescer.Trigger (js "B") false);
       (100, Coalescer.Trigger (js "C") false); (3000, Coalescer.CallDone);
       (3400, Coalescer.TimerFires); (6000, Coalescer.CallDone);
       (6400, Coalescer.TimerFires)] Coalescer.init = Some s ∧
    ∃ c, Coalescer.calls s = [Coalescer.mkCall 0 0 (trim (js "A")); c] ∧
         Coalescer.input c = trim (js "C") ∧
         0 + Coalescer.waitTime <= Coalescer.startedAt c.
Proof.
  eexists. split; [vm_compute; reflexivity|].
  eapply (CoalescerFacts.three_triggers_coalesce (js "A") (js "B") (js "C") 0
            [(0, Coalescer.Trigger (js "A") false); (50, Coalescer.Trigger (js "B") false);
             (100, Coalescer.Trigger (js "C") false); (3000, Coalescer.CallDone);
             (3400, Coalescer.TimerFires); (6000, Coalescer.CallDone);
             (6400, Coalescer.TimerFires)]).
  - vm_compute; reflexivity.
  - vm_compute; reflexivity.
  - repeat constructor.
  - reflexivity.
  - vm_compute; reflexivity.
  - split; reflexivity.
Defined.

(** A call in normal mode followed by one in queue-only mode. *)
Lemma single_flight_and_bounded_window_witness :
  ∃ s,
    Coalescer.run
      [(0, Coalescer.Trigger (js "A") false); (50, Coalescer.Trigger (js "B") true)]
      Coalescer.init = Some s ∧
    (length (Coalescer.inflight s) <= 1)%nat.
Proof.
  eexists. split; [vm_compute; reflexivity|].
  refine (proj1 (CoalescerFacts.single_flight_and_bounded_window
    [(0, Coalescer.Trigger (js "A") false); (50, Coalescer.Trigger (js "B") true)] _ _)).
  vm_compute; reflexivity.
Defined.

(** * Further properties of the code *)

Ltac srv :=
  repeat (progress (
    unfold array_at, history_of, version_of, push, registered_controllers,
      processCompleteAudio_finally, partialTranscription_finally in *;
    cbn [audioBuffers processingSockets sttDebounceTimers sttInProgress
         conversationHistory arrays conversationPreferences lastInputSource
         controllersBySocket aborted chatGPTCallStates conversationVersions
         timers nextId
         set_audioBuffers set_sttDebounceTimers set_conversationHistory set_arrays
         set_conversationPreferences set_lastInputSource set_controllersBySocket
         set_aborted set_chatGPTCallStates set_conversationVersions set_timers
         set_processingSockets set_sttInProgress
         alloc fst snd default] in *)).

(** ** The audio buffer under the ceiling, and finalization *)

Section Finalization.

Lemma byteLength_nonneg (b : Buffer) : 0 <= byteLength b.
Proof. unfold byteLength. lia. Qed.

Lemma total_bytes_nonneg (buffer : list Buffer) : 0 <= total_bytes buffer.
Proof.
  induction buffer as [|b buffer IH]; [done|].
  rewrite total_bytes_cons. pose proof (byteLength_nonneg b). lia.
Qed.

Lemma total_bytes_app (b1 b2 : list Buffer) :
  total_bytes (b1 ++ b2) = total_bytes b1 + total_bytes b2.
Proof.
  induction b1 as [|x b1 IH]; cbn [app].
  - unfold total_bytes at 2. cbn. lia.
  - rewrite !total_bytes_cons, IH. lia.
Qed.

Lemma trim_front_under (total : Z) (buffer : list Buffer) :
  total <= maxBytes → trim_front total buffer = (buffer, total).
Proof.
  intros Hle. destruct buffer as [|b buffer]; cbn [trim_front]; [done|].
  rewrite Z.gtb_ltb. by rewrite (proj2 (Z.ltb_ge maxBytes total) Hle).
Qed.

Lemma byteLength_concat (buffer : list Buffer) :
  byteLength (concat buffer) = total_bytes buffer.
Proof.
  induction buffer as [|b buffer IH]; [done|].
  rewrite total_bytes_cons, <- IH. unfold byteLength. cbn [concat].
  rewrite length_app. lia.
Qed.

Lemma audio_append_under (buffer : list Buffer) (chunk : Buffer) :
  total_bytes (buffer ++ [chunk]) <= maxBytes →
  audio_append buffer chunk = (buffer ++ [chunk], total_bytes (buffer ++ [chunk])).
Proof. intros Hle. unfold audio_append. by apply trim_front_under. Qed.

Lemma on_audio_stream_buffer (chunk : Buffer) (socketId : string) (σ : Server)
    (buffer : list Buffer) :
  audioBuffers σ !! socketId = Some buffer →
  audioBuffers (on_audio_stream chunk socketId σ) !! socketId
    = Some (audio_append buffer chunk).1 ∧
  processingSockets (on_audio_stream chunk socketId σ) = processingSockets σ.
Proof.
  intros Hb. unfold on_audio_stream, schedulePartialTranscription. rewrite Hb.
  srv. destruct (sttDebounceTimers σ !! socketId); srv; by rewrite lookup_insert_eq.
Qed.

Lemma audio_chunks_buffer (socketId : string) (chunks : list Buffer) :
  ∀ (σ : Server) (buffer : list Buffer),
    audioBuffers σ !! socketId = Some buffer →
    audioBuffers (handle_all socketId (EvAudioChunk <$> chunks) σ).1 !! socketId
      = Some (audio_appends buffer chunks) ∧
    processingSockets (handle_all socketId (EvAudioChunk <$> chunks) σ).1
      = processingSockets σ.
Proof.
  induction chunks as [|c chunks IH]; intros σ buffer Hb; [done|].
  cbn [fmap list_fmap handle_all handle].
  destruct (on_audio_stream_buffer c socketId σ buffer Hb) as [H1 H2].
  destruct (IH _ _ H1) as [H3 H4].
  destruct (handle_all socketId (EvAudioChunk <$> chunks) (on_audio_stream c socketId σ))
    as [σ2 tr]. cbn [fst] in *. split; [exact H3 | congruence].
Qed.

Lemma processCompleteAudio_begin_free (socketId : string) (σ : Server)
    (buffer : list Buffer) :
  audioBuffers σ !! socketId = Some buffer →
  socketId ∉ processingSockets σ →
  concat buffer ≠ [] →
  processCompleteAudio_begin socketId σ
    = (set_audioBuffers <[socketId := []]>
         (set_processingSockets (fun s => s ∪ {[socketId]}) σ),
       AwaitFile (concat buffer)).
Proof.
  intros Hb Hfree Hne. unfold processCompleteAudio_begin, Buffer in *. rewrite Hb.
  destruct buffer as [|chunk chunks]; [done|].
  rewrite bool_decide_eq_false_2 by done.
  destruct (length _ =? 0)%nat eqn:Hlen; [|done].
  apply Nat.eqb_eq, nil_length_inv in Hlen. by destruct Hne.
Qed.

Lemma processCompleteAudio_begin_busy (socketId : string) (σ : Server) :
  socketId ∈ processingSockets σ →
  processCompleteAudio_begin socketId σ
    = (processCompleteAudio_finally socketId σ, AudioReturned).
Proof.
  intros Hbusy. unfold processCompleteAudio_begin.
  destruct (_ !! socketId) as [[|chunk chunks]|]; [done| |done].
  by rewrite bool_decide_eq_true_2.
Qed.

Lemma audio_appends_suffix (buffer chunks : list Buffer) :
  (∃ dropped, buffer ++ chunks = dropped ++ audio_appends buffer chunks) ∧
  (total_bytes (buffer ++ chunks) <= maxBytes →
   audio_appends buffer chunks = buffer ++ chunks).
Proof.
  revert buffer.
  induction chunks as [|c chunks IH]; intros buffer.
  { split; [exists []|]; by rewrite app_nil_r. }
  cbn [audio_appends foldl]. change (foldl _ ?b chunks) with (audio_appends b chunks).
  destruct (IH (audio_append buffer c).1) as [[d' Hd'] Hunder]. split.
  - destruct (trim_front_spec (buffer ++ [c]) _ eq_refl)
      as (dropped & kept & Hrun & Hsplit & _).
    assert (Hkept : (audio_append buffer c).1 = kept)
      by (unfold audio_append; by rewrite Hrun).
    exists (dropped ++ d'). rewrite Hkept in Hd'.
    rewrite (cons_middle c buffer chunks), app_assoc, Hsplit, Hkept.
    by rewrite <- !app_assoc, Hd'.
  - intros Hle.
    assert (Hstep : total_bytes (buffer ++ [c]) <= maxBytes).
    { rewrite (cons_middle c buffer chunks), app_assoc, total_bytes_app in Hle.
      pose proof (total_bytes_nonneg chunks). lia. }
    rewrite (audio_append_under _ _ Hstep). cbn [fst].
    rewrite (audio_append_under _ _ Hstep) in Hunder. cbn [fst] in Hunder.
    rewrite Hunder; [by rewrite <- app_assoc|].
    by rewrite <- app_assoc.
Qed.

End Finalization.

(** Nothing but a prefix is ever missing from the buffer: after any run of
    appends the buffer is what was there and what was appended, in order,
    less some chunks at the front; and as long as the total stays within
    [maxBytes] nothing is missing at all. *)
Theorem audio_appends_keep_a_suffix :
  ∀ (buffer chunks : list Buffer),
    (∃ dropped, buffer ++ chunks = dropped ++ audio_appends buffer chunks) ∧
    (total_bytes (buffer ++ chunks) <= maxBytes →
     audio_appends buffer chunks = buffer ++ chunks).
Proof. exact audio_appends_suffix. Qed.

(** Chunks arrive for a socket that is not being finalized, the last one
    marked final, and the buffer stays within [maxBytes]: the audio handed to
    recognition is everything that was in the buffer and every chunk since,
    in order, in one piece; the buffer is emptied and the socket is marked as
    being processed. *)
Theorem finalize_recognizes_all_audio :
  ∀ (σ : Server) (socketId : string) (buffer chunks : list Buffer) (final : Buffer),
    audioBuffers σ !! socketId = Some buffer →
    socketId ∉ processingSockets σ →
    total_bytes (buffer ++ chunks ++ [final]) <= maxBytes →
    concat (buffer ++ chunks ++ [final]) ≠ [] →
    let σ1 := (handle_all socketId (EvAudioChunk <$> chunks) σ).1 in
    let res := on_audio_stream_final final socketId σ1 in
    res.2 = AwaitFile (concat (buffer ++ chunks ++ [final])) ∧
    audioBuffers (res.1) !! socketId = Some [] ∧
    socketId ∈ processingSockets (res.1).
Proof.
  intros σ socketId buffer chunks final Hb Hfree Hle Hne σ1 res.
  destruct (audio_chunks_buffer socketId chunks σ buffer Hb) as [H1 H2].
  fold σ1 in H1, H2.
  assert (Happ : audio_appends buffer (chunks ++ [final]) = buffer ++ chunks ++ [final])
    by by apply audio_appends_suffix.
  unfold audio_appends in Happ. rewrite foldl_snoc in Happ.
  change (foldl _ buffer chunks) with (audio_appends buffer chunks) in Happ.
  unfold res, on_audio_stream_final. rewrite H1.
  rewrite (processCompleteAudio_begin_free socketId _ (buffer ++ chunks ++ [final]));
    srv; rewrite ?lookup_insert_eq, ?Happ, ?H2; try done.
  split_and!; [done|done|]. apply elem_of_union_r. by apply elem_of_singleton.
Qed.

(** A request to finalize that finds the socket already being processed is
    dropped, its audio left in the buffer; but on its way out it clears the
    mark of the activation that is still running, so the next request is not
    held back. *)
Theorem dropped_finalize_clears_guard :
  ∀ (σ : Server) (socketId : string) (chunk : Buffer) (chunks : list Buffer),
    audioBuffers σ !! socketId = Some (chunk :: chunks) →
    socketId ∈ processingSockets σ →
    let res := processCompleteAudio_begin socketId σ in
    res.2 = AudioReturned ∧
    audioBuffers (res.1) = audioBuffers σ ∧
    (socketId ∉ processingSockets (res.1)) ∧
    (concat (chunk :: chunks) ≠ [] →
     (processCompleteAudio_begin socketId (res.1)).2
       = AwaitFile (concat (chunk :: chunks))).
Proof.
  intros σ socketId chunk chunks Hb Hbusy res. unfold res.
  rewrite (processCompleteAudio_begin_busy _ _ Hbusy). srv.
  split_and!; [done|done| |].
  { apply not_elem_of_difference. right. by apply elem_of_singleton. }
  intros Hne.
  rewrite (processCompleteAudio_begin_free socketId _ (chunk :: chunks));
    srv; [done|done| |done].
  apply not_elem_of_difference. right. by apply elem_of_singleton.
Qed.

(** ** Partial transcription *)

Section Partials.

Lemma partialTranscription_begin_free (σ : Server) (socketId : string)
    (buffer : list Buffer) :
  audioBuffers σ !! socketId = Some buffer →
  socketId ∉ sttInProgress σ →
  audioBuffers (partialTranscription_begin socketId σ).1 = audioBuffers σ ∧
  (9000 <= total_bytes buffer →
   (partialTranscription_begin socketId σ).2 = AwaitFile (concat buffer) ∧
   socketId ∈ sttInProgress (partialTranscription_begin socketId σ).1) ∧
  (total_bytes buffer < 9000 →
   (partialTranscription_begin socketId σ).2 = AudioReturned ∧
   socketId ∉ sttInProgress (partialTranscription_begin socketId σ).1).
Proof.
  intros Hb Hfree. unfold partialTranscription_begin, Buffer in *.
  rewrite bool_decide_eq_false_2, Hb by done.
  destruct buffer as [|chunk chunks].
  { srv. split_and!; [done|by cbn; lia|]. intros _. split; [done|].
    apply not_elem_of_difference. right. by apply elem_of_singleton. }
  pose proof (byteLength_concat (chunk :: chunks)) as Hlen. unfold Buffer in *.
  rewrite Hlen. destruct (total_bytes (chunk :: chunks) <? 9000) eqn:Hlt.
  - apply Z.ltb_lt in Hlt. srv. split_and!; [done|lia|]. intros _. split; [done|].
    apply not_elem_of_difference. right. by apply elem_of_singleton.
  - apply Z.ltb_ge in Hlt. srv. split_and!; [done| |lia]. intros _. split; [done|].
    apply elem_of_union_r. by apply elem_of_singleton.
Qed.

End Partials.

(** The callback of the debounce timer, for a session without a partial
    recognition under way: the audio buffer is left as it is; recognition
    starts exactly when the buffer holds at least 9000 bytes, on the whole
    buffer, and the session is then marked; below that the callback returns
    with the session unmarked. *)
Theorem partial_transcription_needs_9000_bytes :
  ∀ (σ : Server) (socketId : string) (buffer : list Buffer),
    audioBuffers σ !! socketId = Some buffer →
    socketId ∉ sttInProgress σ →
    let res := partialTranscription_begin socketId σ in
    audioBuffers (res.1) = audioBuffers σ ∧
    (9000 <= total_bytes buffer →
     res.2 = AwaitFile (concat buffer) ∧ socketId ∈ sttInProgress (res.1)) ∧
    (total_bytes buffer < 9000 →
     res.2 = AudioReturned ∧ socketId ∉ sttInProgress (res.1)).
Proof.
  intros σ socketId buffer Hb Hfree res. by apply partialTranscription_begin_free.
Qed.

(** The debounce timer fires while a partial recognition is under way: its
    callback returns at once and changes nothing but the mark of the
    recognition that is still running, which it clears; the next timer to
    fire is not held back. *)
Theorem overlapping_partial_clears_mark :
  ∀ (σ : Server) (socketId : string),
    socketId ∈ sttInProgress σ →
    let res := partialTranscription_begin socketId σ in
    res.2 = AudioReturned ∧
    (socketId ∉ sttInProgress (res.1)) ∧
    audioBuffers (res.1) = audioBuffers σ ∧
    controllersBySocket (res.1) = controllersBySocket σ ∧
    ∀ buffer, audioBuffers σ !! socketId = Some buffer → 9000 <= total_bytes buffer →
              (partialTranscription_begin socketId (res.1)).2 = AwaitFile (concat buffer).
Proof.
  intros σ socketId Hbusy res.
  assert (Hres : res = (partialTranscription_finally socketId σ, AudioReturned)).
  { unfold res, partialTranscription_begin. by rewrite bool_decide_eq_true_2. }
  rewrite Hres. srv.
  assert (Hfree : socketId ∉ sttInProgress σ ∖ {[socketId]}).
  { apply not_elem_of_difference. right. by apply elem_of_singleton. }
  split_and!; [done|done|done|done|].
  intros buffer Hb Hlen.
  destruct (partialTranscription_begin_free
              (set_sttInProgress (fun s => s ∖ {[socketId]}) σ) socketId buffer Hb Hfree)
    as (_ & Hgo & _).
  by destruct (Hgo Hlen).
Qed.

Lemma long_is_truthy (s : jsstring) : (8 <= length s)%nat → truthy s = true.
Proof. destruct s; cbn; [lia|done]. Qed.

Lemma record_detected_language_frame (language : option jsstring) (socketId : string)
    (σ : Server) :
  let σ' := record_detected_language language socketId σ in
  audioBuffers σ' = audioBuffers σ ∧ sttInProgress σ' = sttInProgress σ ∧
  lastInputSource σ' = lastInputSource σ ∧ processingSockets σ' = processingSockets σ.
Proof. unfold record_detected_language. by repeat case_match. Qed.

(** The recognizer answers a partial request.  The result is announced to
    the client as not final, with the text as recognized.  When the trimmed
    text has at least 8 code units the session is marked as speaking and the
    trimmed text is handed to the coalescer in queue-only mode, where it
    starts no downstream call at once and is never taken for blank; when it
    is shorter nothing is handed over, the input source is left as it was
    and the mark of the partial recognition is cleared. *)
Theorem partial_result_queues_long_text :
  ∀ (σ : Server) (socketId : string) (request : RecognitionRequest)
    (transcription : Transcription),
    let recognized := or_else (transcription_text transcription) [] in
    ∃ σ' st,
      partialTranscription_step socketId (Recognized transcription)
        (AwaitRecognition request) σ
      = Some (σ', st,
             [mkSpeechResult recognized
                (default (QArith_base.Qmake 0 1) (transcription_confidence transcription))
                false]) ∧
      ((8 <= length (trim recognized))%nat →
       st = AwaitTrigger (trim recognized) true ∧
       lastInputSource σ' !! socketId = Some voice ∧
       ∀ (now : Z) (s : Coalescer.State),
         let s' := Coalescer.triggerChatGPTWithWait now now (trim recognized) true s in
         Coalescer.calls s' = Coalescer.calls s ∧
         Coalescer.notices s' = Coalescer.notices s) ∧
      ((length (trim recognized) < 8)%nat →
       st = AudioReturned ∧
       lastInputSource σ' = lastInputSource σ ∧
       socketId ∉ sttInProgress σ').
Proof.
  intros σ socketId request transcription recognized.
  destruct (record_detected_language_frame (transcription_language transcription) socketId σ)
    as (_ & Hstt & Hsrc & _).
  unfold partialTranscription_step. fold recognized.
  destruct (8 <=? length (trim recognized))%nat eqn:Hlen.
  - apply Nat.leb_le in Hlen. rewrite (long_is_truthy _ Hlen). cbn [andb].
    eexists _, _. split; [reflexivity|]. split; [|lia]. intros _.
    srv. rewrite lookup_insert_eq. split_and!; [done|done|]. intros now s.
    unfold Coalescer.triggerChatGPTWithWait.
    rewrite trim_idempotent, (long_is_truthy _ Hlen). cbn [negb].
    destruct (Coalescer.registered s); cbn [negb]; [|done].
    unfold Coalescer.set_pending, Coalescer.setTimeout, Coalescer.set_object,
      Coalescer.set_armed.
    by destruct (isWaiting (Coalescer.object s)).
  - apply Nat.leb_gt in Hlen. rewrite andb_false_r.
    eexists _, _. split; [reflexivity|]. split; [lia|]. intros _.
    srv. rewrite Hstt, Hsrc. split_and!; [done|done|].
    apply not_elem_of_difference. right. by apply elem_of_singleton.
Qed.

(** ** The version counter and the abort controllers *)

Section Versions.

Lemma handle_version_step (socketId : string) (e : ClientEvent) (σ : Server) :
  e ≠ EvDisconnect →
  version_of (handle socketId e σ).1 socketId
  = version_of σ socketId + Z.of_nat (interrupts_in [e]).
Proof.
  intros He. destruct e as [|language| |chunk|]; cbn [handle interrupts_in].
  - rewrite on_interrupt_version. lia.
  - unfold on_set_language. srv. lia.
  - unfold on_start_recording. srv. lia.
  - unfold on_audio_stream, schedulePartialTranscription.
    srv; repeat case_match; srv; lia.
  - done.
Qed.

Lemma interrupts_in_cons (e : ClientEvent) (es : list ClientEvent) :
  interrupts_in (e :: es) = (interrupts_in [e] + interrupts_in es)%nat.
Proof. by destruct e. Qed.

End Versions.

(** As long as the session is connected its version is the number of
    interrupts it has received: every [interrupt] raises it by one and no
    other client event changes it. *)
Theorem version_counts_interrupts :
  ∀ (socketId : string) (es : list ClientEvent) (σ : Server),
    EvDisconnect ∉ es →
    version_of (handle_all socketId es σ).1 socketId
    = version_of σ socketId + Z.of_nat (interrupts_in es).
Proof.
  intros socketId es. induction es as [|e es IH]; intros σ Hes.
  { cbn. lia. }
  apply not_elem_of_cons in Hes as [He Hes]. cbn [handle_all].
  pose proof (handle_version_step socketId e σ (not_eq_sym He)) as H1.
  destruct (handle socketId e σ) as [σ1 out].
  pose proof (IH σ1 Hes) as H2.
  destruct (handle_all socketId es σ1) as [σ2 tr]. cbn [fst] in *.
  rewrite interrupts_in_cons. lia.
Qed.

Section Controllers.

Lemma on_interrupt_aborted (socketId : string) (σ : Server) :
  aborted (on_interrupt socketId σ).1 = aborted σ ∪ registered_controllers σ socketId.
Proof.
  unfold on_interrupt, abortInFlightControllers, registered_controllers. srv.
  destruct (controllersBySocket σ !! socketId) as [c|]; srv.
  - by rewrite <- !union_assoc_L.
  - by rewrite union_empty_r_L.
Qed.

Lemma on_interrupt_registered (socketId : string) (σ : Server) :
  registered_controllers (on_interrupt socketId σ).1 socketId = ∅.
Proof.
  unfold on_interrupt, abortInFlightControllers, registered_controllers. srv.
  destruct (controllersBySocket σ !! socketId) as [c|] eqn:Hc; srv.
  - rewrite lookup_insert_eq. cbn. by rewrite !union_empty_r_L.
  - by rewrite Hc.
Qed.

End Controllers.

(** An interrupt aborts the controllers registered for its socket, and
    only those; it leaves none registered, so that a second interrupt aborts
    nothing more; the controllers of the other sockets stay registered. *)
Theorem interrupt_aborts_registered_controllers :
  ∀ (σ : Server) (socketId : string),
    let σ' := (on_interrupt socketId σ).1 in
    aborted σ' = aborted σ ∪ registered_controllers σ socketId ∧
    registered_controllers σ' socketId = ∅ ∧
    aborted (on_interrupt socketId σ').1 = aborted σ' ∧
    ∀ other, other ≠ socketId →
             registered_controllers σ' other = registered_controllers σ other.
Proof.
  intros σ socketId σ'. unfold σ'. clear σ'.
  split_and!.
  - apply on_interrupt_aborted.
  - apply on_interrupt_registered.
  - by rewrite (on_interrupt_aborted socketId (on_interrupt socketId σ).1),
      on_interrupt_registered, union_empty_r_L.
  - intros other Hother.
    unfold on_interrupt, abortInFlightControllers, registered_controllers. srv.
    destruct (controllersBySocket σ !! socketId) as [c|]; srv; [|done].
    by rewrite lookup_insert_ne.
Qed.

(** ** What every reachable state of the server satisfies *)

Section Reachable.

Ltac frame :=
  srv; repeat (case_match; simplify_eq; srv); split_and!; (done || lia).

Lemma on_connection_timers (socketId : string) (σ : Server) :
  same_timers σ (on_connection socketId σ).
Proof. unfold same_timers, on_connection. frame. Qed.

Lemma on_connection_controllers (socketId : string) (σ : Server) :
  same_controllers σ (on_connection socketId σ).
Proof. unfold same_controllers, on_connection. frame. Qed.

Lemma on_interrupt_timers (socketId : string) (σ : Server) :
  same_timers σ (on_interrupt socketId σ).1.
Proof. unfold same_timers, on_interrupt, abortInFlightControllers. frame. Qed.

Lemma on_audio_stream_controllers (chunk : Buffer) (socketId : string) (σ : Server) :
  same_controllers σ (on_audio_stream chunk socketId σ).
Proof.
  unfold same_controllers, on_audio_stream, schedulePartialTranscription. frame.
Qed.

Lemma on_audio_stream_final_timers (chunk : Buffer) (socketId : string) (σ : Server) :
  same_timers σ (on_audio_stream_final chunk socketId σ).1.
Proof.
  unfold same_timers, on_audio_stream_final, processCompleteAudio_begin. frame.
Qed.

Lemma on_audio_stream_final_controllers (chunk : Buffer) (socketId : string) (σ : Server) :
  same_controllers σ (on_audio_stream_final chunk socketId σ).1.
Proof.
  unfold same_controllers, on_audio_stream_final, processCompleteAudio_begin. frame.
Qed.

Lemma processWithChatGPT_begin_timers (env : option jsstring) (now : Z)
    (userInput : jsstring) (socketId : string) (σ : Server) :
  same_timers σ (processWithChatGPT_begin env now userInput socketId σ).1.1.1.
Proof. unfold same_timers, processWithChatGPT_begin. frame. Qed.

Lemma record_reply_timers (now : Z) (t : Turn) (σ : Server) :
  same_timers σ (record_reply now t σ).
Proof. unfold same_timers, record_reply, pruneHistory_ref. frame. Qed.

Lemma record_reply_controllers (now : Z) (t : Turn) (σ : Server) :
  same_controllers σ (record_reply now t σ).
Proof. unfold same_controllers, record_reply, pruneHistory_ref. frame. Qed.

Lemma turn_step_frame (r : Resume) (ts : TurnState) (σ σ' : Server) (ts' : TurnState)
    (out : list Emit) :
  turn_step r ts σ = Some (σ', ts', out) → σ' = σ ∨ ∃ now t, σ' = record_reply now t σ.
Proof.
  unfold turn_step. intros Hstep.
  destruct ts as [t|t|t unit rest|], r as [now| |token|now| |audio];
    try done; repeat case_match; simplify_eq; eauto.
Qed.

Lemma recognition_request_timers (audio : Buffer) (socketId : string) (σ : Server) :
  same_timers σ (recognition_request audio socketId σ).1.
Proof. unfold same_timers, recognition_request. frame. Qed.

Lemma record_detected_language_timers (language : option jsstring) (socketId : string)
    (σ : Server) :
  same_timers σ (record_detected_language language socketId σ).
Proof. unfold same_timers, record_detected_language. frame. Qed.

Lemma record_detected_language_controllers (language : option jsstring) (socketId : string)
    (σ : Server) :
  same_controllers σ (record_detected_language language socketId σ).
Proof. unfold same_controllers, record_detected_language. frame. Qed.

Lemma timers_ok_same (σ σ' : Server) : same_timers σ σ' → timers_ok σ → timers_ok σ'.
Proof.
  intros (Ht & Hd & Hn) [H1 H2]. split.
  - intros timer task. rewrite Ht. intros Hl.
    destruct (H1 _ _ Hl) as [Hlt (socketId & -> & Hs)]. split; [lia|].
    exists socketId. by rewrite Hd.
  - intros socketId timer. rewrite Hd. intros Hl. specialize (H2 _ _ Hl). lia.
Qed.

Lemma controllers_ok_same (σ σ' : Server) :
  same_controllers σ σ' → controllers_ok σ → controllers_ok σ'.
Proof.
  intros (Ha & Hc & Hn) [H1 H2]. split.
  - intros n. rewrite Ha. intros Hin. specialize (H1 _ Hin). lia.
  - intros socketId c. rewrite Hc. intros Hl. destruct (H2 _ _ Hl) as [Htts Hlt].
    split; [done|]. intros n Hin. specialize (Hlt _ Hin). lia.
Qed.

Lemma schedulePartialTranscription_timers_ok (socketId : string) (σ : Server) :
  timers_ok σ → timers_ok (schedulePartialTranscription socketId σ).
Proof.
  intros [H1 H2]. unfold schedulePartialTranscription.
  assert (Hold : ∀ timer task,
            (match sttDebounceTimers σ !! socketId with
             | Some existing => delete existing (timers σ)
             | None => timers σ
             end) !! timer = Some task →
            (timer < nextId σ)%nat ∧
            ∃ s, task = PartialTranscription s 350 ∧
                 sttDebounceTimers σ !! s = Some timer ∧ s ≠ socketId).
  { intros timer task Hl.
    assert (Hl' : timers σ !! timer = Some task ∧
                  sttDebounceTimers σ !! socketId ≠ Some timer).
    { destruct (sttDebounceTimers σ !! socketId) as [existing|] eqn:He; [|done].
      apply lookup_delete_Some in Hl as [Hne Hl]. split; [done|]. congruence. }
    destruct Hl' as [Hl' Hne]. destruct (H1 _ _ Hl') as [Hlt (s & -> & Hs)].
    split; [done|]. exists s. split_and!; [done|done|]. intros ->. done. }
  split.
  - intros timer task Hl.
    assert (Hcases : (timer = nextId σ ∧ task = PartialTranscription socketId 350) ∨
                     (timer ≠ nextId σ ∧
                      (match sttDebounceTimers σ !! socketId with
                       | Some existing => delete existing (timers σ)
                       | None => timers σ
                       end) !! timer = Some task)).
    { destruct (sttDebounceTimers σ !! socketId) as [existing|]; srv;
        apply lookup_insert_Some in Hl as [[<- <-]|[Hne Hl]]; by auto. }
    assert (Hnext : nextId (let '(timer, σ0) :=
                       alloc match sttDebounceTimers σ !! socketId with
                             | Some existing => set_timers (delete existing) σ
                             | None => σ
                             end in
                     set_sttDebounceTimers <[socketId:=timer]>
                       (set_timers <[timer:=PartialTranscription socketId 350]> σ0))
                    = S (nextId σ)) by (by destruct (sttDebounceTimers σ !! socketId)).
    rewrite Hnext.
    destruct Hcases as [[-> ->]|[Hne Hl']].
    + split; [lia|]. exists socketId. split; [done|].
      destruct (sttDebounceTimers σ !! socketId); srv; by rewrite lookup_insert_eq.
    + destruct (Hold _ _ Hl') as [Hlt (s & -> & Hs & Hsne)]. split; [lia|].
      exists s. split; [done|].
      destruct (sttDebounceTimers σ !! socketId); srv; by rewrite lookup_insert_ne.
  - intros s timer Hl.
    destruct (sttDebounceTimers σ !! socketId) as [existing|] eqn:He; srv;
      apply lookup_insert_Some in Hl as [[<- <-]|[Hne Hl]];
      try lia; specialize (H2 _ _ Hl); lia.
Qed.

Lemma on_audio_stream_timers_ok (chunk : Buffer) (socketId : string) (σ : Server) :
  timers_ok σ → timers_ok (on_audio_stream chunk socketId σ).
Proof.
  intros Hok. unfold on_audio_stream.
  apply schedulePartialTranscription_timers_ok.
  destruct (audioBuffers σ !! socketId); [|done].
  eapply timers_ok_same; [|done]. by split_and!.
Qed.

Lemma partialTranscription_begin_frame (socketId : string) (σ : Server) :
  same_timers σ (partialTranscription_begin socketId σ).1 ∧
  same_controllers σ (partialTranscription_begin socketId σ).1.
Proof.
  unfold same_timers, same_controllers, partialTranscription_begin. frame.
Qed.

Lemma fire_timer_timers_ok (timer : nat) (σ σ' : Server) (st : AudioState) :
  fire_timer timer σ = Some (σ', st) → timers_ok σ → timers_ok σ'.
Proof.
  unfold fire_timer. intros Hfire [H1 H2].
  destruct (timers σ !! timer) as [[socketId delay|socketId delay]|] eqn:Ht; [|done|done].
  injection Hfire as Hfire.
  replace σ' with (σ', st).1 by done. rewrite <- Hfire.
  eapply timers_ok_same; [apply partialTranscription_begin_frame|].
  split; srv.
  - intros timer' task [Hne Hl]%lookup_delete_Some. by apply H1.
  - done.
Qed.

Lemma fire_timer_controllers (timer : nat) (σ σ' : Server) (st : AudioState) :
  fire_timer timer σ = Some (σ', st) → same_controllers σ σ'.
Proof.
  unfold fire_timer. intros Hfire.
  destruct (timers σ !! timer) as [[socketId delay|socketId delay]|] eqn:Ht; [|done|done].
  injection Hfire as Hfire.
  replace σ' with (σ', st).1 by done. rewrite <- Hfire.
  destruct (partialTranscription_begin_frame socketId (set_timers (delete timer) σ))
    as [_ Hc]. exact Hc.
Qed.

Lemma on_interrupt_controllers_ok (socketId : string) (σ : Server) :
  controllers_ok σ → controllers_ok (on_interrupt socketId σ).1.
Proof.
  intros [H1 H2].
  assert (Hn : nextId (on_interrupt socketId σ).1 = nextId σ).
  { unfold on_interrupt, abortInFlightControllers. srv. by case_match. }
  split.
  - intros n. rewrite on_interrupt_aborted, Hn.
    intros [Hin|Hin]%elem_of_union; [by apply H1|].
    unfold registered_controllers in Hin.
    destruct (controllersBySocket σ !! socketId) as [c|] eqn:Hc;
      [|by apply elem_of_empty in Hin].
    destruct (H2 _ _ Hc) as [Htts Hlt]. rewrite Htts in Hin. cbn [controller_set] in Hin.
    rewrite union_empty_r_L in Hin. by apply Hlt.
  - intros s c. rewrite Hn. unfold on_interrupt, abortInFlightControllers. srv.
    destruct (controllersBySocket σ !! socketId) eqn:Hc; srv; [|apply H2].
    intros [[<- <-]|[Hne Hl]]%lookup_insert_Some; [|by apply H2 in Hl].
    split; [done|]. cbn. intros n Hin. rewrite union_empty_r_L in Hin.
    by apply elem_of_empty in Hin.
Qed.

(** A fresh controller [fresh] is registered in one field of a socket's
    record. *)
Lemma controllers_ok_register (σ σ' : Server) (socketId : string) (fresh : nat)
    (record : InFlightControllers) :
  controllers_ok σ →
  (nextId σ <= fresh)%nat → nextId σ' = S fresh → aborted σ' = aborted σ →
  controllersBySocket σ' = <[socketId := record]> (controllersBySocket σ) →
  tts record = tts (default (mkControllers None None None) (controllersBySocket σ !! socketId)) →
  (∀ n, n ∈ controller_set (llm record) ∪ controller_set (stt record) →
        n = fresh ∨
        n ∈ registered_controllers σ socketId) →
  controllers_ok σ'.
Proof.
  intros [H1 H2] Hfresh Hn Ha Hc Htts Hrec. split.
  - intros n. rewrite Ha, Hn. intros Hin. specialize (H1 _ Hin). lia.
  - intros s c. rewrite Hc, Hn.
    intros [[<- <-]|[Hne Hl]]%lookup_insert_Some.
    + unfold registered_controllers in Hrec.
      destruct (controllersBySocket σ !! socketId) as [c|] eqn:Hex; simpl in Htts.
      * destruct (H2 _ _ Hex) as [Hold Hlt]. split; [congruence|].
        intros n Hin. destruct (Hrec _ Hin) as [->|Hreg]; [lia|].
        rewrite Hold in Hreg. cbn [controller_set] in Hreg.
        rewrite union_empty_r_L in Hreg. specialize (Hlt _ Hreg). lia.
      * split; [done|]. intros n Hin. destruct (Hrec _ Hin) as [->|Hreg]; [lia|].
        by apply elem_of_empty in Hreg.
    + destruct (H2 _ _ Hl) as [Hold Hlt]. split; [done|].
      intros n Hin. specialize (Hlt _ Hin). lia.
Qed.

Lemma processWithChatGPT_begin_controllers_ok (env : option jsstring) (now : Z)
    (userInput : jsstring) (socketId : string) (σ : Server) :
  controllers_ok σ →
  controllers_ok (processWithChatGPT_begin env now userInput socketId σ).1.1.1.
Proof.
  intros Hok. unfold processWithChatGPT_begin.
  destruct (conversationHistory σ !! socketId) as [r|]; srv.
  - eapply (controllers_ok_register σ _ socketId (nextId σ)); srv; try done.
    unfold registered_controllers.
    destruct (controllersBySocket σ !! socketId) as [c|]; cbn;
      intros n; rewrite !elem_of_union, ?elem_of_singleton; tauto.
  - eapply (controllers_ok_register σ _ socketId (S (nextId σ))); srv; try done; [lia|].
    unfold registered_controllers.
    destruct (controllersBySocket σ !! socketId) as [c|]; cbn;
      intros n; rewrite !elem_of_union, ?elem_of_singleton; tauto.
Qed.

Lemma recognition_request_controllers_ok (audio : Buffer) (socketId : string) (σ : Server) :
  controllers_ok σ → controllers_ok (recognition_request audio socketId σ).1.
Proof.
  intros Hok. unfold recognition_request. srv.
  eapply (controllers_ok_register σ _ socketId (nextId σ)); srv; try done.
  unfold registered_controllers.
  destruct (controllersBySocket σ !! socketId) as [c|]; cbn;
      intros n; rewrite !elem_of_union, ?elem_of_singleton; tauto.
Qed.

Lemma recognition_ok (audio : Buffer) (socketId : string) (σ σ' : Server)
    (request : RecognitionRequest) :
  recognition_request audio socketId σ = (σ', request) →
  timers_ok σ ∧ controllers_ok σ → timers_ok σ' ∧ controllers_ok σ'.
Proof.
  intros Hq [Ht Hc]. replace σ' with (recognition_request audio socketId σ).1
    by by rewrite Hq.
  split.
  - eapply timers_ok_same; [apply recognition_request_timers|done].
  - by apply recognition_request_controllers_ok.
Qed.

Lemma record_detected_language_ok (language : option jsstring) (socketId : string)
    (σ : Server) :
  timers_ok σ ∧ controllers_ok σ →
  timers_ok (record_detected_language language socketId σ) ∧
  controllers_ok (record_detected_language language socketId σ).
Proof.
  intros [Ht Hc]. split.
  - eapply timers_ok_same; [apply record_detected_language_timers|done].
  - eapply controllers_ok_same; [apply record_detected_language_controllers|done].
Qed.

Lemma same_ok (σ σ' : Server) :
  same_timers σ σ' → same_controllers σ σ' →
  timers_ok σ ∧ controllers_ok σ → timers_ok σ' ∧ controllers_ok σ'.
Proof.
  intros H1 H2 [Ht Hc]. split; [by eapply timers_ok_same|by eapply controllers_ok_same].
Qed.

Lemma processCompleteAudio_step_ok (socketId : string) (r : AudioResume) (st st' : AudioState)
    (σ σ' : Server) (out : list Emit) :
  processCompleteAudio_step socketId r st σ = Some (σ', st', out) →
  timers_ok σ ∧ controllers_ok σ → timers_ok σ' ∧ controllers_ok σ'.
Proof.
  unfold processCompleteAudio_step. intros Hstep Hok.
  destruct st as [audio|request|userInput queueOnly|], r as [| |transcription| |];
    try done.
  - destruct (recognition_request _ _ _) as [σ1 q] eqn:Hq. injection Hstep as <- _ _.
    eapply recognition_ok; [done|]. revert Hok.
    apply same_ok; unfold same_timers, same_controllers; by srv.
  - injection Hstep as <- _ _. revert Hok.
    apply same_ok; unfold same_timers, same_controllers; by srv.
  - injection Hstep as <- _ _. by apply record_detected_language_ok.
  - injection Hstep as <- _ _. revert Hok.
    apply same_ok; unfold same_timers, same_controllers; by srv.
  - injection Hstep as <- _ _. revert Hok.
    apply same_ok; unfold same_timers, same_controllers; by srv.
Qed.

Lemma partialTranscription_step_ok (socketId : string) (r : AudioResume)
    (st st' : AudioState) (σ σ' : Server) (out : list SpeechRecognitionResult) :
  partialTranscription_step socketId r st σ = Some (σ', st', out) →
  timers_ok σ ∧ controllers_ok σ → timers_ok σ' ∧ controllers_ok σ'.
Proof.
  unfold partialTranscription_step. intros Hstep Hok.
  destruct st as [audio|request|userInput queueOnly|], r as [| |transcription| |];
    try done.
  - destruct (recognition_request _ _ _) as [σ1 q] eqn:Hq. injection Hstep as <- _ _.
    by eapply recognition_ok.
  - injection Hstep as <- _ _. revert Hok.
    apply same_ok; unfold same_timers, same_controllers; by srv.
  - apply (record_detected_language_ok (transcription_language transcription) socketId)
      in Hok.
    destruct (_ && _); injection Hstep as <- _ _; revert Hok;
      apply same_ok; unfold same_timers, same_controllers; by srv.
  - injection Hstep as <- _ _. revert Hok.
    apply same_ok; unfold same_timers, same_controllers; by srv.
  - injection Hstep as <- _ _. revert Hok.
    apply same_ok; unfold same_timers, same_controllers; by srv.
Qed.

Lemma run_task_ok (k : Task) (σ : Server) :
  timers_ok σ ∧ controllers_ok σ →
  timers_ok (run_task k σ) ∧ controllers_ok (run_task k σ).
Proof.
  intros Hok.
  destruct k as [socketId|socketId e|socketId chunk|socketId data_text
                |env now userInput socketId|r ts|socketId r st|timer|socketId r st];
    cbn [run_task].
  - revert Hok. apply same_ok; [apply on_connection_timers|apply on_connection_controllers].
  - destruct Hok as [Ht Hc]. destruct e as [|language| |chunk|]; cbn [handle fst].
    + split; [|by apply on_interrupt_controllers_ok].
      eapply timers_ok_same; [apply on_interrupt_timers|done].
    + apply (same_ok σ); [| |done]; unfold same_timers, same_controllers, on_set_language;
        by srv.
    + apply (same_ok σ); [| |done]; unfold same_timers, same_controllers, on_start_recording;
        by srv.
    + split; [by apply on_audio_stream_timers_ok|].
      eapply controllers_ok_same; [apply on_audio_stream_controllers|done].
    + apply (same_ok σ); [| |done]; unfold same_timers, same_controllers, on_disconnect;
        by srv.
  - revert Hok. apply same_ok;
      [apply on_audio_stream_final_timers|apply on_audio_stream_final_controllers].
  - revert Hok.
    apply same_ok; unfold same_timers, same_controllers, on_text_message;
      destruct data_text; by srv.
  - destruct Hok as [Ht Hc]. split; [|by apply processWithChatGPT_begin_controllers_ok].
    eapply timers_ok_same; [apply processWithChatGPT_begin_timers|done].
  - destruct (turn_step r ts σ) as [[[σ' ts'] out]|] eqn:Hstep; [|done].
    apply turn_step_frame in Hstep as [->|(now & t & ->)]; [done|].
    revert Hok. apply same_ok; [apply record_reply_timers|apply record_reply_controllers].
  - destruct (processCompleteAudio_step socketId r st σ) as [[[σ' st'] out]|] eqn:Hstep;
      [|done].
    by eapply processCompleteAudio_step_ok.
  - destruct (fire_timer timer σ) as [[σ' st]|] eqn:Hfire; [|done].
    destruct Hok as [Ht Hc]. split; [by eapply fire_timer_timers_ok|].
    eapply controllers_ok_same; [by eapply fire_timer_controllers|done].
  - destruct (partialTranscription_step socketId r st σ) as [[[σ' st'] out]|] eqn:Hstep;
      [|done].
    by eapply partialTranscription_step_ok.
Qed.

Lemma run_tasks_ok (ks : list Task) :
  ∀ σ, timers_ok σ ∧ controllers_ok σ →
       timers_ok (run_tasks ks σ) ∧ controllers_ok (run_tasks ks σ).
Proof.
  induction ks as [|k ks IH]; intros σ Hok; [done|].
  cbn [run_tasks foldl]. apply IH. by apply run_task_ok.
Qed.

Lemma emptyServer_ok : timers_ok emptyServer ∧ controllers_ok emptyServer.
Proof.
  split; split.
  - intros timer task Hl. cbn in Hl. by rewrite lookup_empty in Hl.
  - intros socketId timer Hl. cbn in Hl. by rewrite lookup_empty in Hl.
  - intros n Hin. cbn in Hin. by apply elem_of_empty in Hin.
  - intros socketId c Hl. cbn in Hl. by rewrite lookup_empty in Hl.
Qed.

End Reachable.

(** At any time the server holds at most one armed partial-transcription
    timer per socket, set for 350 ms, and it is the one recorded for the
    socket: a chunk that arrives before the timer fires replaces it. *)
Theorem one_debounce_timer_per_socket :
  ∀ (ks : list Task) (socketId : string) (timer1 timer2 : nat) (delay1 delay2 : Z),
    let σ := run_tasks ks emptyServer in
    timers σ !! timer1 = Some (PartialTranscription socketId delay1) →
    timers σ !! timer2 = Some (PartialTranscription socketId delay2) →
    timer1 = timer2 ∧ delay1 = 350 ∧ sttDebounceTimers σ !! socketId = Some timer1.
Proof.
  intros ks socketId timer1 timer2 delay1 delay2 σ Hl1 Hl2.
  destruct (run_tasks_ok ks emptyServer emptyServer_ok) as [[H1 _] _]. fold σ in H1.
  destruct (H1 _ _ Hl1) as [_ (s1 & [= <- ->] & Hs1)].
  destruct (H1 _ _ Hl2) as [_ (s2 & [= <- ->] & Hs2)].
  split_and!; [congruence|done|done].
Qed.

(** No abort controller is ever registered for speech synthesis: whatever
    has run, the record of every socket has no [tts] controller, so an
    interrupt has no synthesis request to abort. *)
Theorem no_controller_for_synthesis :
  ∀ (ks : list Task) (socketId : string) (c : InFlightControllers),
    controllersBySocket (run_tasks ks emptyServer) !! socketId = Some c →
    tts c = None.
Proof.
  intros ks socketId c Hl.
  destruct (run_tasks_ok ks emptyServer emptyServer_ok) as [_ [_ H2]].
  by destruct (H2 _ _ Hl).
Qed.

Section Requests.

Lemma recognition_request_spec (audio : Buffer) (socketId : string) (σ σ' : Server)
    (request : RecognitionRequest) :
  recognition_request audio socketId σ = (σ', request) →
  request =
    mkRequest audio
      (languageHint (default (mkPrefs (js "auto") None)
                       (conversationPreferences σ !! socketId)))
      (nextId σ) ∧
  nextId σ' = S (nextId σ) ∧ aborted σ' = aborted σ ∧
  controllersBySocket σ' !! socketId
  = Some (mkControllers
            (llm (default (mkControllers None None None)
                    (controllersBySocket σ !! socketId)))
            (Some (nextId σ))
            (tts (default (mkControllers None None None)
                    (controllersBySocket σ !! socketId)))).
Proof.
  unfold recognition_request. srv. intros [= <- <-]. srv.
  by rewrite lookup_insert_eq.
Qed.

End Requests.

(** A partial recognition is under way when the final chunk arrives and
    the recognition of the recording is requested as well; the client then
    interrupts.  The controller of the later request is aborted; the
    one of the earlier request, overwritten in the socket's record, is not. *)
Theorem interrupt_misses_overwritten_controller :
  ∀ (ks : list Task) (socketId : string) (audio1 audio2 final : Buffer)
    (σ1 σ2 σ3 : Server) (request1 request2 : RecognitionRequest),
    partialTranscription_step socketId FileReady (AwaitFile audio1)
      (run_tasks ks emptyServer) = Some (σ1, AwaitRecognition request1, []) →
    on_audio_stream_final final socketId σ1 = (σ2, AwaitFile audio2) →
    processCompleteAudio_step socketId FileReady (AwaitFile audio2) σ2
      = Some (σ3, AwaitRecognition request2, []) →
    let σ4 := (on_interrupt socketId σ3).1 in
    request_controller request2 ∈ aborted σ4 ∧
    request_controller request1 ∉ aborted σ4.
Proof.
  intros ks socketId audio1 audio2 final σ1 σ2 σ3 request1 request2
    Hstep1 Hfinal Hstep2 σ4.
  destruct (run_tasks_ok ks emptyServer emptyServer_ok) as [_ [Hab Hreg]].
  set (σ0 := run_tasks ks emptyServer) in *.
  unfold partialTranscription_step in Hstep1.
  destruct (recognition_request audio1 socketId σ0) as [σ1' q1] eqn:Hq1.
  injection Hstep1 as -> ->.
  apply recognition_request_spec in Hq1 as (-> & Hn1 & Ha1 & Hc1).
  pose proof (on_audio_stream_final_controllers final socketId σ1) as (Ha & Hc & Hn).
  pose proof (on_audio_stream_final_timers final socketId σ1) as (_ & _ & Hn').
  rewrite Hfinal in Ha, Hc, Hn, Hn'. cbn [fst] in Ha, Hc, Hn, Hn'.
  unfold processCompleteAudio_step in Hstep2.
  destruct (recognition_request audio2 socketId _) as [σ3' q2] eqn:Hq2.
  injection Hstep2 as -> ->.
  apply recognition_request_spec in Hq2 as (-> & Hn2 & Ha2 & Hc2).
  revert Hn2 Ha2 Hc2. srv. intros Hn2 Ha2 Hc2. rewrite Hc, Hc1 in Hc2. srv.
  unfold σ4. rewrite on_interrupt_aborted. unfold registered_controllers.
  rewrite Hc2, Ha2, Ha, Ha1. cbn [llm stt tts controller_set request_controller].
  assert (Hex : tts (default (mkControllers None None None)
                       (controllersBySocket σ0 !! socketId)) = None ∧
                ∀ n, n ∈ controller_set
                           (llm (default (mkControllers None None None)
                                   (controllersBySocket σ0 !! socketId))) →
                     (n < nextId σ0)%nat).
  { destruct (controllersBySocket σ0 !! socketId) as [c|] eqn:Hc0; simpl.
    - destruct (Hreg _ _ Hc0) as [Htts Hlt]. split; [done|].
      intros n Hin. apply Hlt. by apply elem_of_union_l.
    - split; [done|]. intros n Hin. by apply elem_of_empty in Hin. }
  destruct Hex as [Htts Hllm]. rewrite Htts. cbn [controller_set].
  rewrite !elem_of_union, !elem_of_singleton. split.
  - right. left. by right.
  - intros [Hin|[[Hin|Hin]|Hin]].
    + specialize (Hab _ Hin). lia.
    + specialize (Hllm _ Hin). lia.
    + lia.
    + by apply elem_of_empty in Hin.
Qed.

(** ** Sessions do not touch one another *)

Section Isolation.

Context (a b : string) (Hab : a ≠ b).

Lemma bool_decide_union_other (s : gset string) :
  bool_decide (b ∈ s ∪ {[a]}) = bool_decide (b ∈ s).
Proof.
  apply bool_decide_ext. rewrite elem_of_union, elem_of_singleton.
  split; [intros [?|?]; [done|congruence]|by left].
Qed.

Lemma bool_decide_difference_other (s : gset string) :
  bool_decide (b ∈ s ∖ {[a]}) = bool_decide (b ∈ s).
Proof.
  apply bool_decide_ext. rewrite elem_of_difference, elem_of_singleton.
  split; [by intros [? _]|]. intros ?. split; [done|congruence].
Qed.

Ltac other :=
  unfold session_view; srv; repeat (case_match; simplify_eq; srv);
  repeat (progress (rewrite ?bool_decide_union_other, ?bool_decide_difference_other,
                      ?lookup_insert_ne, ?lookup_delete_ne by done));
  try reflexivity.

Lemma on_connection_other (σ : Server) :
  session_view (on_connection a σ) b = session_view σ b.
Proof. unfold on_connection. other. Qed.

Lemma handle_other (e : ClientEvent) (σ : Server) :
  session_view (handle a e σ).1 b = session_view σ b.
Proof.
  destruct e as [|language| |chunk|]; cbn [handle fst].
  - unfold on_interrupt, abortInFlightControllers. other.
  - unfold on_set_language. other.
  - unfold on_start_recording. other.
  - unfold on_audio_stream, schedulePartialTranscription. other.
  - unfold on_disconnect. other.
Qed.

Lemma on_audio_stream_final_other (chunk : Buffer) (σ : Server) :
  session_view (on_audio_stream_final chunk a σ).1 b = session_view σ b.
Proof. unfold on_audio_stream_final, processCompleteAudio_begin. other. Qed.

Lemma processWithChatGPT_begin_other (env : option jsstring) (now : Z)
    (userInput : jsstring) (σ : Server) :
  session_view (processWithChatGPT_begin env now userInput a σ).1.1.1 b = session_view σ b.
Proof. unfold processWithChatGPT_begin. other. Qed.

Lemma record_reply_other (now : Z) (t : Turn) (σ : Server) :
  turn_socketId t = a →
  session_view (record_reply now t σ) b = session_view σ b.
Proof. intros Ht. unfold record_reply, pruneHistory_ref. rewrite Ht. other. Qed.

Lemma recognition_request_other (audio : Buffer) (σ : Server) :
  session_view (recognition_request audio a σ).1 b = session_view σ b.
Proof. unfold recognition_request. other. Qed.

Lemma record_detected_language_other (language : option jsstring) (σ : Server) :
  session_view (record_detected_language language a σ) b = session_view σ b.
Proof. unfold record_detected_language. other. Qed.

Lemma partialTranscription_begin_other (σ : Server) :
  session_view (partialTranscription_begin a σ).1 b = session_view σ b.
Proof. unfold partialTranscription_begin. other. Qed.

End Isolation.

(** A task of one socket changes nothing of what the maps hold under the id
    of another socket. *)
Lemma run_task_keeps_view :
  ∀ (k : Task) (σ : Server) (socketId other : string),
    task_socket k σ = Some socketId → socketId ≠ other →
    session_view (run_task k σ) other = session_view σ other.
Proof.
  intros k σ a b Hk Hab.
  destruct k as [socketId|socketId e|socketId chunk|socketId data_text
                |env now userInput socketId|r ts|socketId r st|timer|socketId r st];
    cbn [run_task task_socket] in *.
  - injection Hk as ->. by apply on_connection_other.
  - injection Hk as ->. by apply handle_other.
  - injection Hk as ->. by apply on_audio_stream_final_other.
  - injection Hk as ->. unfold on_text_message, session_view.
    destruct data_text; srv; by rewrite lookup_insert_ne.
  - injection Hk as ->. by apply processWithChatGPT_begin_other.
  - unfold turn_step.
    destruct ts as [t|t|t unit rest|], r as [now| |token|now| |audio]; try done.
    + destruct (negb _); [done|]. by destruct (truthy token).
    + injection Hk as Ht.
      destruct (streamTextToSpeech t _ _) as [ts' out].
      by apply (record_reply_other a).
    + by destruct (streamTextToSpeech t σ rest).
  - injection Hk as ->. unfold processCompleteAudio_step.
    destruct st as [audio|request|userInput queueOnly|], r as [| |transcription| |];
      try done.
    + destruct (recognition_request _ _ _) as [σ1 q] eqn:Hq.
      replace σ1 with (recognition_request audio a
                         (set_lastInputSource <[a:=voice]> σ)).1 by by rewrite Hq.
      rewrite recognition_request_other by done.
      unfold session_view. srv. by rewrite lookup_insert_ne.
    + unfold session_view, processCompleteAudio_finally. srv.
      by rewrite bool_decide_difference_other.
    + by apply record_detected_language_other.
    + unfold session_view, processCompleteAudio_finally. srv.
      by rewrite bool_decide_difference_other.
    + unfold session_view, processCompleteAudio_finally. srv.
      by rewrite bool_decide_difference_other.
  - unfold fire_timer.
    destruct (timers σ !! timer) as [[s delay|s delay]|] eqn:Ht; [|done|done].
    injection Hk as ->.
    destruct (partialTranscription_begin a _) as [σ1 st] eqn:Hbegin.
    replace σ1 with (partialTranscription_begin a (set_timers (delete timer) σ)).1
      by by rewrite Hbegin.
    by rewrite partialTranscription_begin_other.
  - injection Hk as ->. unfold partialTranscription_step.
    destruct st as [audio|request|userInput queueOnly|], r as [| |transcription| |];
      try done.
    + destruct (recognition_request _ _ _) as [σ1 q] eqn:Hq.
      replace σ1 with (recognition_request audio a σ).1 by by rewrite Hq.
      by apply recognition_request_other.
    + unfold session_view, partialTranscription_finally. srv.
      by rewrite bool_decide_difference_other.
    + pose proof (record_detected_language_other a b Hab
                    (transcription_language transcription) σ) as Hlang.
      destruct (_ && _).
      * rewrite <- Hlang. unfold session_view. srv. by rewrite lookup_insert_ne.
      * rewrite <- Hlang. unfold session_view, partialTranscription_finally. srv.
        by rewrite bool_decide_difference_other.
    + unfold session_view, partialTranscription_finally. srv.
      by rewrite bool_decide_difference_other.
    + unfold session_view, partialTranscription_finally. srv.
      by rewrite bool_decide_difference_other.
Qed.

(** ** Handles and their owners *)

Section Owners.

Lemma claim_lookup (s : string) (owners : gmap nat string) (len first n : nat) :
  foldr (fun n o => <[n := s]> o) owners (seq first len) !! n
  = if bool_decide (first <= n < first + len)%nat then Some s else owners !! n.
Proof.
  revert first. induction len as [|len IH]; intros first; cbn [seq foldr].
  { rewrite bool_decide_eq_false_2 by lia. done. }
  destruct (decide (n = first)) as [->|Hne].
  - rewrite lookup_insert_eq, bool_decide_eq_true_2 by lia. done.
  - rewrite lookup_insert_ne by done. rewrite IH.
    destruct (decide (first <= n < first + S len)%nat) as [Hin|Hout].
    + by rewrite !bool_decide_eq_true_2 by lia.
    + by rewrite !bool_decide_eq_false_2 by lia.
Qed.

Lemma claim_old (socketId : option string) (first next n : nat) (owners : gmap nat string) :
  (n < first)%nat → claim socketId first next owners !! n = owners !! n.
Proof.
  intros Hn. destruct socketId as [s|]; [|done]. cbn [claim].
  rewrite claim_lookup, bool_decide_eq_false_2 by lia. done.
Qed.

Lemma claim_new (s : string) (first next n : nat) (owners : gmap nat string) :
  (first <= n < next)%nat → claim (Some s) first next owners !! n = Some s.
Proof.
  intros Hn. cbn [claim]. rewrite claim_lookup, bool_decide_eq_true_2 by lia. done.
Qed.

Lemma claim_inv (socketId : option string) (first next n : nat) (owners : gmap nat string)
    (s : string) :
  claim socketId first next owners !! n = Some s →
  owners !! n = Some s ∨ (socketId = Some s ∧ (first <= n < next)%nat).
Proof.
  destruct socketId as [s'|]; [|by left]. cbn [claim]. rewrite claim_lookup.
  case_bool_decide as Hin; [|by left]. intros [= ->]. right. split; [done|lia].
Qed.

Lemma same_histories_footprint (a : string) (held : option nat) (σ σ' : Server) :
  same_histories σ σ' → history_footprint a held σ σ'.
Proof.
  intros (Hc & Ha & Hn). split.
  - intros r. rewrite Hc. by left.
  - intros n _ _ _. by rewrite Ha.
Qed.

Lemma same_timers_footprint (a : string) (σ σ' : Server) :
  same_timers σ σ' → timer_footprint a σ σ'.
Proof.
  intros (Ht & Hd & Hn). split_and!.
  - intros n. rewrite Hd. by left.
  - intros n task. rewrite Ht. by left.
  - intros n _ _ _. by rewrite Ht.
Qed.

Lemma same_controllers_footprint (a : string) (σ σ' : Server) :
  same_controllers σ σ' → controller_footprint a σ σ'.
Proof.
  intros (Ha & Hc & Hn). split_and!.
  - intros n. unfold registered_controllers. rewrite Hc. by left.
  - intros n. by rewrite Ha.
  - intros n. rewrite Ha. by left.
Qed.

Ltac frame :=
  srv; repeat (case_match; simplify_eq; srv); try split_and!; (done || lia).

Ltac handlers :=
  unfold on_connection, on_interrupt, abortInFlightControllers, on_set_language,
    on_start_recording, on_audio_stream, schedulePartialTranscription, on_disconnect,
    on_audio_stream_final, processCompleteAudio_begin, on_text_message,
    processWithChatGPT_begin, recognition_request, record_detected_language,
    partialTranscription_begin, record_reply, pruneHistory_ref.

Lemma partialTranscription_begin_histories (socketId : string) (σ : Server) :
  same_histories σ (partialTranscription_begin socketId σ).1.
Proof. unfold same_histories. handlers. frame. Qed.

Lemma processCompleteAudio_step_same (socketId : string) (r : AudioResume) (st : AudioState)
    (σ : Server) :
  let σ' := match processCompleteAudio_step socketId r st σ with
            | Some (σ', _, _) => σ'
            | None => σ
            end in
  same_histories σ σ' ∧ same_timers σ σ' ∧
  (r ≠ FileReady → same_controllers σ σ').
Proof.
  unfold processCompleteAudio_step, same_histories, same_timers, same_controllers.
  destruct st as [audio|request|userInput queueOnly|], r as [| |transcription| |];
    cbv zeta; (split_and!; [..|intros Hr]); try done; handlers; frame.
Qed.

Lemma partialTranscription_step_same (socketId : string) (r : AudioResume) (st : AudioState)
    (σ : Server) :
  let σ' := match partialTranscription_step socketId r st σ with
            | Some (σ', _, _) => σ'
            | None => σ
            end in
  same_histories σ σ' ∧ same_timers σ σ' ∧
  (r ≠ FileReady → same_controllers σ σ').
Proof.
  unfold partialTranscription_step, same_histories, same_timers, same_controllers.
  destruct st as [audio|request|userInput queueOnly|], r as [| |transcription| |];
    cbv zeta; (split_and!; [..|intros Hr]); try done; handlers; frame.
Qed.

Lemma on_connection_history_footprint (a : string) (held : option nat) (σ : Server) :
  history_footprint a held σ (on_connection a σ).
Proof.
  unfold history_footprint, on_connection. srv. split.
  - intros r. rewrite lookup_insert_eq. intros [= <-]. right. left. lia.
  - intros n Hn _ _. rewrite lookup_insert_ne by lia. done.
Qed.

Lemma on_disconnect_history_footprint (a : string) (held : option nat) (σ : Server) :
  history_footprint a held σ (on_disconnect a σ).
Proof.
  unfold history_footprint, on_disconnect. srv. split; [|done].
  intros r. by rewrite lookup_delete_eq.
Qed.

Lemma processWithChatGPT_begin_history_footprint (env : option jsstring) (now : Z)
    (userInput : jsstring) (a : string) (held : option nat) (σ : Server) :
  history_footprint a held σ (processWithChatGPT_begin env now userInput a σ).1.1.1.
Proof.
  unfold history_footprint, processWithChatGPT_begin.
  destruct (conversationHistory σ !! a) as [r|] eqn:Hr; srv; split.
  - intros r'. rewrite lookup_insert_eq. intros [= <-]. by left.
  - intros n Hn Hne _. rewrite lookup_insert_ne by congruence. done.
  - intros r'. rewrite lookup_insert_eq. intros [= <-]. right. left. lia.
  - intros n Hn _ _. rewrite !lookup_insert_ne by lia. done.
Qed.

Lemma record_reply_history_footprint (now : Z) (t : Turn) (σ : Server) :
  history_footprint (turn_socketId t) (Some (turn_history t)) σ (record_reply now t σ).
Proof.
  unfold history_footprint, record_reply, pruneHistory_ref. srv.
  destruct (_ <=? _)%nat; srv; split.
  - intros r. rewrite lookup_insert_eq. intros [= <-]. by right; right.
  - intros n Hn _ Hne. rewrite lookup_insert_ne by congruence. done.
  - intros r. rewrite lookup_insert_eq. intros [= <-]. right. left. lia.
  - intros n Hn _ Hne. rewrite !lookup_insert_ne by (congruence || lia). done.
Qed.

Lemma turn_step_history_footprint (r : Resume) (ts : TurnState) (t : Turn) (σ : Server) :
  turn_of ts = Some t →
  same_timers σ (run_task (TaskTurnStep r ts) σ) ∧
  same_controllers σ (run_task (TaskTurnStep r ts) σ) ∧
  history_footprint (turn_socketId t) (Some (turn_history t)) σ
    (run_task (TaskTurnStep r ts) σ).
Proof.
  intros Ht. cbn [run_task].
  assert (Hsame : same_timers σ σ ∧ same_controllers σ σ ∧
                  history_footprint (turn_socketId t) (Some (turn_history t)) σ σ).
  { split_and!; [by split_and!|by split_and!|].
    apply same_histories_footprint. by split_and!. }
  unfold turn_step.
  destruct ts as [t0|t0|t0 unit rest|], r as [now'| |token|now'| |audio];
    simplify_eq/=; try done.
  - destruct (negb _); [done|]. by destruct (truthy token).
  - destruct (streamTextToSpeech t _ _) as [ts' out].
    split_and!; [apply record_reply_timers|apply record_reply_controllers|].
    apply record_reply_history_footprint.
  - by destruct (streamTextToSpeech t σ rest).
Qed.

Lemma on_audio_stream_timer_footprint (chunk : Buffer) (a : string) (σ : Server) :
  (nextId σ <= nextId (on_audio_stream chunk a σ))%nat ∧
  timer_footprint a σ (on_audio_stream chunk a σ).
Proof.
  assert (Hfields :
    timers (on_audio_stream chunk a σ)
    = <[nextId σ := PartialTranscription a 350]>
        (match sttDebounceTimers σ !! a with
         | Some existing => delete existing (timers σ)
         | None => timers σ
         end) ∧
    sttDebounceTimers (on_audio_stream chunk a σ) = <[a := nextId σ]> (sttDebounceTimers σ) ∧
    nextId (on_audio_stream chunk a σ) = S (nextId σ)).
  { unfold on_audio_stream, schedulePartialTranscription. srv.
    by repeat (case_match; simplify_eq; srv). }
  destruct Hfields as (Ht & Hd & Hn). unfold timer_footprint.
  rewrite Ht, Hd, Hn. clear Ht Hd Hn.
  split; [lia|]. split_and!.
  - intros n. rewrite lookup_insert_eq. intros [= <-]. right. lia.
  - intros n task [[<- <-]|[Hne Hl]]%lookup_insert_Some; [right; split; [done|lia]|].
    left. destruct (sttDebounceTimers σ !! a); [|done].
    by apply lookup_delete_Some in Hl as [_ Hl].
  - intros n Hn Hd _. rewrite lookup_insert_ne by lia.
    destruct (sttDebounceTimers σ !! a) as [existing|]; [|done].
    rewrite lookup_delete_ne by congruence. done.
Qed.

Lemma fire_timer_timer_footprint (timer : nat) (a : string) (σ : Server) :
  task_socket (TaskTimer timer) σ = Some a →
  (nextId σ <= nextId (run_task (TaskTimer timer) σ))%nat ∧
  timer_footprint a σ (run_task (TaskTimer timer) σ).
Proof.
  cbn [task_socket run_task]. unfold fire_timer. intros Ha.
  destruct (timers σ !! timer) as [[s delay|s delay]|] eqn:Ht; simplify_eq.
  - unfold timer_footprint.
    destruct (partialTranscription_begin_frame a (set_timers (delete timer) σ))
      as [(H1 & H2 & H3) _].
    destruct (partialTranscription_begin a _) as [σ1 st]. cbn [fst] in *. srv.
    split; [done|]. rewrite H1, H2. split_and!.
    + intros n. by left.
    + intros n task [_ Hl]%lookup_delete_Some. by left.
    + intros n _ _ Hne. rewrite lookup_delete_ne; [done|]. intros ->.
      by apply (Hne delay).
  - split; [done|]. apply same_timers_footprint. by split_and!.
Qed.

Lemma on_interrupt_controller_footprint (a : string) (σ : Server) :
  controller_footprint a σ (on_interrupt a σ).1.
Proof.
  unfold controller_footprint.
  rewrite on_interrupt_aborted, on_interrupt_registered. split_and!.
  - intros n Hin. by apply elem_of_empty in Hin.
  - intros n Hin. apply elem_of_union. by left.
  - intros n Hin. by apply elem_of_union in Hin.
Qed.

(** A fresh controller is registered in one field of the record of [a]. *)
Lemma register_controller_footprint (a : string) (σ σ' : Server) (fresh : nat)
    (record : InFlightControllers) :
  (nextId σ <= fresh < nextId σ')%nat → aborted σ' = aborted σ →
  controllersBySocket σ' = <[a := record]> (controllersBySocket σ) →
  (∀ n, n ∈ controller_set (llm record) ∪ controller_set (stt record)
          ∪ controller_set (tts record) →
        n = fresh ∨ n ∈ registered_controllers σ a) →
  controller_footprint a σ σ'.
Proof.
  intros Hfresh Ha Hc Hrec. split_and!.
  - intros n. unfold registered_controllers at 1. rewrite Hc, lookup_insert_eq.
    intros Hin. destruct (Hrec _ Hin) as [->|Hold]; [by right|by left].
  - intros n. by rewrite Ha.
  - intros n. rewrite Ha. by left.
Qed.

Lemma processWithChatGPT_begin_controller_footprint (env : option jsstring) (now : Z)
    (userInput : jsstring) (a : string) (σ : Server) :
  controller_footprint a σ (processWithChatGPT_begin env now userInput a σ).1.1.1.
Proof.
  unfold processWithChatGPT_begin.
  destruct (conversationHistory σ !! a) as [r|]; srv.
  - eapply (register_controller_footprint a σ _ (nextId σ)); srv; try done; [lia|].
    unfold registered_controllers.
    destruct (controllersBySocket σ !! a) as [c|]; cbn;
      intros n; rewrite !elem_of_union, ?elem_of_singleton; tauto.
  - eapply (register_controller_footprint a σ _ (S (nextId σ))); srv; try done; [lia|].
    unfold registered_controllers.
    destruct (controllersBySocket σ !! a) as [c|]; cbn;
      intros n; rewrite !elem_of_union, ?elem_of_singleton; tauto.
Qed.

Lemma recognition_request_controller_footprint (audio : Buffer) (a : string) (σ : Server) :
  controller_footprint a σ (recognition_request audio a σ).1.
Proof.
  unfold recognition_request. srv.
  eapply (register_controller_footprint a σ _ (nextId σ)); srv; try done; [lia|].
  unfold registered_controllers.
  destruct (controllersBySocket σ !! a) as [c|]; cbn;
    intros n; rewrite !elem_of_union, ?elem_of_singleton; tauto.
Qed.

Ltac same :=
  unfold same_histories, same_timers, same_controllers; handlers; frame.

Ltac by_same :=
  first [apply same_histories_footprint | apply same_timers_footprint
        | apply same_controllers_footprint]; same.

Lemma run_task_no_socket (k : Task) (σ : Server) :
  task_socket k σ = None → run_task k σ = σ.
Proof.
  destruct k as [socketId|socketId e|socketId chunk|socketId data_text
                |env now userInput socketId|r ts|socketId r st|timer|socketId r st];
    cbn [task_socket run_task]; try done.
  - by destruct ts.
  - unfold fire_timer. by destruct (timers σ !! timer) as [[]|].
Qed.

(** What a task of socket [a] does to the handles. *)
Lemma run_task_footprint (k : Task) (σ : Server) (a : string) :
  task_socket k σ = Some a →
  (nextId σ <= nextId (run_task k σ))%nat ∧
  history_footprint a (task_held k) σ (run_task k σ) ∧
  timer_footprint a σ (run_task k σ) ∧
  controller_footprint a σ (run_task k σ).
Proof.
  intros Hk.
  destruct k as [socketId|socketId e|socketId chunk|socketId data_text
                |env now userInput socketId|r ts|socketId r st|timer|socketId r st];
    cbn [task_socket task_held] in *.
  - injection Hk as ->. cbn [run_task]. split_and!.
    + handlers. frame.
    + apply on_connection_history_footprint.
    + by_same.
    + by_same.
  - injection Hk as ->. cbn [run_task].
    destruct e as [|language| |chunk|]; cbn [handle fst].
    + split_and!; [handlers; frame|by_same|by_same|].
      apply on_interrupt_controller_footprint.
    + split_and!; [handlers; frame|by_same..].
    + split_and!; [handlers; frame|by_same..].
    + split_and!; [apply on_audio_stream_timer_footprint|by_same| |by_same].
      apply on_audio_stream_timer_footprint.
    + split_and!; [handlers; frame| |by_same|by_same].
      apply on_disconnect_history_footprint.
  - injection Hk as ->. cbn [run_task]. split_and!; [handlers; frame|by_same..].
  - injection Hk as ->. cbn [run_task].
    destruct data_text; (split_and!; [handlers; frame|by_same..]).
  - injection Hk as ->. cbn [run_task]. split_and!; [handlers; frame| |by_same|].
    + apply processWithChatGPT_begin_history_footprint.
    + apply processWithChatGPT_begin_controller_footprint.
  - assert (∃ t, turn_of ts = Some t ∧ turn_socketId t = a) as (t & Ht & <-).
    { destruct ts as [t|t|t unit rest|]; simplify_eq; by eexists. }
    rewrite Ht. cbn [fmap option_fmap option_map].
    destruct (turn_step_history_footprint r ts t σ Ht) as (H1 & H2 & H3).
    split_and!; [apply H1|done|by apply same_timers_footprint|
                 by apply same_controllers_footprint].
  - injection Hk as ->. cbn [run_task].
    destruct (processCompleteAudio_step_same a r st σ) as (H1 & H2 & H3).
    split_and!; [apply H1|by apply same_histories_footprint|by apply same_timers_footprint|].
    destruct r as [| |transcription| |];
      try (by apply same_controllers_footprint, H3).
    unfold processCompleteAudio_step.
    destruct st as [audio|request|userInput queueOnly|];
      try (apply same_controllers_footprint; by split_and!).
    pose proof (recognition_request_controller_footprint audio a
                  (set_lastInputSource <[a:=voice]> σ)) as Hq.
    destruct (recognition_request audio a _) as [σ1 q]. exact Hq.
  - cbn [task_socket] in Hk.
    destruct (fire_timer_timer_footprint timer a σ Hk) as [H1 H2].
    split_and!; [done| |done|].
    + apply same_histories_footprint. cbn [run_task]. unfold fire_timer.
      destruct (timers σ !! timer) as [[s delay|s delay]|]; try by split_and!.
      pose proof (partialTranscription_begin_histories s (set_timers (delete timer) σ))
        as Hh.
      destruct (partialTranscription_begin s _) as [σ1 st]. exact Hh.
    + apply same_controllers_footprint. cbn [run_task].
      destruct (fire_timer timer σ) as [[σ1 st]|] eqn:Hfire; [|by split_and!].
      by eapply fire_timer_controllers.
  - injection Hk as ->. cbn [run_task].
    destruct (partialTranscription_step_same a r st σ) as (H1 & H2 & H3).
    split_and!; [apply H1|by apply same_histories_footprint|by apply same_timers_footprint|].
    destruct r as [| |transcription| |];
      try (by apply same_controllers_footprint, H3).
    unfold partialTranscription_step.
    destruct st as [audio|request|userInput queueOnly|];
      try (apply same_controllers_footprint; by split_and!).
    pose proof (recognition_request_controller_footprint audio a σ) as Hq.
    destruct (recognition_request audio a σ) as [σ1 q]. exact Hq.
Qed.

Lemma view_fields (σ σ' : Server) (s : string) :
  session_view σ' s = session_view σ s →
  conversationHistory σ' !! s = conversationHistory σ !! s ∧
  sttDebounceTimers σ' !! s = sttDebounceTimers σ !! s ∧
  registered_controllers σ' s = registered_controllers σ s.
Proof.
  unfold session_view, registered_controllers. intros [= _ _ Hd _ Hh _ _ Hc _].
  by rewrite Hd, Hh, Hc.
Qed.

Lemma processWithChatGPT_begin_turn (env : option jsstring) (now : Z) (userInput : jsstring)
    (a : string) (σ : Server) :
  let begun := processWithChatGPT_begin env now userInput a σ in
  turn_socketId begun.1.1.2 = a ∧
  (conversationHistory σ !! a = Some (turn_history begun.1.1.2) ∨
   (nextId σ <= turn_history begun.1.1.2 < nextId begun.1.1.1)%nat).
Proof.
  unfold processWithChatGPT_begin.
  destruct (conversationHistory σ !! a) as [r|]; srv; cbn; split; try done;
    [by left|right; lia].
Qed.

Lemma turn_step_turn (r : Resume) (ts ts' : TurnState) (σ σ' : Server) (out : list Emit)
    (t' : Turn) :
  turn_step r ts σ = Some (σ', ts', out) → turn_of ts' = Some t' →
  ∃ t, turn_of ts = Some t ∧ turn_history t' = turn_history t ∧
       turn_socketId t' = turn_socketId t.
Proof.
  unfold turn_step, streamTextToSpeech. intros Hstep Ht'.
  destruct ts as [t|t|t unit rest|], r as [now| |token|now| |audio];
    try done; repeat case_match; simplify_eq/=; by eexists.
Qed.

Lemma next_turns_no_socket (x : LoopTask) (l : Loop) (k : Task) :
  task_of x l = Some k → task_socket k (loop_server l) = None →
  next_turns x l = loop_turns l.
Proof.
  destruct x as [socketId|socketId e|socketId chunk|socketId data_text
                |env now userInput socketId|i r|socketId r st|timer|socketId r st];
    cbn [task_of next_turns]; try done.
  - by intros [= <-].
  - destruct (loop_turns l !! i) as [ts|]; [|done]. intros [= <-].
    cbn [task_socket]. by destruct ts.
Qed.

(** The turns the loop holds after a task are the turns it held, moved on or
    not, and the turn that has begun. *)
Lemma next_turns_turn (x : LoopTask) (l : Loop) (ts' : TurnState) (t' : Turn) :
  ts' ∈ next_turns x l → turn_of ts' = Some t' →
  (∃ ts t, ts ∈ loop_turns l ∧ turn_of ts = Some t ∧
           turn_history t' = turn_history t ∧ turn_socketId t' = turn_socketId t) ∨
  (∃ env now userInput a,
     x = LoopTurnBegin env now userInput a ∧
     t' = (processWithChatGPT_begin env now userInput a (loop_server l)).1.1.2).
Proof.
  intros Hin Ht'.
  assert (Hold : ts' ∈ loop_turns l →
            ∃ ts t, ts ∈ loop_turns l ∧ turn_of ts = Some t ∧
                    turn_history t' = turn_history t ∧ turn_socketId t' = turn_socketId t)
    by (intros ?; by exists ts', t').
  destruct x as [socketId|socketId e|socketId chunk|socketId data_text
                |env now userInput socketId|i r|socketId r st|timer|socketId r st];
    cbn [next_turns] in Hin; try (left; by apply Hold).
  - apply elem_of_app in Hin as [Hin|Hin]; [left; by apply Hold|].
    apply list_elem_of_singleton in Hin as ->. injection Ht' as <-.
    right. by exists env, now, userInput, socketId.
  - left.
    destruct (loop_turns l !! i) as [ts|] eqn:Hi; [|by apply Hold].
    destruct (turn_step r ts (loop_server l)) as [[[σ' ts2] out]|] eqn:Hstep;
      [|by apply Hold].
    apply list_elem_of_lookup in Hin as [j Hj].
    destruct (decide (j = i)) as [->|Hne].
    + rewrite list_lookup_insert_eq in Hj by by eapply lookup_lt_Some.
      injection Hj as <-.
      destruct (turn_step_turn _ _ _ _ _ _ _ Hstep Ht') as (t & Ht & H1 & H2).
      exists ts, t. split_and!; try done. by eapply list_elem_of_lookup_2.
    + rewrite list_lookup_insert_ne in Hj by done.
      apply Hold. by eapply list_elem_of_lookup_2.
Qed.

Lemma task_held_owned (x : LoopTask) (l : Loop) (k : Task) (a : string) (h : nat) :
  owned l → task_of x l = Some k → task_socket k (loop_server l) = Some a →
  task_held k = Some h → loop_owners l !! h = Some a.
Proof.
  intros Hown Hk Ha Hh.
  destruct x as [socketId|socketId e|socketId chunk|socketId data_text
                |env now userInput socketId|i r|socketId r st|timer|socketId r st];
    cbn [task_of] in Hk; simplify_eq/=.
  destruct (loop_turns l !! i) as [ts|] eqn:Hi; simplify_eq/=.
  destruct (turn_of ts) as [t|] eqn:Ht; simplify_eq/=.
  assert (turn_socketId t = a) as <- by (destruct ts; by simplify_eq/=).
  eapply owned_turn; [done| |done]. by eapply list_elem_of_lookup_2.
Qed.

Lemma loop_step_owned (x : LoopTask) (l : Loop) : owned l → owned (loop_step x l).
Proof.
  intros Hown. unfold loop_step.
  destruct (task_of x l) as [k|] eqn:Hk; [|done].
  destruct (task_socket k (loop_server l)) as [a|] eqn:Ha.
  2:{ rewrite (run_task_no_socket _ _ Ha), (next_turns_no_socket _ _ _ Hk Ha).
      cbn [claim]. by destruct Hown, l. }
  destruct (run_task_footprint k (loop_server l) a Ha)
    as (Hn & [Hh1 Hh2] & (Ht1 & Ht2 & Ht3) & (Hc1 & Hc2 & Hc3)).
  pose proof (fun s (Hs : a ≠ s) =>
                view_fields _ _ s (run_task_keeps_view k (loop_server l) a s Ha Hs))
    as Hview.
  set (σ := loop_server l) in *. set (σ' := run_task k σ) in *.
  assert (Hold : ∀ n s, loop_owners l !! n = Some s →
            claim (Some a) (nextId σ) (nextId σ') (loop_owners l) !! n = Some s).
  { intros n s Hl. rewrite claim_old; [done|]. by eapply owned_allocated. }
  assert (Hnew : ∀ n, (nextId σ <= n < nextId σ')%nat →
            claim (Some a) (nextId σ) (nextId σ') (loop_owners l) !! n = Some a).
  { intros n Hlt. by apply claim_new. }
  split; cbn [loop_server loop_turns loop_owners].
  - intros n s [Hl|[_ Hlt]]%claim_inv; [|lia].
    pose proof (owned_allocated l Hown n s Hl). fold σ in H. lia.
  - intros s r Hl. destruct (decide (a = s)) as [<-|Hne].
    + destruct (Hh1 _ Hl) as [Hl'|[Hlt|Hheld]].
      * apply Hold. by eapply owned_history.
      * by apply Hnew.
      * apply Hold. by eapply task_held_owned.
    + destruct (Hview s Hne) as (Hv & _ & _). rewrite Hv in Hl.
      apply Hold. by eapply owned_history.
  - intros ts' t' Hin Ht'.
    destruct (next_turns_turn _ _ _ _ Hin Ht')
      as [(ts & t & Hin0 & Ht & -> & ->)|(env & now & userInput & a' & -> & ->)].
    + apply Hold. by eapply owned_turn.
    + cbn [task_of] in Hk. injection Hk as <-. cbn [task_socket] in Ha.
      injection Ha as ->.
      fold σ. subst σ'. cbn [run_task] in *.
      destruct (processWithChatGPT_begin_turn env now userInput a σ) as [-> [Hl|Hlt]].
      * apply Hold. by eapply owned_history.
      * by apply Hnew.
  - intros s timer Hl. destruct (decide (a = s)) as [<-|Hne].
    + destruct (Ht1 _ Hl) as [Hl'|Hlt]; [|by apply Hnew].
      apply Hold. by eapply owned_debounce.
    + destruct (Hview s Hne) as (_ & Hv & _). rewrite Hv in Hl.
      apply Hold. by eapply owned_debounce.
  - intros timer s delay Hl. destruct (Ht2 _ _ Hl) as [Hl'|[[= -> _] Hlt]].
    + apply Hold. by eapply owned_timer.
    + by apply Hnew.
  - intros s n Hin. destruct (decide (a = s)) as [<-|Hne].
    + destruct (Hc1 _ Hin) as [Hin'|Hlt]; [|by apply Hnew].
      apply Hold. by eapply owned_controller.
    + destruct (Hview s Hne) as (_ & _ & Hv). rewrite Hv in Hin.
      apply Hold. by eapply owned_controller.
Qed.

Lemma loop_initial_owned : owned loop_initial.
Proof.
  split; cbn.
  - intros n s Hl. by rewrite lookup_empty in Hl.
  - intros s r Hl. by rewrite lookup_empty in Hl.
  - intros ts t Hin. by apply elem_of_nil in Hin.
  - intros s timer Hl. by rewrite lookup_empty in Hl.
  - intros timer s delay Hl. by rewrite lookup_empty in Hl.
  - intros s n Hin. unfold registered_controllers in Hin. cbn in Hin.
    rewrite lookup_empty in Hin. by apply elem_of_empty in Hin.
Qed.

Lemma loop_run_owned (xs : list LoopTask) : ∀ l, owned l → owned (loop_run xs l).
Proof.
  induction xs as [|x xs IH]; intros l Hown; [done|].
  cbn [loop_run foldl]. apply IH. by apply loop_step_owned.
Qed.

Lemma next_turns_other (x : LoopTask) (l : Loop) (k : Task) (a : string) (j : nat)
    (ts : TurnState) (t : Turn) :
  task_of x l = Some k → task_socket k (loop_server l) = Some a →
  loop_turns l !! j = Some ts → turn_of ts = Some t → turn_socketId t ≠ a →
  next_turns x l !! j = Some ts.
Proof.
  intros Hk Ha Hj Ht Hne.
  destruct x as [socketId|socketId e|socketId chunk|socketId data_text
                |env now userInput socketId|i r|socketId r st|timer|socketId r st];
    cbn [next_turns]; try done.
  - by apply lookup_app_l_Some.
  - cbn [task_of] in Hk.
    destruct (loop_turns l !! i) as [ts0|] eqn:Hi; [|done]. injection Hk as <-.
    destruct (turn_step r ts0 (loop_server l)) as [[[σ' ts2] out]|]; [|done].
    rewrite list_lookup_insert_ne; [done|]. intros <-.
    rewrite Hi in Hj. injection Hj as ->. cbn [task_socket] in Ha.
    destruct ts; simplify_eq/=.
Qed.

(** What a task of socket [a] leaves as it is: every handle of another
    owner. *)
Lemma loop_step_frame (x : LoopTask) (l : Loop) (k : Task) (a other : string) (n : nat) :
  owned l → task_of x l = Some k → task_socket k (loop_server l) = Some a → a ≠ other →
  loop_owners l !! n = Some other →
  arrays (run_task k (loop_server l)) !! n = arrays (loop_server l) !! n ∧
  timers (run_task k (loop_server l)) !! n = timers (loop_server l) !! n ∧
  (n ∈ aborted (run_task k (loop_server l)) ↔ n ∈ aborted (loop_server l)).
Proof.
  intros Hown Hk Ha Hne Hn.
  destruct (run_task_footprint k (loop_server l) a Ha)
    as (_ & [_ Hh] & (_ & _ & Ht) & (_ & Hc2 & Hc3)).
  pose proof (owned_allocated l Hown n other Hn) as Hlt.
  assert (Hmine : loop_owners l !! n ≠ Some a) by congruence.
  split_and!.
  - apply Hh; [done| |].
    + intros Hl. apply Hmine. by eapply owned_history.
    + intros Hheld. apply Hmine. by eapply task_held_owned.
  - apply Ht; [done| |].
    + intros Hl. apply Hmine. by eapply owned_debounce.
    + intros delay Hl. apply Hmine. by eapply owned_timer.
  - split; [|by apply Hc2]. intros [Hin|Hin]%Hc3; [done|].
    destruct Hmine. by eapply owned_controller.
Qed.

End Owners.

(** A task of one socket leaves the session of every other socket as it is,
    in every state the event loop can reach, whatever the turns it holds: the
    entries kept under the other id (audio buffer, guards, recorded timer,
    history reference, preferences, input source, controllers, version); the
    messages of its history; its suspended turns and the arrays they hold;
    its armed timers; the abort state of its registered controllers; and
    every array, timer and controller that a task of the other socket ever
    allocated.  No handle passes to the other socket.  The coalescer state is
    not part of the statement. *)
Theorem tasks_leave_other_sessions :
  ∀ (xs : list LoopTask) (x : LoopTask) (socketId other : string),
    let l := loop_run xs loop_initial in
    let l' := loop_step x l in
    let σ := loop_server l in
    let σ' := loop_server l' in
    loop_socket x l = Some socketId → socketId ≠ other →
    session_view σ' other = session_view σ other ∧
    history_of σ' other = history_of σ other ∧
    (∀ j ts t, loop_turns l !! j = Some ts → turn_of ts = Some t → turn_socketId t = other →
       loop_turns l' !! j = Some ts ∧
       array_at σ' (turn_history t) = array_at σ (turn_history t)) ∧
    (∀ n delay, timers σ' !! n = Some (PartialTranscription other delay) ↔
                timers σ !! n = Some (PartialTranscription other delay)) ∧
    (∀ n, n ∈ registered_controllers σ other → (n ∈ aborted σ' ↔ n ∈ aborted σ)) ∧
    (∀ n, loop_owners l !! n = Some other →
       loop_owners l' !! n = Some other ∧
       arrays σ' !! n = arrays σ !! n ∧
       timers σ' !! n = timers σ !! n ∧
       (n ∈ aborted σ' ↔ n ∈ aborted σ)) ∧
    (∀ n, loop_owners l' !! n = Some other → loop_owners l !! n = Some other).
Proof.
  intros xs x a other l l' σ σ' Ha Hne.
  assert (Hown : owned l) by apply loop_run_owned, loop_initial_owned.
  unfold loop_socket in Ha. subst σ' l' σ. unfold loop_step.
  destruct (task_of x l) as [k|] eqn:Hk; [|done]. rewrite Ha.
  cbn [loop_server loop_turns loop_owners].
  pose proof (run_task_keeps_view k _ a other Ha Hne) as Hview.
  pose proof (λ n, loop_step_frame x l k a other n Hown Hk Ha Hne) as Hframe.
  set (σ := loop_server l) in *.
  destruct (run_task_footprint k σ a Ha) as (_ & _ & (_ & Ht2 & _) & _).
  split_and!.
  - done.
  - destruct (view_fields _ _ _ Hview) as (Hh & _ & _).
    unfold history_of. rewrite Hh.
    destruct (conversationHistory σ !! other) as [r|] eqn:Hr; [|done].
    unfold array_at. destruct (Hframe r) as (-> & _); [|done].
    by eapply owned_history.
  - intros j ts t Hj Ht Hs. split.
    + eapply next_turns_other; try done. congruence.
    + unfold array_at. destruct (Hframe (turn_history t)) as (-> & _); [|done].
      rewrite <- Hs. eapply owned_turn; [done| |done]. by eapply list_elem_of_lookup_2.
  - intros n delay. split.
    + intros Hl. destruct (Ht2 _ _ Hl) as [Hl'|[[= ->] _]]; done.
    + intros Hl. destruct (Hframe n) as (_ & -> & _); [|done]. by eapply owned_timer.
  - intros n Hin. apply Hframe. by eapply owned_controller.
  - intros n Hn. split; [|by apply Hframe].
    rewrite claim_old; [done|]. by eapply owned_allocated.
  - intros n [Hl|[[= ->] _]]%claim_inv; done.
Qed.

(** ** More on the coalescer *)

Module CoalescerMore.
Import Coalescer CoalescerFacts.

(** What the calls made and the pending input have to do with the trigger
    calls [seen] so far. *)
Lemma step_provenance (t : Z) (e : Event) (s s' : State) (seen : list (Z * jsstring * bool)) :
  Inv s →
  (∀ c, c ∈ calls s →
        startedAt c <= clock s ∧ truthy (input c) = true ∧ queuedAt c <= startedAt c ∧
        ∃ u q, (queuedAt c, u, q) ∈ seen ∧ input c = trim u) →
  (∀ p, pendingInput (object s) = Some p →
        pendingSince s <= clock s ∧ ∃ u q, (pendingSince s, u, q) ∈ seen ∧ p = trim u) →
  step t e s = Some s' →
  (∀ c, c ∈ calls s' →
        startedAt c <= clock s' ∧ truthy (input c) = true ∧ queuedAt c <= startedAt c ∧
        ∃ u q, (queuedAt c, u, q) ∈ seen ++ triggers [(t, e)] ∧ input c = trim u) ∧
  (∀ p, pendingInput (object s') = Some p →
        pendingSince s' <= clock s' ∧
        ∃ u q, (pendingSince s', u, q) ∈ seen ++ triggers [(t, e)] ∧ p = trim u).
Proof.
  intros Hinv Hcalls Hpend Hstep.
  pose proof (step_clock _ _ _ _ Hstep) as [Hclk Hclk'].
  assert (Hcalls' : ∀ c, c ∈ calls s →
            startedAt c <= t ∧ truthy (input c) = true ∧ queuedAt c <= startedAt c ∧
            ∃ u q, (queuedAt c, u, q) ∈ seen ++ triggers [(t, e)] ∧ input c = trim u).
  { intros c Hc. destruct (Hcalls c Hc) as (H1 & H2 & H3 & u & q & H4 & H5).
    split_and!; try done; [lia|]. exists u, q. split; [|done]. apply elem_of_app. by left. }
  assert (Hpend' : ∀ p, pendingInput (object s) = Some p →
            pendingSince s <= t ∧
            ∃ u q, (pendingSince s, u, q) ∈ seen ++ triggers [(t, e)] ∧ p = trim u).
  { intros p Hp. destruct (Hpend p Hp) as (H1 & u & q & H4 & H5).
    split; [lia|]. exists u, q. split; [|done]. apply elem_of_app. by left. }
  rewrite Hclk'. clear Hcalls Hpend Hclk'.
  destruct Hinv as [Hw Hi Hp Hd].
  unfold step in Hstep. destruct (on_time t s) eqn:Htime; cbn [negb] in Hstep; [|done].
  destruct s as [reg [w l p] a f cs n since clk].
  destruct e as [userInput queueOnly| | |]; cbn [triggers] in *.
  - injection Hstep as <-.
    assert (Hnew : ∃ u q, (t, u, q) ∈ seen ++ [(t, userInput, queueOnly)] ∧
                          trim userInput = trim u).
    { exists userInput, queueOnly. split; [|done]. apply elem_of_app. right. by left. }
    co_simpl. destruct (truthy (trim userInput)) eqn:Hu; cbn; [|by split].
    destruct reg; cbn; [|by split].
    destruct queueOnly, w; cbn; split; try done.
    + intros q [= <-]. split; [lia|done].
    + intros q [= <-]. split; [lia|done].
    + intros q [= <-]. split; [lia|done].
    + intros c [Hc| ->%list_elem_of_singleton]%elem_of_app; [by apply Hcalls'|].
      cbn. split_and!; [lia|done|lia|done].
  - cbn in Hstep. destruct f as [|c rest]; [done|]. injection Hstep as <-.
    co_simpl. by split.
  - cbn in Hstep. case_bool_decide as Hin; [|done]. injection Hstep as <-.
    co_simpl. destruct p as [p|]; cbn; [|by split].
    destruct (Hp p eq_refl) as (Htruthy & Htrim & _). cbn in Htruthy, Htrim.
    rewrite Htruthy, Htrim, Htruthy. cbn.
    destruct reg; cbn; [|by split].
    destruct (Hpend' p eq_refl) as (Hsince & u & q & Hseen & Hpu). cbn in *.
    split; [|done].
    intros c [Hc| ->%list_elem_of_singleton]%elem_of_app; [by apply Hcalls'|].
    cbn. split_and!; [lia|done|done|]. by exists u, q.
  - injection Hstep as <-. by split.
Qed.

Lemma run_provenance (tr : list (Z * Event)) :
  ∀ (s s' : State) (seen : list (Z * jsstring * bool)),
    Inv s →
    (∀ c, c ∈ calls s →
          startedAt c <= clock s ∧ truthy (input c) = true ∧ queuedAt c <= startedAt c ∧
          ∃ u q, (queuedAt c, u, q) ∈ seen ∧ input c = trim u) →
    (∀ p, pendingInput (object s) = Some p →
          pendingSince s <= clock s ∧ ∃ u q, (pendingSince s, u, q) ∈ seen ∧ p = trim u) →
    run tr s = Some s' →
    ∀ c, c ∈ calls s' →
         truthy (input c) = true ∧ queuedAt c <= startedAt c ∧
         ∃ u q, (queuedAt c, u, q) ∈ seen ++ triggers tr ∧ input c = trim u.
Proof.
  induction tr as [|[t e] tr IH]; intros s s' seen Hinv Hcalls Hpend; cbn [run].
  - intros [= <-] c Hc. destruct (Hcalls c Hc) as (_ & H2 & H3 & H4).
    cbn [triggers]. by rewrite app_nil_r.
  - destruct (step t e s) as [s1|] eqn:Hstep; [|done]. intros Hrun c Hc.
    destruct (step_provenance _ _ _ _ seen Hinv Hcalls Hpend Hstep) as [Hcalls1 Hpend1].
    pose proof (IH s1 s' _ (step_inv _ _ _ _ Hinv Hstep) Hcalls1 Hpend1 Hrun c Hc) as Hc'.
    replace (seen ++ triggers ((t, e) :: tr))
      with ((seen ++ triggers [(t, e)]) ++ triggers tr); [done|].
    rewrite <- app_assoc. f_equal. by destruct e.
Qed.

Lemma blank_triggers_one (t : Z) (u : jsstring) (q : bool) :
  blank_triggers [(t, Trigger u q)] = if truthy (trim u) then [] else [(t, u, q)].
Proof.
  unfold blank_triggers. cbn [triggers]. rewrite filter_cons, filter_nil. cbn [fst snd].
  destruct (truthy (trim u)); [by rewrite decide_False|by rewrite decide_True].
Qed.

Lemma step_notices (t : Z) (e : Event) (s s' : State) :
  Inv s → step t e s = Some s' →
  notices s' = (notices s + length (blank_triggers [(t, e)]))%nat.
Proof.
  intros [Hw Hi Hp Hd]. unfold step.
  destruct (on_time t s) eqn:Htime; cbn [negb]; [|done].
  destruct s as [reg [w l p] a f cs n since clk].
  destruct e as [userInput queueOnly| | |]; [|unfold blank_triggers..].
  - intros [= <-]. rewrite blank_triggers_one. unfold triggerChatGPTWithWait.
    destruct (truthy (trim userInput)) eqn:Hu; co_simpl; [|lia].
    destruct reg; cbn; [|lia]. destruct queueOnly, w; cbn; lia.
  - cbn. destruct f as [|c rest]; [done|]. intros [= <-]. cbn. lia.
  - cbn. case_bool_decide as Hin; [|done]. intros [= <-].
    co_simpl. destruct p as [p|]; cbn; [|lia].
    destruct (Hp p eq_refl) as (Htruthy & Htrim & _). cbn in Htruthy, Htrim.
    rewrite Htruthy, Htrim, Htruthy. cbn. destruct reg; cbn; lia.
  - intros [= <-]. cbn. lia.
Qed.

Lemma blank_triggers_cons (x : Z * Event) (tr : list (Z * Event)) :
  blank_triggers (x :: tr) = blank_triggers [x] ++ blank_triggers tr.
Proof.
  unfold blank_triggers. rewrite <- filter_app. f_equal.
  destruct x as [t e]. by destruct e.
Qed.

Lemma run_notices (tr : list (Z * Event)) :
  ∀ s s', Inv s → run tr s = Some s' →
          notices s' = (notices s + length (blank_triggers tr))%nat.
Proof.
  induction tr as [|[t e] tr IH]; intros s s' Hinv; cbn [run].
  - intros [= <-]. cbn. lia.
  - destruct (step t e s) as [s1|] eqn:Hstep; [|done]. intros Hrun.
    rewrite (IH s1 s' (step_inv _ _ _ _ Hinv Hstep) Hrun),
      (step_notices _ _ _ _ Hinv Hstep), (blank_triggers_cons (t, e) tr), length_app.
    lia.
Qed.

Lemma step_unregistered (t : Z) (e : Event) (s s' : State) :
  registered s = false → step t e s = Some s' →
  registered s' = false ∧ calls s' = calls s.
Proof.
  intros Hreg. unfold step. destruct (on_time t s); cbn [negb]; [|done].
  destruct s as [reg [w l p] a f cs n since clk]. cbn in Hreg. subst reg.
  destruct e as [userInput queueOnly| | |]; cbn.
  - intros [= <-]. co_simpl. by destruct (truthy (trim userInput)).
  - destruct f as [|c rest]; [done|]. by intros [= <-].
  - case_bool_decide; [|done]. intros [= <-]. co_simpl.
    destruct p as [p|]; cbn; [|done].
    destruct (truthy p); cbn; [|done]. by destruct (truthy (trim p)).
  - by intros [= <-].
Qed.

Lemma run_unregistered (tr : list (Z * Event)) :
  ∀ s s', registered s = false → run tr s = Some s' → calls s' = calls s.
Proof.
  induction tr as [|[t e] tr IH]; intros s s' Hreg; cbn [run].
  - by intros [= <-].
  - destruct (step t e s) as [s1|] eqn:Hstep; [|done]. intros Hrun.
    destruct (step_unregistered _ _ _ _ Hreg Hstep) as [Hreg1 Hcalls1].
    rewrite <- Hcalls1. by apply IH.
Qed.

(** Every downstream call answers a trigger call: its input is the
    trimmed input of a trigger call made when the call was queued, it is
    not blank, and the call starts no earlier than it was queued. *)
Theorem every_call_answers_a_trigger :
  ∀ (tr : list (Z * Event)) (s : State) (c : Call),
    run tr init = Some s → c ∈ calls s →
    truthy (input c) = true ∧ queuedAt c <= startedAt c ∧
    ∃ u q, (queuedAt c, u, q) ∈ triggers tr ∧ input c = trim u.
Proof.
  intros tr s c Hrun Hc.
  refine (run_provenance tr init s [] init_inv _ _ Hrun c Hc).
  - by intros c' ?%elem_of_nil.
  - by intros p.
Qed.

(** [processing-complete] is sent once for every trigger call whose input
    is blank, and never otherwise. *)
Theorem notices_count_blank_triggers :
  ∀ (tr : list (Z * Event)) (s : State),
    run tr init = Some s → notices s = length (blank_triggers tr).
Proof.
  intros tr s Hrun. by rewrite (run_notices tr init s init_inv Hrun).
Qed.

(** Once the socket has disconnected no downstream call is started
    any more: an input that was pending is dropped when its timer fires, and
    later trigger calls return at once. *)
Theorem no_call_after_disconnect :
  ∀ (before after : list (Z * Event)) (t : Z) (s1 s2 s3 : State),
    run before init = Some s1 → step t Disconnect s1 = Some s2 →
    run after s2 = Some s3 →
    calls s3 = calls s1.
Proof.
  intros before after t s1 s2 s3 _ Hstep Hrun.
  assert (Hs2 : registered s2 = false ∧ calls s2 = calls s1).
  { unfold step in Hstep. destruct (on_time t s1); cbn [negb] in Hstep; [|done].
    by injection Hstep as <-. }
  destruct Hs2 as [Hreg Hcalls]. rewrite <- Hcalls. by eapply run_unregistered.
Qed.

(** A run in which every timer fires exactly when it is due is a run in
    which timers may fire late. *)
Lemma punctual_step_is_late (t : Z) (e : Event) (s s' : State) :
  Inv s → step t e s = Some s' → LateCoalescer.step t e s = Some s'.
Proof.
  intros Hinv. unfold step, LateCoalescer.step.
  destruct (on_time t s) eqn:Htime; cbn [negb]; [|done].
  apply on_time_spec in Htime as [Hclk _].
  rewrite (proj2 (Z.leb_le _ _) Hclk). cbn [negb].
  destruct e as [userInput queueOnly| | |]; try done.
  cbn [armed]. case_bool_decide as Hin; [|done].
  assert (Ha : armed s = [t]).
  { destruct (isWaiting (object s)) eqn:Hw.
    - destruct (inv_waiting _ Hinv Hw) as [(c & _ & Ha)|(due & Ha & _)]; rewrite Ha in Hin.
      + by apply elem_of_nil in Hin.
      + by apply list_elem_of_singleton in Hin as ->.
    - destruct (inv_idle _ Hinv Hw) as [Ha _]. rewrite Ha in Hin.
      by apply elem_of_nil in Hin. }
  rewrite Ha. cbn [remove_one]. by rewrite Z.eqb_refl, Z.leb_refl.
Qed.

Lemma punctual_run_is_late (tr : list (Z * Event)) :
  ∀ s s', Inv s → run tr s = Some s' → LateCoalescer.run tr s = Some s'.
Proof.
  induction tr as [|[t e] tr IH]; intros s s' Hinv; cbn [run LateCoalescer.run]; [done|].
  destruct (step t e s) as [s1|] eqn:Hstep; [|done]. intros Hrun.
  rewrite (punctual_step_is_late _ _ _ _ Hinv Hstep).
  apply IH; [|done]. by eapply step_inv.
Qed.

(** With nothing pending and no trigger call, no downstream call is made,
    however late the timers fire. *)
Lemma late_run_without_triggers (tr : list (Z * Event)) :
  ∀ s s', pendingInput (object s) = None → triggers tr = [] →
          LateCoalescer.run tr s = Some s' → calls s' = calls s.
Proof.
  induction tr as [|[t e] tr IH]; intros s s' Hp Htr; cbn [LateCoalescer.run].
  { by intros [= <-]. }
  destruct (LateCoalescer.step t e s) as [s1|] eqn:Hstep; [|done]. intros Hrun.
  assert (Hs1 : pendingInput (object s1) = None ∧ calls s1 = calls s).
  { unfold LateCoalescer.step in Hstep.
    destruct (clock s <=? t); cbn [negb] in Hstep; [|done].
    destruct s as [reg [w l p] a f cs n since clk]. cbn in Hp. subst p.
    destruct e as [userInput queueOnly| | |]; try done; cbn in Hstep.
    - destruct f as [|c rest]; [done|]. by injection Hstep as <-.
    - destruct a as [|due rest]; [done|]. destruct (due <=? t); [|done].
      by injection Hstep as <-.
    - by injection Hstep as <-. }
  destruct Hs1 as [Hp1 Hc1]. rewrite <- Hc1.
  apply IH; [done| |done]. by destruct e.
Qed.

(** While the timer is armed, trigger calls of either mode only overwrite
    the pending input; when the timer fires, at or after its due time, the
    last input that is not blank is passed on. *)
Lemma late_window_run (window : list (Z * Event)) :
  ∀ (s s' : State) (due tf : Z) (p : jsstring) (rest : list (Z * Event)),
    registered s = true → isWaiting (object s) = true →
    armed s = [due] → inflight s = [] →
    pendingInput (object s) = Some p → truthy p = true → trim p = p →
    Forall (fun x => x.2 ≠ TimerFires ∧ x.2 ≠ Disconnect) window →
    triggers rest = [] →
    LateCoalescer.run (window ++ (tf, TimerFires) :: rest) s = Some s' →
    due <= tf ∧
    ∃ c, calls s' = calls s ++ [c] ∧ startedAt c = tf ∧
         coalesce (Some p) (triggers window) = Some (input c).
Proof.
  induction window as [|[t e] window IH];
    intros s s' due tf p rest Hreg Hw Ha Hf Hp Htruthy Htrim Hwindow Hrest;
    cbn [app LateCoalescer.run].
  - destruct (LateCoalescer.step tf TimerFires s) as [s1|] eqn:Hstep; [|done]. intros Hrun.
    unfold LateCoalescer.step in Hstep.
    destruct (clock s <=? tf); cbn [negb] in Hstep; [|done].
    destruct s as [reg [w l q] a f cs n since clk]. cbn in Hreg, Hw, Ha, Hf, Hp.
    subst reg w a f q. cbn in Hstep.
    destruct (due <=? tf) eqn:Hdue; [|done]. apply Z.leb_le in Hdue.
    injection Hstep as <-. co_simpl. rewrite Htruthy, Htrim, Htruthy in Hrun. cbn in Hrun.
    split; [done|]. exists (mkCall since tf p). split_and!; [|done|done].
    apply late_run_without_triggers in Hrun; done.
  - apply Forall_cons in Hwindow as [[Hne1 Hne2] Hwindow]. cbn in Hne1, Hne2.
    destruct (LateCoalescer.step t e s) as [s1|] eqn:Hstep; [|done]. intros Hrun.
    unfold LateCoalescer.step in Hstep.
    destruct (clock s <=? t); cbn [negb] in Hstep; [|done].
    destruct s as [reg [w l q] a f cs n since clk]. cbn in Hreg, Hw, Ha, Hf, Hp.
    subst reg w a f q.
    destruct e as [userInput queueOnly| | |]; try done; cbn [triggers coalesce].
    injection Hstep as <-. unfold triggerChatGPTWithWait in Hrun.
    destruct (truthy (trim userInput)) eqn:Hu; co_simpl.
    + assert (Hrun' : LateCoalescer.run (window ++ (tf, TimerFires) :: rest)
                        (mkState true (mkCallState true l (Some (trim userInput))) [due] []
                           cs n t t) = Some s') by (by destruct queueOnly).
      by apply (IH _ s' due tf (trim userInput) rest) in Hrun';
        try done; try apply trim_idempotent.
    + by apply (IH _ s' due tf p rest) in Hrun.
Qed.

(** A trigger call in queue-only mode on an idle coalescer starts no
    downstream call by itself: it arms the timer.  The timer fires no
    earlier than [waitTime] later; whatever trigger calls arrive before it
    fires, of either mode, exactly one downstream call is made, at the
    moment the timer fires, with the last input that is not blank; and no
    other call follows unless the coalescer is triggered again.  Timers may
    fire late. *)
Theorem queue_only_trigger_waits_one_window :
  ∀ (u : jsstring) (t0 tf : Z) (window rest : list (Z * Event)) (s : State),
    truthy (trim u) = true →
    Forall (fun x => x.2 ≠ TimerFires ∧ x.2 ≠ Disconnect) window →
    triggers rest = [] →
    LateCoalescer.run ((t0, Trigger u true) :: window ++ (tf, TimerFires) :: rest) init
    = Some s →
    t0 + waitTime <= tf ∧
    ∃ c, calls s = [c] ∧ startedAt c = tf ∧
         coalesce (Some (trim u)) (triggers window) = Some (input c).
Proof.
  intros u t0 tf window rest s Hu Hwindow Hrest. cbn [LateCoalescer.run].
  destruct (LateCoalescer.step t0 (Trigger u true) init) as [s1|] eqn:Hstep; [|done].
  intros Hrun. unfold LateCoalescer.step in Hstep.
  destruct (clock init <=? t0); cbn [negb] in Hstep; [|done].
  injection Hstep as <-. unfold triggerChatGPTWithWait in Hrun. co_simpl.
  rewrite Hu in Hrun. cbn in Hrun.
  by apply (late_window_run window _ s (t0 + waitTime) tf (trim u) rest) in Hrun;
    try done; try apply trim_idempotent.
Qed.

End CoalescerMore.

(** ** Sentence chunking *)

Section Sentences.

Lemma spoken_chars_app (s1 s2 : jsstring) :
  spoken_chars (s1 ++ s2) = spoken_chars s1 ++ spoken_chars s2.
Proof. unfold spoken_chars, jsstring in *. apply filter_app. Qed.

Lemma spoken_chars_cons (c : N) (s : jsstring) :
  spoken_chars (c :: s) = if is_terminator c then spoken_chars s else c :: spoken_chars s.
Proof.
  unfold spoken_chars, jsstring in *. destruct (is_terminator c) eqn:Hc.
  - by rewrite filter_cons_False by congruence.
  - by rewrite filter_cons_True.
Qed.

Lemma match_sentences_spoken (s : jsstring) :
  ∀ cur, spoken_chars (concat (match_sentences cur s)) = spoken_chars cur ++ spoken_chars s.
Proof.
  induction s as [|c s IH]; intros cur; cbn [match_sentences].
  - destruct cur; cbn [concat]; by rewrite ?app_nil_r.
  - rewrite (spoken_chars_cons c s). destruct (is_terminator c) eqn:Hc.
    + destruct cur as [|x cur]; [by rewrite IH|].
      cbn [concat]. rewrite spoken_chars_app, IH, spoken_chars_app.
      rewrite (spoken_chars_cons c []), Hc. by rewrite <- !app_assoc.
    + rewrite IH, spoken_chars_app, (spoken_chars_cons c []), Hc.
      by rewrite <- app_assoc.
Qed.

Lemma match_sentences_shape (s : jsstring) :
  ∀ cur x, Forall (fun c => is_terminator c = false) cur → x ∈ match_sentences cur s →
           ∃ body rest,
             x = body ++ rest ∧ body ≠ [] ∧
             Forall (fun c => is_terminator c = false) body ∧
             (rest = [] ∨ ∃ c, rest = [c] ∧ is_terminator c = true).
Proof.
  induction s as [|c s IH]; intros cur x Hcur; cbn [match_sentences].
  - destruct cur as [|y cur]; [by intros ?%elem_of_nil|].
    intros ->%list_elem_of_singleton. exists (y :: cur), [].
    rewrite app_nil_r. split_and!; [done|done|done|by left].
  - destruct (is_terminator c) eqn:Hc.
    + destruct cur as [|y cur]; [by apply IH|].
      intros [->|Hx]%elem_of_cons; [|by apply (IH [])].
      exists (y :: cur), [c]. split_and!; [done|done|done|]. right. by exists c.
    + apply IH. apply Forall_app. split; [done|]. by constructor.
Qed.

End Sentences.

(** Chunking a reply into sentences loses no character other than a
    terminator and keeps the characters in order; and when the reply has a
    character that is not a terminator, every sentence is a run of such
    characters, not empty, followed by at most one terminator. *)
Theorem sentences_keep_what_is_spoken :
  ∀ (reply : jsstring),
    spoken_chars (concat (sentences_of reply)) = spoken_chars reply ∧
    (spoken_chars reply ≠ [] →
     ∀ sentence, sentence ∈ sentences_of reply →
       ∃ body rest,
         sentence = body ++ rest ∧ body ≠ [] ∧
         Forall (fun c => is_terminator c = false) body ∧
         (rest = [] ∨ ∃ c, rest = [c] ∧ is_terminator c = true)).
Proof.
  intros reply. pose proof (match_sentences_spoken reply []) as Hspoken.
  unfold sentences_of. destruct (match_sentences [] reply) as [|m ms] eqn:Hm.
  - cbn [concat] in *. rewrite app_nil_r. split; [done|].
    intros Hne. destruct Hne. symmetry. exact Hspoken.
  - split; [done|].
    intros _ sentence Hin. rewrite <- Hm in Hin.
    by eapply match_sentences_shape.
Qed.

(** ** The trace of a turn *)

Section TurnTrace.

Lemma tokens_of_app (tr1 tr2 : list Obs) :
  tokens_of (tr1 ++ tr2) = tokens_of tr1 ++ tokens_of tr2.
Proof.
  induction tr1 as [|[e|e] tr1 IH]; [done|done|].
  destruct e; cbn [app tokens_of]; try done. by rewrite IH, app_assoc.
Qed.

Lemma audio_chunks_app (tr1 tr2 : list Obs) :
  audio_chunks (tr1 ++ tr2) = audio_chunks tr1 ++ audio_chunks tr2.
Proof.
  induction tr1 as [|[e|e] tr1 IH]; [done|done|].
  destruct e; cbn [app audio_chunks]; try done. by rewrite IH.
Qed.

Lemma tokens_of_late (tr : list Obs) :
  (∀ x, Sent x ∈ tr → late_event x) → tokens_of tr = [].
Proof.
  induction tr as [|o tr IH]; intros Hlate; [done|].
  assert (IH' : tokens_of tr = []) by (apply IH; intros x Hx; apply Hlate; by right).
  destruct o as [e|e]; [done|].
  pose proof (Hlate e (list_elem_of_here _ _)) as He.
  by destruct e.
Qed.

Lemma audio_chunks_handler (tr : list Obs) :
  (∀ x, Sent x ∈ tr → handler_event x) → audio_chunks tr = [].
Proof.
  induction tr as [|o tr IH]; intros Hquiet; [done|].
  assert (IH' : audio_chunks tr = []) by (apply IH; intros x Hx; apply Hquiet; by right).
  destruct o as [e|e]; [done|].
  pose proof (Hquiet e (list_elem_of_here _ _)) as He.
  by destruct e.
Qed.

Lemma after_audio_done_app (tr1 tr2 : list Obs) :
  (∀ id, Sent (AiAudioDone id) ∉ tr1) →
  after_audio_done (tr1 ++ tr2) = after_audio_done tr2.
Proof.
  induction tr1 as [|o tr1 IH]; intros Hnone; [done|].
  assert (IH' : after_audio_done (tr1 ++ tr2) = after_audio_done tr2).
  { apply IH. intros id Hin. apply (Hnone id). by right. }
  destruct o as [e|e]; [done|].
  destruct e; try done. destruct (Hnone id). by left.
Qed.

Lemma handler_not_audio_done (tr : list Obs) :
  (∀ x, Sent x ∈ tr → handler_event x) → ∀ id, Sent (AiAudioDone id) ∉ tr.
Proof. intros Hquiet id Hin. by destruct (Hquiet _ Hin). Qed.

(** Once the activation has returned only the handlers send. *)
Lemma run_returned (socketId : string) (script : list (list ClientEvent * Resume))
    (σ : Server) (x : Emit) :
  Sent x ∈ (run_turn socketId script Returned σ).2 → handler_event x.
Proof.
  destruct script as [|[during r] script]; cbn [run_turn].
  { cbn. by intros ?%elem_of_nil. }
  pose proof (handle_all_sent socketId during σ x) as Hh.
  destruct (handle_all socketId during σ) as [σ1 tr1]. by destruct r.
Qed.

Lemma streamTextToSpeech_next_spec (socketId : string) (σ : Server)
    (sentences : list jsstring) :
  match streamTextToSpeech_next socketId σ sentences with
  | Some (_, rest) =>
      length (filter (fun sentence => truthy (trim sentence) = true) sentences)
      = S (length (filter (fun sentence => truthy (trim sentence) = true) rest))
  | None => filter (fun sentence => truthy (trim sentence) = true) sentences = []
  end.
Proof.
  induction sentences as [|sentence rest IH]; cbn [streamTextToSpeech_next]; [done|].
  destruct (truthy (trim sentence)) eqn:Hs; cbn [negb].
  - rewrite Z.eqb_refl. cbn [negb]. by rewrite filter_cons_True.
  - rewrite filter_cons_False by congruence. exact IH.
Qed.

(** While the reply is synthesized: one audio chunk for the unit awaited
    and one for each sentence left that is not blank, and none after
    [ai-audio-done]. *)
Lemma run_synthesizing (socketId : string) (script : list (list ClientEvent * Resume)) :
  ∀ (t : Turn) (unit : jsstring) (rest : list jsstring) (σ : Server) (id : Z) (x : jsstring),
    Sent (AiResponse id x) ∈ (run_turn socketId script (Synthesizing t unit rest) σ).2 →
    x = aiResponse t ∧
    length (audio_chunks (run_turn socketId script (Synthesizing t unit rest) σ).2)
    = S (length (filter (fun sentence => truthy (trim sentence) = true) rest)) ∧
    audio_chunks (after_audio_done (run_turn socketId script (Synthesizing t unit rest) σ).2)
    = [].
Proof.
  induction script as [|[during r] script IH]; intros t unit rest σ id x; cbn [run_turn].
  { cbn. by intros ?%elem_of_nil. }
  pose proof (handle_all_sent socketId during σ) as Hh.
  destruct (handle_all socketId during σ) as [σ1 tr1]. cbn [snd] in Hh.
  pose proof (audio_chunks_handler tr1 Hh) as Hchunks1.
  pose proof (handler_not_audio_done tr1 Hh) as Hdone1.
  destruct r as [now| |token|now| |audio]; cbn [turn_step];
    try (cbn [snd]; intros Hin; by destruct (Hh _ Hin)).
  unfold streamTextToSpeech.
  pose proof (streamTextToSpeech_next_spec (turn_socketId t) σ1 rest) as Hnext.
  destruct (streamTextToSpeech_next (turn_socketId t) σ1 rest) as [[u' rest']|].
  - specialize (IH t u' rest' σ1 id x).
    destruct (run_turn socketId script (Synthesizing t u' rest') σ1) as [[σ3 ts3] tr3].
    cbn [snd fmap list_fmap app] in *.
    intros [Hin|Hin]%elem_of_app; [by destruct (Hh _ Hin)|].
    apply elem_of_cons in Hin as [?|Hin]; [done|].
    destruct (IH Hin) as (-> & Hlen & Hafter). split_and!; [done| |].
    + rewrite audio_chunks_app, Hchunks1. cbn [app audio_chunks length].
      by rewrite Hlen, Hnext.
    + by rewrite after_audio_done_app.
  - pose proof (run_returned socketId script σ1) as Hret.
    destruct (run_turn socketId script Returned σ1) as [[σ3 ts3] tr3].
    cbn [snd fmap list_fmap app] in *.
    pose proof (audio_chunks_handler tr3 Hret) as Hchunks3.
    intros [Hin|Hin]%elem_of_app; [by destruct (Hh _ Hin)|].
    assert (Hx : x = aiResponse t).
    { apply elem_of_cons in Hin as [?|Hin]; [done|].
      apply elem_of_cons in Hin as [?|Hin]; [done|].
      apply elem_of_cons in Hin as [[= _ ->]|Hin]; [done|].
      by destruct (Hret _ Hin). }
    split_and!; [done| |].
    + rewrite audio_chunks_app, Hchunks1. cbn [app audio_chunks length].
      by rewrite Hchunks3, Hnext.
    + rewrite after_audio_done_app by done. by cbn [after_audio_done audio_chunks].
Qed.

Ltac peel H :=
  repeat (apply elem_of_app in H as [H|H] || apply elem_of_cons in H as [H|H]);
  try discriminate H.

(** While the reply is awaited or streamed: the text of [ai-message-done]
    and of [ai-response] is what the activation had accumulated followed by
    the tokens sent from here on. *)
Lemma run_streaming (socketId : string) (script : list (list ClientEvent * Resume)) :
  ∀ (ts : TurnState) (t : Turn) (σ : Server) (id : Z) (x : jsstring),
    ts = AwaitCreate t ∨ ts = Streaming t →
    (Sent (AiMessageDone id x) ∈ (run_turn socketId script ts σ).2 ∨
     Sent (AiResponse id x) ∈ (run_turn socketId script ts σ).2) →
    x = aiResponse t ++ tokens_of (run_turn socketId script ts σ).2 ∧
    (Sent (AiResponse id x) ∈ (run_turn socketId script ts σ).2 →
     length (audio_chunks (run_turn socketId script ts σ).2) = length (spoken_units x) ∧
     audio_chunks (after_audio_done (run_turn socketId script ts σ).2) = []).
Proof.
  induction script as [|[during r] script IH]; intros ts t σ id x Hts; cbn [run_turn].
  { cbn. by intros [?%elem_of_nil|?%elem_of_nil]. }
  pose proof (handle_all_sent socketId during σ) as Hh.
  destruct (handle_all socketId during σ) as [σ1 tr1]. cbn [snd] in Hh.
  pose proof (audio_chunks_handler tr1 Hh) as Hchunks1.
  pose proof (handler_not_audio_done tr1 Hh) as Hdone1.
  assert (Htokens1 : tokens_of tr1 = []).
  { apply tokens_of_late. intros y Hy. by apply handler_event_late, Hh. }
  assert (Hquiet : ∀ tr3 pre,
            (∀ y, Sent y ∈ tr3 → handler_event y) →
            Forall (fun y => ∀ i z, y ≠ AiMessageDone i z ∧ y ≠ AiResponse i z) pre →
            Sent (AiMessageDone id x) ∈ tr1 ++ (Sent <$> pre) ++ tr3 ∨
            Sent (AiResponse id x) ∈ tr1 ++ (Sent <$> pre) ++ tr3 → False).
  { intros tr3 pre H3 Hpre [Hin|Hin];
      apply elem_of_app in Hin as [Hin|Hin]; try (by destruct (Hh _ Hin));
      apply elem_of_app in Hin as [Hin|Hin]; try (by destruct (H3 _ Hin));
      apply list_elem_of_fmap in Hin as (y & [= <-] & Hy);
      rewrite Forall_forall in Hpre; by destruct (Hpre _ Hy id x). }
  destruct Hts as [-> | ->].
  - (* the request is being opened *)
    destruct r as [now| |token|now| |audio]; cbn [turn_step];
      try (cbn [snd]; intros [Hin|Hin]; by destruct (Hh _ Hin)).
    + specialize (IH (Streaming (with_aiMessageId now t)) (with_aiMessageId now t) σ1 id x
                    (or_intror eq_refl)).
      destruct (run_turn socketId script (Streaming (with_aiMessageId now t)) σ1)
        as [[σ3 ts3] tr3].
      cbn [snd fmap list_fmap app aiResponse with_aiMessageId] in *.
      intros Hin.
      assert (Hin3 : Sent (AiMessageDone id x) ∈ tr3 ∨ Sent (AiResponse id x) ∈ tr3).
      { destruct Hin as [Hin|Hin]; peel Hin; try (by destruct (Hh _ Hin)); by auto. }
      destruct (IH Hin3) as [Hx Hresp]. split.
      * by rewrite tokens_of_app, Htokens1.
      * intros Hin'.
        assert (Hin3' : Sent (AiResponse id x) ∈ tr3)
          by (peel Hin'; try (by destruct (Hh _ Hin')); done).
        destruct (Hresp Hin3') as [Hlen Hafter]. split.
        -- by rewrite audio_chunks_app, Hchunks1.
        -- by rewrite after_audio_done_app.
    + pose proof (run_returned socketId script σ1) as Hret.
      destruct (run_turn socketId script Returned σ1) as [[σ3 ts3] tr3].
      cbn [snd] in *. intros Hin. destruct (Hquiet tr3 catch_emits Hret); [|done].
      unfold catch_emits. by repeat constructor.
  - (* the reply is streamed *)
    destruct r as [now| |token|now| |audio]; cbn [turn_step];
      try (cbn [snd]; intros [Hin|Hin]; by destruct (Hh _ Hin)).
    + destruct (negb (version_of σ1 (turn_socketId t) =? versionAtStart t)).
      { pose proof (run_returned socketId script σ1) as Hret.
        destruct (run_turn socketId script Returned σ1) as [[σ3 ts3] tr3].
        cbn [snd] in *. intros Hin. destruct (Hquiet tr3 [AiTyping false] Hret); [|done].
        by repeat constructor. }
      destruct (truthy token) eqn:Htoken.
      * specialize (IH (Streaming (with_aiResponse (aiResponse t ++ token) t))
                      (with_aiResponse (aiResponse t ++ token) t) σ1 id x
                      (or_intror eq_refl)).
        destruct (run_turn socketId script
                    (Streaming (with_aiResponse (aiResponse t ++ token) t)) σ1)
          as [[σ3 ts3] tr3].
        cbn [snd fmap list_fmap app aiResponse with_aiResponse] in *.
        intros Hin.
        assert (Hin3 : Sent (AiMessageDone id x) ∈ tr3 ∨ Sent (AiResponse id x) ∈ tr3).
        { destruct Hin as [Hin|Hin]; peel Hin; try (by destruct (Hh _ Hin)); by auto. }
        destruct (IH Hin3) as [Hx Hresp]. split.
        -- rewrite tokens_of_app, Htokens1. cbn [app tokens_of].
           by rewrite Hx, <- app_assoc.
        -- intros Hin'.
           assert (Hin3' : Sent (AiResponse id x) ∈ tr3)
             by (peel Hin'; try (by destruct (Hh _ Hin')); done).
           destruct (Hresp Hin3') as [Hlen Hafter]. split.
           ++ by rewrite audio_chunks_app, Hchunks1.
           ++ by rewrite after_audio_done_app.
      * specialize (IH (Streaming t) t σ1 id x (or_intror eq_refl)).
        destruct (run_turn socketId script (Streaming t) σ1) as [[σ3 ts3] tr3].
        cbn [snd fmap list_fmap app] in *.
        intros Hin.
        assert (Hin3 : Sent (AiMessageDone id x) ∈ tr3 ∨ Sent (AiResponse id x) ∈ tr3).
        { destruct Hin as [Hin|Hin]; peel Hin; try (by destruct (Hh _ Hin)); by auto. }
        destruct (IH Hin3) as [Hx Hresp]. split.
        -- by rewrite tokens_of_app, Htokens1.
        -- intros Hin'.
           assert (Hin3' : Sent (AiResponse id x) ∈ tr3)
             by (peel Hin'; try (by destruct (Hh _ Hin')); done).
           destruct (Hresp Hin3') as [Hlen Hafter]. split.
           ++ by rewrite audio_chunks_app, Hchunks1.
           ++ by rewrite after_audio_done_app.
    + (* the stream ends *)
      unfold streamTextToSpeech.
      pose proof (streamTextToSpeech_next_spec (turn_socketId t) (record_reply now t σ1)
                    (sentences_of (aiResponse t))) as Hnext.
      destruct (streamTextToSpeech_next (turn_socketId t) (record_reply now t σ1)
                  (sentences_of (aiResponse t))) as [[u rest]|].
      * pose proof (run_synthesizing socketId script t u rest (record_reply now t σ1) id x)
          as Hsynth.
        pose proof (run_past_stream_sent socketId script (Synthesizing t u rest)
                      (record_reply now t σ1)) as Hlate.
        destruct (run_turn socketId script (Synthesizing t u rest) (record_reply now t σ1))
          as [[σ3 ts3] tr3].
        cbn [snd fmap list_fmap app] in *.
        assert (Htokens3 : tokens_of tr3 = []).
        { apply tokens_of_late. intros y Hy. by apply Hlate. }
        intros Hin.
        assert (Hx : x = aiResponse t).
        { destruct Hin as [Hin|Hin]; peel Hin; try (by destruct (Hh _ Hin)).
          - by injection Hin as _ ->.
          - by destruct (Hlate _ I Hin).
          - by destruct (Hsynth Hin). }
        split.
        -- rewrite tokens_of_app, Htokens1. cbn [app tokens_of].
           by rewrite Htokens3, app_nil_r.
        -- intros Hin'.
           assert (Hin3' : Sent (AiResponse id x) ∈ tr3)
             by (peel Hin'; try (by destruct (Hh _ Hin')); done).
           destruct (Hsynth Hin3') as (_ & Hlen & Hafter). split.
           ++ rewrite audio_chunks_app, Hchunks1. cbn [app audio_chunks].
              rewrite Hlen, Hx. unfold spoken_units. by rewrite Hnext.
           ++ by rewrite after_audio_done_app.
      * pose proof (run_returned socketId script (record_reply now t σ1)) as Hret.
        destruct (run_turn socketId script Returned (record_reply now t σ1))
          as [[σ3 ts3] tr3].
        cbn [snd fmap list_fmap app] in *.
        pose proof (audio_chunks_handler tr3 Hret) as Hchunks3.
        assert (Htokens3 : tokens_of tr3 = []).
        { apply tokens_of_late. intros y Hy. by apply handler_event_late, Hret. }
        intros Hin.
        assert (Hx : x = aiResponse t).
        { destruct Hin as [Hin|Hin]; peel Hin; try (by destruct (Hh _ Hin));
            try (by destruct (Hret _ Hin)); by injection Hin as _ ->. }
        split.
        -- rewrite tokens_of_app, Htokens1. cbn [app tokens_of].
           by rewrite Htokens3, app_nil_r.
        -- intros _. split.
           ++ rewrite audio_chunks_app, Hchunks1. cbn [app audio_chunks].
              rewrite Hchunks3, Hx. unfold spoken_units. by rewrite Hnext.
           ++ rewrite after_audio_done_app by done.
              by cbn [after_audio_done audio_chunks].
    + pose proof (run_returned socketId script σ1) as Hret.
      destruct (run_turn socketId script Returned σ1) as [[σ3 ts3] tr3].
      cbn [snd] in *. intros Hin. destruct (Hquiet tr3 catch_emits Hret); [|done].
      unfold catch_emits. by repeat constructor.
Qed.

End TurnTrace.

Section TurnOutcome.

Lemma processWithChatGPT_begin_out (env : option jsstring) (now : Z) (userInput : jsstring)
    (socketId : string) (σ : Server) :
  aiResponse (processWithChatGPT_begin env now userInput socketId σ).1.1.2 = [] ∧
  ∃ isVoice, (processWithChatGPT_begin env now userInput socketId σ).2
             = [MessageReceived userInput isVoice now; AiTyping true].
Proof.
  unfold processWithChatGPT_begin.
  destruct (conversationHistory σ !! socketId) as [r|]; srv; split; by eauto.
Qed.

Lemma processWithChatGPT_trace (env : option jsstring) (now : Z) (userInput : jsstring)
    (socketId : string) (script : list (list ClientEvent * Resume)) (σ : Server) :
  ∃ (isVoice : bool) (t : Turn) (σ1 : Server),
    aiResponse t = [] ∧
    (processWithChatGPT env now userInput socketId script σ).2
    = Sent (MessageReceived userInput isVoice now) :: Sent (AiTyping true)
      :: (run_turn socketId script (AwaitCreate t) σ1).2.
Proof.
  unfold processWithChatGPT.
  destruct (processWithChatGPT_begin_out env now userInput socketId σ)
    as (Ht & isVoice & Hout).
  destruct (processWithChatGPT_begin env now userInput socketId σ) as [[[σ1 t] messages] out].
  cbn [fst snd] in Ht, Hout. subst out.
  exists isVoice, t, σ1. split; [done|].
  by destruct (run_turn socketId script (AwaitCreate t) σ1) as [[σ2 ts] tr].
Qed.

End TurnOutcome.

(** The text of [ai-message-done], and of [ai-response], is the
    concatenation of the tokens sent to the client during the turn, in the
    order they were sent. *)
Theorem reply_is_the_tokens_sent :
  ∀ (env : option jsstring) (now : Z) (userInput : jsstring) (socketId : string)
    (script : list (list ClientEvent * Resume)) (σ : Server) (id : Z) (reply : jsstring),
    Sent (AiMessageDone id reply) ∈ (processWithChatGPT env now userInput socketId script σ).2 ∨
    Sent (AiResponse id reply) ∈ (processWithChatGPT env now userInput socketId script σ).2 →
    reply = tokens_of (processWithChatGPT env now userInput socketId script σ).2.
Proof.
  intros env now userInput socketId script σ id reply.
  destruct (processWithChatGPT_trace env now userInput socketId script σ)
    as (isVoice & t & σ1 & Ht & ->).
  intros Hin. cbn [tokens_of].
  assert (Hin' : Sent (AiMessageDone id reply) ∈ (run_turn socketId script (AwaitCreate t) σ1).2 ∨
                 Sent (AiResponse id reply) ∈ (run_turn socketId script (AwaitCreate t) σ1).2).
  { destruct Hin as [Hin|Hin];
      apply elem_of_cons in Hin as [?|Hin]; try done;
      apply elem_of_cons in Hin as [?|Hin]; try done; by auto. }
  destruct (run_streaming socketId script (AwaitCreate t) t σ1 id reply (or_introl eq_refl) Hin')
    as [Hx _].
  by rewrite Ht in Hx.
Qed.

(** A turn that sends [ai-response] has sent one audio chunk for every
    sentence of the reply that is not blank, an interrupt or not, and none
    after [ai-audio-done]. *)
Theorem one_audio_chunk_per_spoken_sentence :
  ∀ (env : option jsstring) (now : Z) (userInput : jsstring) (socketId : string)
    (script : list (list ClientEvent * Resume)) (σ : Server) (id : Z) (reply : jsstring),
    Sent (AiResponse id reply) ∈ (processWithChatGPT env now userInput socketId script σ).2 →
    length (audio_chunks (processWithChatGPT env now userInput socketId script σ).2)
    = length (spoken_units reply) ∧
    audio_chunks (after_audio_done (processWithChatGPT env now userInput socketId script σ).2)
    = [].
Proof.
  intros env now userInput socketId script σ id reply.
  destruct (processWithChatGPT_trace env now userInput socketId script σ)
    as (isVoice & t & σ1 & Ht & ->).
  intros Hin. cbn [audio_chunks after_audio_done].
  assert (Hin' : Sent (AiResponse id reply) ∈ (run_turn socketId script (AwaitCreate t) σ1).2).
  { apply elem_of_cons in Hin as [?|Hin]; [done|].
    by apply elem_of_cons in Hin as [?|Hin]. }
  destruct (run_streaming socketId script (AwaitCreate t) t σ1 id reply (or_introl eq_refl)
              (or_intror Hin')) as [_ Hresp].
  by apply Hresp.
Qed.

(** ** The language of a recognition request *)

(** Both recognition paths pass on the language the client last set: after
    [set-language], a request for recognition, of a whole recording or of a
    partial one, carries the audio it was given and names the language set,
    trimmed; it names none when that language is missing, blank or [auto]. *)
Theorem recognition_carries_language_preference :
  ∀ (language : option jsstring) (socketId : string) (σ : Server) (audio : Buffer),
    let lang := trim (or_else language (js "auto")) in
    let hint := if bool_decide (lang = [] ∨ lang = js "auto") then None else Some lang in
    let σ1 := (on_set_language language socketId σ).1 in
    (∃ σ2 controller,
       processCompleteAudio_step socketId FileReady (AwaitFile audio) σ1
       = Some (σ2, AwaitRecognition (mkRequest audio hint controller), [])) ∧
    (∃ σ2 controller,
       partialTranscription_step socketId FileReady (AwaitFile audio) σ1
       = Some (σ2, AwaitRecognition (mkRequest audio hint controller), [])).
Proof.
  intros language socketId σ audio lang hint σ1.
  assert (Hhint : ∀ σ0, conversationPreferences σ0 = conversationPreferences σ1 →
            languageHint (default (mkPrefs (js "auto") None)
                            (conversationPreferences σ0 !! socketId)) = hint).
  { intros σ0 ->. unfold σ1, on_set_language. fold lang. srv.
    rewrite lookup_insert_eq. cbn [default from_option id]. unfold languageHint, hint.
    cbn [targetLanguage]. unfold jsstring_eqb. clear. clearbody lang.
    destruct (decide (lang = [])) as [Heq|Hne].
    - rewrite (bool_decide_eq_true_2 (lang = [])) by done.
      rewrite (bool_decide_eq_true_2 (js "auto" = js "auto")) by done.
      by rewrite bool_decide_eq_true_2 by by left.
    - rewrite (bool_decide_eq_false_2 (lang = [])) by done.
      destruct (decide (lang = js "auto")) as [Heq|Hne'].
      + rewrite (bool_decide_eq_true_2 (lang = js "auto")) by done.
        by rewrite bool_decide_eq_true_2 by by right.
      + rewrite (bool_decide_eq_false_2 (lang = js "auto")) by done.
        by rewrite bool_decide_eq_false_2 by by intros [?|?]. }
  split.
  - unfold processCompleteAudio_step.
    destruct (recognition_request audio socketId _) as [σ2 request] eqn:Hq.
    apply recognition_request_spec in Hq as (-> & _).
    rewrite Hhint by done. by eexists _, _.
  - unfold partialTranscription_step.
    destruct (recognition_request audio socketId σ1) as [σ2 request] eqn:Hq.
    apply recognition_request_spec in Hq as (-> & _).
    rewrite Hhint by done. by eexists _, _.
Qed.

(** ** The further properties at concrete inputs *)

(** Two chunks, the second marked final, on a fresh session. *)
Lemma finalize_recognizes_all_audio_witness :
  (on_audio_stream_final ["002"%byte] "s1"
     (handle_all "s1" [EvAudioChunk ["001"%byte]] (on_connection "s1" emptyServer)).1).2
  = AwaitFile (concat ([] ++ [["001"%byte]] ++ [["002"%byte]])).
Proof.
  refine (proj1 (finalize_recognizes_all_audio (on_connection "s1" emptyServer) "s1"
                   [] [["001"%byte]] ["002"%byte] _ _ _ _)).
  - vm_compute; reflexivity.
  - apply not_elem_of_empty.
  - by vm_compute.
  - by vm_compute.
Defined.

(** A second final chunk arrives while the first recording is recognized. *)
Lemma dropped_finalize_clears_guard_witness :
  "s1" ∉ processingSockets
           (processCompleteAudio_begin "s1"
              (handle_all "s1" [EvAudioChunk ["002"%byte]]
                 (on_audio_stream_final ["001"%byte] "s1"
                    (on_connection "s1" emptyServer)).1).1).1.
Proof.
  refine (proj1 (proj2 (proj2
    (dropped_finalize_clears_guard
       (handle_all "s1" [EvAudioChunk ["002"%byte]]
          (on_audio_stream_final ["001"%byte] "s1" (on_connection "s1" emptyServer)).1).1
       "s1" ["002"%byte] [] _ _)))).
  - vm_compute; reflexivity.
  - vm_compute; reflexivity.
Defined.

(** One byte is buffered when the debounce timer fires. *)
Lemma partial_transcription_needs_9000_bytes_witness :
  (partialTranscription_begin "s1"
     (handle_all "s1" [EvAudioChunk ["001"%byte]] (on_connection "s1" emptyServer)).1).2
  = AudioReturned.
Proof.
  refine (proj1 (proj2 (proj2
    (partial_transcription_needs_9000_bytes
       (handle_all "s1" [EvAudioChunk ["001"%byte]] (on_connection "s1" emptyServer)).1
       "s1" [["001"%byte]] _ _)) _)).
  - vm_compute; reflexivity.
  - apply not_elem_of_empty.
  - by vm_compute.
Defined.

(** Two interrupts around the start of a recording. *)
Lemma version_counts_interrupts_witness :
  version_of
    (handle_all "s1" [EvInterrupt; EvStartRecording; EvInterrupt]
       (on_connection "s1" emptyServer)).1 "s1"
  = version_of (on_connection "s1" emptyServer) "s1"
    + Z.of_nat (interrupts_in [EvInterrupt; EvStartRecording; EvInterrupt]).
Proof.
  apply (version_counts_interrupts "s1" [EvInterrupt; EvStartRecording; EvInterrupt]).
  repeat (apply not_elem_of_cons; split; [discriminate|]). apply not_elem_of_nil.
Defined.

(** Two chunks in a row: the timer of the first is replaced. *)
Lemma one_debounce_timer_per_socket_witness :
  sttDebounceTimers
    (run_tasks [TaskConnection "s1"; TaskClient "s1" (EvAudioChunk ["001"%byte]);
                TaskClient "s1" (EvAudioChunk ["002"%byte])] emptyServer) !! "s1"
  = Some 2%nat.
Proof.
  refine (proj2 (proj2
    (one_debounce_timer_per_socket
       [TaskConnection "s1"; TaskClient "s1" (EvAudioChunk ["001"%byte]);
        TaskClient "s1" (EvAudioChunk ["002"%byte])] "s1" 2%nat 2%nat 350 350 _ _))).
  - vm_compute; reflexivity.
  - vm_compute; reflexivity.
Defined.

(** A turn has begun. *)
Lemma no_controller_for_synthesis_witness :
  ∃ c, controllersBySocket
         (run_tasks [TaskConnection "s1"; TaskTurnBegin None 1 (js "hi") "s1"] emptyServer)
       !! "s1" = Some c ∧ tts c = None.
Proof.
  eexists. split; [vm_compute; reflexivity|].
  apply (no_controller_for_synthesis
           [TaskConnection "s1"; TaskTurnBegin None 1 (js "hi") "s1"] "s1").
  vm_compute; reflexivity.
Defined.

(** A partial recognition is requested, then the final chunk arrives and
    the recording is recognized, then the client interrupts. *)
Lemma interrupt_misses_overwritten_controller_witness :
  ∃ σ1 σ2 σ3 request1 request2,
    partialTranscription_step "s1" FileReady (AwaitFile ["001"%byte])
      (run_tasks [TaskConnection "s1"] emptyServer)
    = Some (σ1, AwaitRecognition request1, []) ∧
    on_audio_stream_final ["002"%byte] "s1" σ1 = (σ2, AwaitFile ["002"%byte]) ∧
    processCompleteAudio_step "s1" FileReady (AwaitFile ["002"%byte]) σ2
    = Some (σ3, AwaitRecognition request2, []) ∧
    request_controller request2 ∈ aborted (on_interrupt "s1" σ3).1 ∧
    request_controller request1 ∉ aborted (on_interrupt "s1" σ3).1.
Proof.
  pose (r1 := recognition_request ["001"%byte] "s1"
                (run_tasks [TaskConnection "s1"] emptyServer)).
  pose (σ2 := (on_audio_stream_final ["002"%byte] "s1" r1.1).1).
  pose (r2 := recognition_request ["002"%byte] "s1"
                (set_lastInputSource <["s1" := voice]> σ2)).
  assert (H1 : partialTranscription_step "s1" FileReady (AwaitFile ["001"%byte])
                 (run_tasks [TaskConnection "s1"] emptyServer)
               = Some (r1.1, AwaitRecognition r1.2, [])) by (vm_compute; reflexivity).
  assert (H2 : on_audio_stream_final ["002"%byte] "s1" r1.1 = (σ2, AwaitFile ["002"%byte]))
    by (vm_compute; reflexivity).
  assert (H3 : processCompleteAudio_step "s1" FileReady (AwaitFile ["002"%byte]) σ2
               = Some (r2.1, AwaitRecognition r2.2, [])) by (vm_compute; reflexivity).
  exists r1.1, σ2, r2.1, r1.2, r2.2. split_and!; [exact H1|exact H2|exact H3|..];
    apply (interrupt_misses_overwritten_controller [TaskConnection "s1"] "s1"
             ["001"%byte] ["002"%byte] ["002"%byte] _ _ _ _ _ H1 H2 H3).
Defined.

(** Two clients are connected; the second has sent audio and begun a turn;
    the stream of a turn of the first ends.  The reply of the first is
    recorded, and nothing of the second moves. *)
Lemma tasks_leave_other_sessions_witness :
  let xs := [LoopConnection "s1"; LoopConnection "s2";
             LoopClient "s2" (EvAudioChunk ["001"%byte]);
             LoopTurnBegin None 1 (js "hi") "s2";
             LoopTurnBegin None 2 (js "hello") "s1";
             LoopTurnStep 1 (Created 3); LoopTurnStep 1 (Part (js "Hey."))] in
  let l := loop_run xs loop_initial in
  let l' := loop_step (LoopTurnStep 1 (StreamEnd 4)) l in
  history_of (loop_server l') "s1"
  = [mkMessage user (js "hello") 2; mkMessage assistant (js "Hey.") 4] ∧
  history_of (loop_server l') "s2" = [mkMessage user (js "hi") 1] ∧
  session_view (loop_server l') "s2" = session_view (loop_server l) "s2" ∧
  loop_turns l' !! 0%nat = Some (AwaitCreate (mkTurn "s2" (js "hi") 1 0 0 [])) ∧
  timers (loop_server l') !! 2%nat = Some (PartialTranscription "s2" 350) ∧
  (3%nat ∈ aborted (loop_server l') ↔ 3%nat ∈ aborted (loop_server l)).
Proof.
  intros xs l l'.
  assert (Hs : loop_socket (LoopTurnStep 1 (StreamEnd 4)) l = Some "s1")
    by (vm_compute; reflexivity).
  assert (Hne : "s1" ≠ "s2") by done.
  assert (H0 : loop_turns l !! 0%nat = Some (AwaitCreate (mkTurn "s2" (js "hi") 1 0 0 [])))
    by (vm_compute; reflexivity).
  assert (H2 : timers (loop_server l) !! 2%nat = Some (PartialTranscription "s2" 350))
    by (vm_compute; reflexivity).
  assert (H3 : loop_owners l !! 3%nat = Some "s2") by (vm_compute; reflexivity).
  destruct (tasks_leave_other_sessions xs (LoopTurnStep 1 (StreamEnd 4)) "s1" "s2" Hs Hne)
    as (Hv & Hh & Ht & Htim & _ & Hown & _).
  split_and!.
  - vm_compute; reflexivity.
  - etrans; [exact Hh|]. vm_compute; reflexivity.
  - exact Hv.
  - by apply (Ht 0%nat _ (mkTurn "s2" (js "hi") 1 0 0 []) H0).
  - by apply Htim.
  - by apply Hown.
Defined.

(** One trigger call with blanks around its input. *)
Lemma every_call_answers_a_trigger_witness :
  ∃ s c,
    Coalescer.run [(0, Coalescer.Trigger (js " A ") false)] Coalescer.init = Some s ∧
    c ∈ Coalescer.calls s ∧
    truthy (Coalescer.input c) = true ∧ Coalescer.queuedAt c <= Coalescer.startedAt c ∧
    ∃ u q, (Coalescer.queuedAt c, u, q)
             ∈ Coalescer.triggers [(0, Coalescer.Trigger (js " A ") false)] ∧
           Coalescer.input c = trim u.
Proof.
  eexists _, (Coalescer.mkCall 0 0 (js "A")).
  split; [vm_compute; reflexivity|].
  split; [by left|].
  refine (CoalescerMore.every_call_answers_a_trigger
            [(0, Coalescer.Trigger (js " A ") false)] _ _ _ _);
    [vm_compute; reflexivity|by left].
Defined.

(** A blank input followed by one that is not. *)
Lemma notices_count_blank_triggers_witness :
  ∃ s,
    Coalescer.run [(0, Coalescer.Trigger (js " ") false);
                   (10, Coalescer.Trigger (js "a") false)] Coalescer.init = Some s ∧
    Coalescer.notices s
    = length (blank_triggers [(0, Coalescer.Trigger (js " ") false);
                              (10, Coalescer.Trigger (js "a") false)]).
Proof.
  eexists. split; [vm_compute; reflexivity|].
  apply (CoalescerMore.notices_count_blank_triggers
           [(0, Coalescer.Trigger (js " ") false); (10, Coalescer.Trigger (js "a") false)]).
  vm_compute; reflexivity.
Defined.

(** The socket disconnects with an input pending. *)
Lemma no_call_after_disconnect_witness :
  ∃ s1 s2 s3,
    Coalescer.run [(0, Coalescer.Trigger (js "A") false);
                   (50, Coalescer.Trigger (js "B") false)] Coalescer.init = Some s1 ∧
    Coalescer.step 100 Coalescer.Disconnect s1 = Some s2 ∧
    Coalescer.run [(3000, Coalescer.CallDone); (3400, Coalescer.TimerFires)] s2 = Some s3 ∧
    Coalescer.calls s3 = Coalescer.calls s1.
Proof.
  eexists _, _, _.
  split; [vm_compute; reflexivity|].
  split; [vm_compute; reflexivity|].
  split; [vm_compute; reflexivity|].
  refine (CoalescerMore.no_call_after_disconnect
            [(0, Coalescer.Trigger (js "A") false); (50, Coalescer.Trigger (js "B") false)]
            [(3000, Coalescer.CallDone); (3400, Coalescer.TimerFires)] 100 _ _ _ _ _ _);
    vm_compute; reflexivity.
Defined.

(** A partial result, then a correction of it; the timer fires 30 ms
    late. *)
Lemma queue_only_trigger_waits_one_window_witness :
  ∃ s,
    LateCoalescer.run
      ((0, Coalescer.Trigger (js "hello the") true) ::
       [(200, Coalescer.Trigger (js "hello there") true)] ++
       (430, Coalescer.TimerFires) ::
       [(1000, Coalescer.CallDone); (1400, Coalescer.TimerFires)]) Coalescer.init = Some s ∧
    0 + Coalescer.waitTime <= 430 ∧
    ∃ c, Coalescer.calls s = [c] ∧ Coalescer.startedAt c = 430 ∧
         Coalescer.coalesce (Some (trim (js "hello the")))
           (Coalescer.triggers [(200, Coalescer.Trigger (js "hello there") true)])
         = Some (Coalescer.input c).
Proof.
  eexists. split; [vm_compute; reflexivity|].
  refine (CoalescerMore.queue_only_trigger_waits_one_window (js "hello the") 0 430
            [(200, Coalescer.Trigger (js "hello there") true)]
            [(1000, Coalescer.CallDone); (1400, Coalescer.TimerFires)] _ _ _ _ _).
  - vm_compute; reflexivity.
  - repeat constructor; discriminate.
  - reflexivity.
  - vm_compute; reflexivity.
Defined.

(** A reply of two tokens. *)
Lemma reply_is_the_tokens_sent_witness :
  js "Hi there!"
  = tokens_of
      (processWithChatGPT None 1 (js "hello") "s1"
         [([], Created 2); ([], Part (js "Hi")); ([], Part []); ([], Part (js " there!"));
          ([], StreamEnd 3); ([], Synth (Some ["001"%byte]))]
         (on_connection "s1" emptyServer)).2.
Proof.
  apply (reply_is_the_tokens_sent None 1 (js "hello") "s1"
           [([], Created 2); ([], Part (js "Hi")); ([], Part []); ([], Part (js " there!"));
            ([], StreamEnd 3); ([], Synth (Some ["001"%byte]))]
           (on_connection "s1" emptyServer) 2).
  left. rewrite scenario_text_input. repeat constructor.
Defined.

(** A reply of two sentences, with an interrupt during the synthesis of
    the first. *)
Lemma one_audio_chunk_per_spoken_sentence_witness :
  length
    (audio_chunks
       (processWithChatGPT None 1 (js "hello") "s1"
          [([], Created 2); ([], Part (js "One. Two.")); ([], StreamEnd 3);
           ([EvInterrupt], Synth (Some ["001"%byte])); ([], Synth (Some ["002"%byte]))]
          (on_connection "s1" emptyServer)).2)
  = length (spoken_units (js "One. Two.")).
Proof.
  refine (proj1
    (one_audio_chunk_per_spoken_sentence None 1 (js "hello") "s1"
       [([], Created 2); ([], Part (js "One. Two.")); ([], StreamEnd 3);
        ([EvInterrupt], Synth (Some ["001"%byte])); ([], Synth (Some ["002"%byte]))]
       (on_connection "s1" emptyServer) 2 (js "One. Two.") _)).
  vm_compute. repeat constructor.
Defined.

(** The timer fires again while the recognition of 9000 buffered bytes is
    under way. *)
Lemma overlapping_partial_clears_mark_witness :
  (partialTranscription_begin "s1"
     (partialTranscription_begin "s1"
        (handle_all "s1" [EvAudioChunk (replicate (Z.to_nat 9000) "000"%byte)]
           (on_connection "s1" emptyServer)).1).1).2
  = AudioReturned.
Proof.
  refine (proj1
    (overlapping_partial_clears_mark
       (partialTranscription_begin "s1"
          (handle_all "s1" [EvAudioChunk (replicate (Z.to_nat 9000) "000"%byte)]
             (on_connection "s1" emptyServer)).1).1 "s1" _)).
  vm_compute; reflexivity.
Defined.
